(** * O-script: a shallow embedding of [oscript.py]

    The development follows the layout of the source file: tokens and the
    syntax tree, the recursive-descent parser, the run-time values, the
    per-instance history engine ([OInstance]), and the tree-walking
    evaluator ([Interpreter]).  Python objects that are mutated in place
    (environments, instances) live in an explicit store; exceptions are an
    explicit outcome that carries the store reached when they were raised. *)

From Stdlib Require Import ZArith String Ascii List Bool Lia Sorted.
From Stdlib Require Import Floats.PrimFloat Floats.SpecFloat Floats.FloatOps
  Floats.FloatAxioms.
From stdpp Require Import base option gmap strings list fin_maps pretty.

Open Scope string_scope.
Open Scope list_scope.
Open Scope Z_scope.

Set Default Proof Using "Type".
Set Warnings "-register-all".

(* ===================================================================== *)
(** ** Lexer data: [TokenType] and [Token]                                *)
(* ===================================================================== *)

Inductive TokenType :=
| LEFT_PAREN | RIGHT_PAREN | LEFT_BRACE | RIGHT_BRACE
| COMMA | DOT | MINUS | PLUS | SEMICOLON | SLASH | STAR
| BANG | BANG_EQUAL | EQUAL | EQUAL_EQUAL
| GREATER | GREATER_EQUAL | LESS | LESS_EQUAL
| IDENTIFIER | STRING | NUMBER
| AND | CLASS | ELSE | FALSE | FUN | IF | NIL | OR
| PRINT | RETURN | THIS | TRUE | VAR | WHILE | NEW
| EOF.

#[global] Instance TokenType_eq_dec : EqDecision TokenType.
Proof. solve_decision. Defined.

(** The [literal] slot of a token and the payload of a [Literal] node: the
    scanner stores [None], a float or a string there; the parser adds the
    two booleans. *)
Inductive literal :=
| LNone
| LBool (b : bool)
| LNumber (f : float)
| LString (s : string).

Record Token := mkToken {
  type : TokenType;
  lexeme : string;
  tok_literal : literal;
  line : Z
}.

(* ===================================================================== *)
(** ** AST                                                                *)
(* ===================================================================== *)

Inductive Expr :=
| Literal (value : literal)
| Grouping (expression : Expr)
| Unary (operator : Token) (right : Expr)
| Binary (left : Expr) (operator : Token) (right : Expr)
| Variable_ (name : Token)
| Assign (name : Token) (value : Expr)
| Logical (left : Expr) (operator : Token) (right : Expr)
| Call (callee : Expr) (paren : Token) (arguments : list Expr)
| Get (object : Expr) (name : Token)
| SetExpr (object : Expr) (name : Token) (value : Expr)
| This (keyword : Token)
| NewExpr (class_name : Token) (arguments : list Expr).

Inductive Stmt :=
| ExpressionStmt (expression : Expr)
| PrintStmt (expression : Expr)
| VarStmt (name : Token) (initializer : option Expr)
| BlockStmt (statements : list Stmt)
| IfStmt (condition : Expr) (then_branch : Stmt) (else_branch : option Stmt)
| WhileStmt (condition : Expr) (body : Stmt)
| FunctionStmt (name : Token) (params : list Token) (body : list Stmt)
| ReturnStmt (keyword : Token) (value : option Expr)
| ClassStmt (name : Token) (methods : list FunctionDecl)
with FunctionDecl :=
| mkFunction (name : Token) (params : list Token) (body : list Stmt).

(** A [FunctionStmt] object seen as a statement, and its three attributes. *)
Definition fn_stmt (d : FunctionDecl) : Stmt :=
  match d with mkFunction n ps b => FunctionStmt n ps b end.
Definition fn_name (d : FunctionDecl) : Token :=
  match d with mkFunction n _ _ => n end.
Definition fn_params (d : FunctionDecl) : list Token :=
  match d with mkFunction _ ps _ => ps end.
Definition fn_body (d : FunctionDecl) : list Stmt :=
  match d with mkFunction _ _ b => b end.

(* ===================================================================== *)
(** ** Parser                                                             *)
(* ===================================================================== *)

(** The parser object: the token list and the cursor [current]. *)
Record Parser := mkParser {
  tokens : list Token;
  current : nat
}.

(** Outcome of a parser method: a value and the parser after the call, a
    [ParseError] with its message, the [IndexError] of a token list that
    does not end in [EOF], or an exhausted recursion budget. *)
Inductive presult (A : Type) :=
| POk (a : A) (p : Parser)
| PParseError (message : string)
| PIndexError
| PFuel.
Arguments POk {A} a p.
Arguments PParseError {A} message.
Arguments PIndexError {A}.
Arguments PFuel {A}.

Definition P (A : Type) : Type := Parser -> presult A.

Definition p_ret {A} (a : A) : P A := fun p => POk a p.
Definition p_bind {A B} (c : P A) (k : A -> P B) : P B :=
  fun p => match c p with
           | POk a p' => k a p'
           | PParseError m => PParseError m
           | PIndexError => PIndexError
           | PFuel => PFuel
           end.
Definition p_raise {A} (m : string) : P A := fun _ => PParseError m.
Definition p_fuel {A} : P A := fun _ => PFuel.

Declare Scope parser_scope.
Delimit Scope parser_scope with parser.
Notation "x <- c ;; k" := (p_bind c (fun x => k))
  (at level 100, c at next level, right associativity) : parser_scope.
Notation "c ;; k" := (p_bind c (fun _ => k))
  (at level 100, right associativity) : parser_scope.
Open Scope parser_scope.

Module ParserHelpers.

(** [self.tokens[self.current]] *)
Definition peek : P Token := fun p =>
  match tokens p !! current p with
  | Some t => POk t p
  | None => PIndexError
  end.

(** [self.tokens[self.current-1]]; index [-1] is the last token. *)
Definition previous : P Token := fun p =>
  match current p with
  | O => match last (tokens p) with Some t => POk t p | None => PIndexError end
  | S i => match tokens p !! i with Some t => POk t p | None => PIndexError end
  end.

Definition is_at_end : P bool :=
  t <- peek ;; p_ret (bool_decide (type t = EOF)).

Definition advance : P Token :=
  e <- is_at_end ;;
  (if e then p_ret tt
   else fun p => POk tt (mkParser (tokens p) (S (current p)))) ;;
  previous.

Definition check (type_ : TokenType) : P bool :=
  e <- is_at_end ;;
  if e then p_ret false
  else t <- peek ;; p_ret (bool_decide (type t = type_)).

Fixpoint match_ (types : list TokenType) : P bool :=
  match types with
  | [] => p_ret false
  | t :: rest =>
      c <- check t ;;
      if c then (advance ;; p_ret true) else match_ rest
  end.

(** [ParseError(f"[line {token.line}] Error at '{token.lexeme}': {message}")] *)
Definition error (token : Token) (message : string) : string :=
  "[line " +:+ pretty (line token) +:+ "] Error at '" +:+ lexeme token
    +:+ "': " +:+ message.

Definition consume (type_ : TokenType) (message : string) : P Token :=
  c <- check type_ ;;
  if c then advance
  else t <- peek ;; p_raise (error t message).

End ParserHelpers.
Import ParserHelpers.

Module Parse.

(** The parsing methods.  The grammar is recursive through five methods
  ([expression], [assignment], [unary], [statement], [declaration]); a
  call that re-enters one of them goes through [self], which holds the
  same methods with a smaller recursion budget.  A [while] loop is a
  recursive helper that spends one unit of [fuel] per iteration. *)
Record rec_calls := mkRec {
rec_expression : P Expr;
rec_assignment : P Expr;
rec_unary : P Expr;
rec_statement : P Stmt;
rec_declaration : P Stmt
}.

(** The loop of [Parser.function] that collects the parameter names. *)
Fixpoint params_loop (fuel : nat) (params : list Token) : P (list Token) :=
match fuel with
| O => p_fuel
| S n =>
    if (255 <=? length params)%nat then
      t <- peek ;; p_raise (error t "Can't have more than 255 parameters.")
    else
      t <- consume IDENTIFIER "Expect parameter name." ;;
      let params := params ++ [t] in
      m <- match_ [COMMA] ;;
      if m then params_loop n params else p_ret params
end.

(** The argument loop of [Parser.finish_call]. *)
Fixpoint call_args (fuel : nat) (expression : P Expr) (args : list Expr)
  : P (list Expr) :=
match fuel with
| O => p_fuel
| S n =>
    if (255 <=? length args)%nat then
      t <- peek ;; p_raise (error t "Can't have more than 255 arguments.")
    else
      e <- expression ;;
      let args := args ++ [e] in
      m <- match_ [COMMA] ;;
      if m then call_args n expression args else p_ret args
end.

(** The argument loop of the [new Name(args)] case of [Parser.primary]. *)
Fixpoint new_args (fuel : nat) (expression : P Expr) (args : list Expr)
  : P (list Expr) :=
match fuel with
| O => p_fuel
| S n =>
    e <- expression ;;
    let args := args ++ [e] in
    m <- match_ [COMMA] ;;
    if m then new_args n expression args else p_ret args
end.

(** [while self.match(ops): op=self.previous(); right=operand();
  expr=mk(expr, op, right)], the loop shared by the binary levels. *)
Fixpoint binary_loop (fuel : nat) (ops : list TokenType) (operand : P Expr)
  (mk : Expr -> Token -> Expr -> Expr) (expr : Expr) : P Expr :=
match fuel with
| O => p_fuel
| S n =>
    m <- match_ ops ;;
    if m then
      op <- previous ;;
      right <- operand ;;
      binary_loop n ops operand mk (mk expr op right)
    else p_ret expr
end.

(** The loop of [Parser.call]: call suffixes and property accesses. *)
Fixpoint call_loop (fuel : nat) (finish_call : Expr -> P Expr) (expr : Expr)
  : P Expr :=
match fuel with
| O => p_fuel
| S n =>
    m <- match_ [LEFT_PAREN] ;;
    if m then (e <- finish_call expr ;; call_loop n finish_call e) else
    m <- match_ [DOT] ;;
    if m then
      name <- consume IDENTIFIER "Expect property name after '.'." ;;
      call_loop n finish_call (Get expr name)
    else p_ret expr
end.

(** [while not self.check(RIGHT_BRACE) and not self.is_at_end():
  items.append(item())], the loop of class bodies and blocks. *)
Fixpoint until_brace {A} (fuel : nat) (item : P A) (items : list A)
  : P (list A) :=
match fuel with
| O => p_fuel
| S n =>
    c <- check RIGHT_BRACE ;;
    if c then p_ret items else
    e <- is_at_end ;;
    if e then p_ret items else
    x <- item ;;
    until_brace n item (items ++ [x])
end.

Section Grammar.
Variable fuel : nat.
Variable self : rec_calls.

Definition primary : P Expr :=
  m <- match_ [FALSE] ;;
  if m then p_ret (Literal (LBool false)) else
  m <- match_ [TRUE] ;;
  if m then p_ret (Literal (LBool true)) else
  m <- match_ [NIL] ;;
  if m then p_ret (Literal LNone) else
  m <- match_ [NUMBER; STRING] ;;
  if m then (t <- previous ;; p_ret (Literal (tok_literal t))) else
  m <- match_ [THIS] ;;
  if m then (t <- previous ;; p_ret (This t)) else
  m <- match_ [NEW] ;;
  if m then
    class_name <- consume IDENTIFIER "Expect class name after 'new'." ;;
    consume LEFT_PAREN "Expect '(' after class name." ;;
    c <- check RIGHT_PAREN ;;
    args <- (if c then p_ret []
             else new_args fuel (rec_expression self) []) ;;
    consume RIGHT_PAREN "Expect ')' after arguments." ;;
    p_ret (NewExpr class_name args)
  else
  m <- match_ [IDENTIFIER] ;;
  if m then (t <- previous ;; p_ret (Variable_ t)) else
  m <- match_ [LEFT_PAREN] ;;
  if m then
    expr <- rec_expression self ;;
    consume RIGHT_PAREN "Expect ')' after expression." ;;
    p_ret (Grouping expr)
  else
  t <- peek ;; p_raise (error t "Expect expression.").

Definition finish_call (callee : Expr) : P Expr :=
  c <- check RIGHT_PAREN ;;
  args <- (if c then p_ret []
           else call_args fuel (rec_expression self) []) ;;
  paren <- consume RIGHT_PAREN "Expect ')' after arguments." ;;
  p_ret (Call callee paren args).

Definition call : P Expr :=
  expr <- primary ;; call_loop fuel finish_call expr.

Definition unary : P Expr :=
  m <- match_ [BANG; MINUS] ;;
  if m then
    op <- previous ;;
    right <- rec_unary self ;;
    p_ret (Unary op right)
  else call.

Definition factor : P Expr :=
  expr <- unary ;; binary_loop fuel [SLASH; STAR] unary Binary expr.

Definition term : P Expr :=
  expr <- factor ;; binary_loop fuel [MINUS; PLUS] factor Binary expr.

Definition comparison : P Expr :=
  expr <- term ;;
  binary_loop fuel [GREATER; GREATER_EQUAL; LESS; LESS_EQUAL] term
    Binary expr.

Definition equality : P Expr :=
  expr <- comparison ;;
  binary_loop fuel [BANG_EQUAL; EQUAL_EQUAL] comparison Binary expr.

Definition and_ : P Expr :=
  expr <- equality ;; binary_loop fuel [AND] equality Logical expr.

Definition or_ : P Expr :=
  expr <- and_ ;; binary_loop fuel [OR] and_ Logical expr.

Definition assignment : P Expr :=
  expr <- or_ ;;
  m <- match_ [EQUAL] ;;
  if m then
    equals <- previous ;;
    value <- rec_assignment self ;;
    match expr with
    | Variable_ name => p_ret (Assign name value)
    | Get object name => p_ret (SetExpr object name value)
    | _ => p_raise (error equals "Invalid assignment target.")
    end
  else p_ret expr.

Definition expression : P Expr := assignment.

Definition expression_statement : P Stmt :=
  expr <- expression ;;
  consume SEMICOLON "Expect ';' after expression." ;;
  p_ret (ExpressionStmt expr).

Definition print_statement : P Stmt :=
  value <- expression ;;
  consume SEMICOLON "Expect ';' after value." ;;
  p_ret (PrintStmt value).

Definition block : P (list Stmt) :=
  statements <- until_brace fuel (rec_declaration self) [] ;;
  consume RIGHT_BRACE "Expect '}' after block." ;;
  p_ret statements.

Definition while_statement : P Stmt :=
  consume LEFT_PAREN "Expect '(' after 'while'." ;;
  condition <- expression ;;
  consume RIGHT_PAREN "Expect ')' after condition." ;;
  body <- rec_statement self ;;
  p_ret (WhileStmt condition body).

Definition if_statement : P Stmt :=
  consume LEFT_PAREN "Expect '(' after 'if'." ;;
  condition <- expression ;;
  consume RIGHT_PAREN "Expect ')' after if condition." ;;
  then_branch <- rec_statement self ;;
  m <- match_ [ELSE] ;;
  else_branch <- (if m then s <- rec_statement self ;; p_ret (Some s)
                  else p_ret None) ;;
  p_ret (IfStmt condition then_branch else_branch).

Definition return_statement : P Stmt :=
  keyword <- previous ;;
  c <- check SEMICOLON ;;
  value <- (if c then p_ret None
            else e <- expression ;; p_ret (Some e)) ;;
  consume SEMICOLON "Expect ';' after return value." ;;
  p_ret (ReturnStmt keyword value).

Definition statement : P Stmt :=
  m <- match_ [PRINT] ;;
  if m then print_statement else
  m <- match_ [LEFT_BRACE] ;;
  if m then (b <- block ;; p_ret (BlockStmt b)) else
  m <- match_ [IF] ;;
  if m then if_statement else
  m <- match_ [WHILE] ;;
  if m then while_statement else
  m <- match_ [RETURN] ;;
  if m then return_statement else
  expression_statement.

Definition var_declaration : P Stmt :=
  name <- consume IDENTIFIER "Expect variable name." ;;
  m <- match_ [EQUAL] ;;
  initializer <- (if m then e <- expression ;; p_ret (Some e)
                  else p_ret None) ;;
  consume SEMICOLON "Expect ';' after variable declaration." ;;
  p_ret (VarStmt name initializer).

Definition function (kind : string) : P FunctionDecl :=
  name <- consume IDENTIFIER ("Expect " +:+ kind +:+ " name.") ;;
  consume LEFT_PAREN ("Expect '(' after " +:+ kind +:+ " name.") ;;
  c <- check RIGHT_PAREN ;;
  params <- (if c then p_ret [] else params_loop fuel []) ;;
  consume RIGHT_PAREN "Expect ')' after parameters." ;;
  consume LEFT_BRACE ("Expect '{' before " +:+ kind +:+ " body.") ;;
  body <- block ;;
  p_ret (mkFunction name params body).

Definition class_method : P FunctionDecl :=
  consume FUN "Expect 'fun' before method declaration." ;;
  function "method".

Definition class_declaration : P Stmt :=
  name <- consume IDENTIFIER "Expect class name." ;;
  consume LEFT_BRACE "Expect '{' before class body." ;;
  methods <- until_brace fuel class_method [] ;;
  consume RIGHT_BRACE "Expect '}' after class body." ;;
  p_ret (ClassStmt name methods).

Definition declaration : P Stmt :=
  m <- match_ [CLASS] ;;
  if m then class_declaration else
  m <- match_ [FUN] ;;
  if m then (f <- function "function" ;; p_ret (fn_stmt f)) else
  m <- match_ [VAR] ;;
  if m then var_declaration else
  statement.

End Grammar.

(** The methods available with recursion budget [fuel]. *)
Fixpoint parser_at (fuel : nat) : rec_calls :=
match fuel with
| O => mkRec p_fuel p_fuel p_fuel p_fuel p_fuel
| S n =>
    let self := parser_at n in
    mkRec (expression n self) (assignment n self) (unary n self)
          (statement n self) (declaration n self)
end.

(** [Parser.parse]: declarations until the [EOF] token. *)
Fixpoint parse_loop (fuel : nat) (declaration : P Stmt)
  (statements : list Stmt) : P (list Stmt) :=
match fuel with
| O => p_fuel
| S n =>
    e <- is_at_end ;;
    if e then p_ret statements
    else s <- declaration ;; parse_loop n declaration (statements ++ [s])
end.

Definition parse (fuel : nat) (toks : list Token) : presult (list Stmt) :=
parse_loop fuel (rec_declaration (parser_at fuel)) [] (mkParser toks 0).

End Parse.

Close Scope parser_scope.

(* ===================================================================== *)
(** ** The host language's primitives                                     *)
(* ===================================================================== *)

(** The interpreter leans on a few Python built-ins: [int] and [float]
    arithmetic, [str] of a number, [json.dumps], [dict(...)].  This module
    states what they compute on the objects the interpreter hands them.  A
    Python [str] is a [string] here, one character per code point below 256. *)
Module Py.

(** *** Floats *)

(** [float.is_integer] *)
Definition is_integer (f : float) : bool :=
  match Prim2SF f with
  | S754_zero _ => true
  | S754_finite _ m e =>
      if 0 <=? e then true else (Z.pos m mod 2 ^ (- e) =? 0)
  | _ => false
  end.

(** [int(f)] for a finite [f] (truncation towards zero). *)
Definition int_of_float (f : float) : Z :=
  match Prim2SF f with
  | S754_finite s m e =>
      let a := if 0 <=? e then Z.pos m * 2 ^ e else Z.pos m / 2 ^ (- e) in
      if s then - a else a
  | _ => 0
  end.

(** The double nearest to [num / den] ([den] positive), ties to even. *)
Definition round_ratio (num den : Z) : spec_float :=
  if num =? 0 then S754_zero false else
  let a := Z.abs num in
  let k := Z.max 0 (Z.log2 den - Z.log2 a + 56) in
  let q := (a * 2 ^ k) / den in
  let r := (a * 2 ^ k) mod den in
  let m := 2 * q + (if r =? 0 then 0 else 1) in
  binary_normalize prec emax (if num <? 0 then - m else m) (- k - 1) false.

(** [m * 10^q] as a fraction. *)
Definition decimal_ratio (m q : Z) : Z * Z :=
  if 0 <=? q then (m * 10 ^ q, 1) else (m, 10 ^ (- q)).

(** Does the decimal [d * 10^q] read back as the positive double [f]? *)
Definition reads_as (f : float) (d q : Z) : bool :=
  let '(n, den) := decimal_ratio d q in
  PrimFloat.eqb (SF2Prim (round_ratio n den)) f.

(** The least [k], from [k0] upwards, with [num / den < 10^k]. *)
Fixpoint decimal_point (fuel : nat) (num den k : Z) : Z :=
  match fuel with
  | O => k
  | S n =>
      let '(a, b) := decimal_ratio den k in
      if num * b <? a then k else decimal_point n num den (k + 1)
  end.

(** The shortest decimal [d * 10^q] that reads back as [f = num / den],
    trying 1 to 17 significant digits; of two candidates the nearer. *)
Fixpoint shortest (fuel : nat) (f : float) (num den k n : Z) : Z * Z :=
  let q := k - n in
  let '(a, b) := decimal_ratio den q in
  (* num/den / 10^q = (num * b) / a *)
  let lo := (num * b) / a in
  let r := (num * b) mod a in
  match fuel with
  | O => (if 2 * r <? a then lo else lo + 1, q)
  | S fuel' =>
      let ok_lo := reads_as f lo q in
      let ok_hi := reads_as f (lo + 1) q in
      if ok_lo && ok_hi then
        (if 2 * r <? a then lo
         else if a <? 2 * r then lo + 1
         else if Z.even lo then lo else lo + 1, q)
      else if ok_lo then (lo, q)
      else if ok_hi then (lo + 1, q)
      else shortest fuel' f num den k (n + 1)
  end.

Fixpoint strip_zeros (fuel : nat) (d q : Z) : Z * Z :=
  match fuel with
  | O => (d, q)
  | S n => if (d mod 10 =? 0) && negb (d =? 0)
           then strip_zeros n (d / 10) (q + 1) else (d, q)
  end.

Fixpoint zeros (n : nat) : string :=
  match n with O => "" | S n => "0" +:+ zeros n end.

Definition take_str (n : nat) (s : string) : string := String.substring 0 n s.
Definition drop_str (n : nat) (s : string) : string :=
  String.substring n (String.length s - n) s.

(** The ['r'] format of the digits [ds] with the decimal point after
    [decpt] of them. *)
Definition format_repr (ds : string) (decpt : Z) : string :=
  let len := Z.of_nat (String.length ds) in
  if (decpt <=? -4) || (16 <? decpt) then
    let e := decpt - 1 in
    let mant := if len =? 1 then ds
                else take_str 1 ds +:+ "." +:+ drop_str 1 ds in
    let es := pretty (Z.abs e) in
    mant +:+ "e" +:+ (if e <? 0 then "-" else "+")
         +:+ (if Z.abs e <? 10 then "0" else "") +:+ es
  else if decpt <=? 0 then
    "0." +:+ zeros (Z.to_nat (- decpt)) +:+ ds
  else if len <=? decpt then
    ds +:+ zeros (Z.to_nat (decpt - len)) +:+ ".0"
  else
    take_str (Z.to_nat decpt) ds +:+ "." +:+ drop_str (Z.to_nat decpt) ds.

(** [repr(f)], which is also [str(f)]. *)
Definition float_repr (f : float) : string :=
  match Prim2SF f with
  | S754_nan => "nan"
  | S754_infinity s => if s then "-inf" else "inf"
  | S754_zero s => if s then "-0.0" else "0.0"
  | S754_finite s m e =>
      let num := if 0 <=? e then Z.pos m * 2 ^ e else Z.pos m in
      let den := if 0 <=? e then 1 else 2 ^ (- e) in
      let k0 := ((Z.log2 num - Z.log2 den) * 30103) / 100000 - 2 in
      let k := decimal_point 8 num den k0 in
      let '(d, q) := shortest 16 (PrimFloat.abs f) num den k 1 in
      let '(d, q) := strip_zeros 20 d q in
      let ds := pretty d in
      (if s then "-" else "") +:+
      format_repr ds (Z.of_nat (String.length ds) + q)
  end.

(** *** Strings *)

Definition quote : ascii := "034"%char.
Definition apostrophe : ascii := "039"%char.
Definition backslash : ascii := "092"%char.
Definition chr (a : ascii) : string := String a EmptyString.

Definition hex_digit (n : nat) : string :=
  String.substring n 1 "0123456789abcdef".
Definition hex2 (n : nat) : string :=
  hex_digit (n / 16) +:+ hex_digit (n mod 16).

Fixpoint concat_map (f : ascii -> string) (s : string) : string :=
  match s with
  | EmptyString => ""
  | String a rest => f a +:+ concat_map f rest
  end.

Fixpoint contains (a : ascii) (s : string) : bool :=
  match s with
  | EmptyString => false
  | String b rest => Ascii.eqb a b || contains a rest
  end.

(** One character of a JSON string, [ensure_ascii] being on. *)
Definition json_char (a : ascii) : string :=
  let n := nat_of_ascii a in
  if Ascii.eqb a quote then chr backslash +:+ chr quote
  else if Ascii.eqb a backslash then chr backslash +:+ chr backslash
  else if (n =? 10)%nat then chr backslash +:+ "n"
  else if (n =? 13)%nat then chr backslash +:+ "r"
  else if (n =? 9)%nat then chr backslash +:+ "t"
  else if (n =? 8)%nat then chr backslash +:+ "b"
  else if (n =? 12)%nat then chr backslash +:+ "f"
  else if (32 <=? n)%nat && (n <=? 126)%nat then chr a
  else chr backslash +:+ "u00" +:+ hex2 n.

(** [json.dumps(s)] for a [str]. *)
Definition json_str (s : string) : string :=
  chr quote +:+ concat_map json_char s +:+ chr quote.

Definition printable (n : nat) : bool :=
  ((32 <=? n)%nat && (n <=? 126)%nat)
  || ((161 <=? n)%nat && negb (n =? 173)%nat).

Definition repr_char (q : ascii) (a : ascii) : string :=
  let n := nat_of_ascii a in
  if Ascii.eqb a q || Ascii.eqb a backslash then chr backslash +:+ chr a
  else if (n =? 10)%nat then chr backslash +:+ "n"
  else if (n =? 13)%nat then chr backslash +:+ "r"
  else if (n =? 9)%nat then chr backslash +:+ "t"
  else if printable n then chr a
  else chr backslash +:+ "x" +:+ hex2 n.

(** [repr(s)] for a [str]. *)
Definition str_repr (s : string) : string :=
  let q := if contains apostrophe s && negb (contains quote s)
           then quote else apostrophe in
  chr q +:+ concat_map (repr_char q) s +:+ chr q.

(** [sep.join(items)] *)
Fixpoint join (sep : string) (items : list string) : string :=
  match items with
  | [] => ""
  | [x] => x
  | x :: rest => x +:+ sep +:+ join sep rest
  end.

(** *** Numbers: [int] and [float] *)

Inductive number :=
| Int (z : Z)
| Float (f : float).

(** The built-in exceptions the interpreter can run into. *)
Inductive exception :=
| TypeError
| ValueError
| KeyError
| OverflowError
| ZeroDivisionError
| EOFError
| UnknownNode.

Definition is_inf (x : spec_float) : bool :=
  match x with S754_infinity _ => true | _ => false end.

(** [float(z)]: the nearest double, [OverflowError] beyond the range. *)
Definition float_of_int (z : Z) : exception + float :=
  let x := binary_normalize prec emax z 0 false in
  if is_inf x then inl OverflowError else inr (SF2Prim x).

Definition as_float (a : number) : exception + float :=
  match a with
  | Int z => float_of_int z
  | Float f => inr f
  end.

Definition float_op (op : float -> float -> float) (a b : number)
    : exception + number :=
  match as_float a with
  | inl e => inl e
  | inr x =>
      match as_float b with
      | inl e => inl e
      | inr y => inr (Float (op x y))
      end
  end.

Definition add (a b : number) : exception + number :=
  match a, b with
  | Int x, Int y => inr (Int (x + y))
  | _, _ => float_op PrimFloat.add a b
  end.

Definition sub (a b : number) : exception + number :=
  match a, b with
  | Int x, Int y => inr (Int (x - y))
  | _, _ => float_op PrimFloat.sub a b
  end.

Definition mul (a b : number) : exception + number :=
  match a, b with
  | Int x, Int y => inr (Int (x * y))
  | _, _ => float_op PrimFloat.mul a b
  end.

(** [a / b], true division. *)
Definition truediv (a b : number) : exception + number :=
  match a, b with
  | Int x, Int y =>
      if y =? 0 then inl ZeroDivisionError else
      let q := round_ratio (if y <? 0 then - x else x) (Z.abs y) in
      if is_inf q then inl OverflowError else inr (Float (SF2Prim q))
  | _, _ =>
      match as_float a with
      | inl e => inl e
      | inr x =>
          match as_float b with
          | inl e => inl e
          | inr y =>
              if PrimFloat.eqb y PrimFloat.zero then inl ZeroDivisionError
              else inr (Float (PrimFloat.div x y))
          end
      end
  end.

Definition neg (a : number) : number :=
  match a with
  | Int z => Int (- z)
  | Float f => Float (PrimFloat.opp f)
  end.

(** An [int] against a [float], compared exactly; [None] for a NaN. *)
Definition compare_int_float (z : Z) (f : float) : option Datatypes.comparison :=
  match Prim2SF f with
  | S754_nan => None
  | S754_zero _ => Some (z ?= 0)
  | S754_infinity s => Some (if s then Gt else Lt)
  | S754_finite s m e =>
      let v := if s then Z.neg m else Z.pos m in
      Some (if 0 <=? e then z ?= v * 2 ^ e else z * 2 ^ (- e) ?= v)
  end.

Definition is_Lt (c : option Datatypes.comparison) : bool :=
  match c with Some Lt => true | _ => false end.
Definition is_Gt (c : option Datatypes.comparison) : bool :=
  match c with Some Gt => true | _ => false end.
Definition is_Eq (c : option Datatypes.comparison) : bool :=
  match c with Some Eq => true | _ => false end.

Definition lt (a b : number) : bool :=
  match a, b with
  | Int x, Int y => x <? y
  | Float x, Float y => PrimFloat.ltb x y
  | Int x, Float y => is_Lt (compare_int_float x y)
  | Float x, Int y => is_Gt (compare_int_float y x)
  end.

Definition eq (a b : number) : bool :=
  match a, b with
  | Int x, Int y => x =? y
  | Float x, Float y => PrimFloat.eqb x y
  | Int x, Float y => is_Eq (compare_int_float x y)
  | Float x, Int y => is_Eq (compare_int_float y x)
  end.

Definition le (a b : number) : bool := lt a b || eq a b.
Definition gt (a b : number) : bool := lt b a.
Definition ge (a b : number) : bool := le b a.

(** [str(n)] of a number. *)
Definition number_str (a : number) : string :=
  match a with
  | Int z => pretty z
  | Float f => float_repr f
  end.

(** The number as [json.dumps] writes it. *)
Definition number_json (a : number) : string :=
  match a with
  | Int z => pretty z
  | Float f =>
      match Prim2SF f with
      | S754_nan => "NaN"
      | S754_infinity s => if s then "-Infinity" else "Infinity"
      | _ => float_repr f
      end
  end.

End Py.

(** *** [dict]: insertion-ordered, keyed by [str] *)
Module Dict.

Definition t (V : Type) : Type := list (string * V).

(** [d.get(k)] *)
Fixpoint get {V} (d : t V) (k : string) : option V :=
  match d with
  | [] => None
  | (k', v) :: rest => if String.eqb k' k then Some v else get rest k
  end.

(** [k in d] *)
Definition mem {V} (d : t V) (k : string) : bool :=
  match get d k with Some _ => true | None => false end.

(** [d[k] = v]: in place for a known key, at the end for a new one. *)
Fixpoint set {V} (d : t V) (k : string) (v : V) : t V :=
  match d with
  | [] => [(k, v)]
  | (k', v') :: rest =>
      if String.eqb k' k then (k', v) :: rest
      else (k', v') :: set rest k v
  end.

(** [del d[k]] for a key that is present. *)
Fixpoint del {V} (d : t V) (k : string) : t V :=
  match d with
  | [] => []
  | (k', v') :: rest =>
      if String.eqb k' k then rest else (k', v') :: del rest k
  end.

(** [list(d.keys())] *)
Definition keys {V} (d : t V) : list string := map fst d.

(** [{k: f(v) for k, v in d.items()}] on a well-formed dict. *)
Definition map_values {V W} (f : V -> W) (d : t V) : t W :=
  map (fun kv => (fst kv, f (snd kv))) d.

End Dict.

(* ===================================================================== *)
(** ** Runtime values                                                     *)
(* ===================================================================== *)

(** An [Environment] object is referred to by the chain of frames from
    itself up to the globals: [enclosing] is set when the object is built
    and never reassigned, so the chain is part of the reference; the
    [values] dict of each frame lives in the store. *)
Definition env_ref := list nat.

Record OFunction := mkOFunction {
  fn_object : nat;                (* the identity of the Python object *)
  declaration : FunctionDecl;
  closure : env_ref;
  is_initializer : bool
}.

Record OClass := mkOClass {
  class_object : nat;
  class_name : string;
  methods : Dict.t OFunction
}.

(** The callables wrapped by [NativeFunction]: the six of
    [Interpreter.__init__] and the lambdas of [OInstance.get], each with
    the instance (by [id]) and the line its closure captured. *)
Inductive native_func :=
| fn_clock | fn_str | fn_type | fn_len
| fn_input | fn_assert
| bound_undo (self : Z) (line : Z)
| bound_redo (self : Z) (line : Z)
| bound_history (self : Z)
| bound_id (self : Z)
| bound_checkpoint (self : Z) (line : Z)
| bound_rollback (self : Z) (line : Z)
| bound_checkpoints (self : Z).

Record NativeFunction := mkNative {
  native_object : nat;
  _name : string;
  _arity : Z;
  _func : native_func
}.

(** The elements of the lists the natives return: a label of
    [checkpoints()], or an entry of [history()]. *)
Inductive item :=
| ItemStr (s : string)
| ItemEntry (step line : Z) (field old new : string).

(** A reference to an instance carries the two attributes that never
    change, [klass] and [id]; the mutable part is in the store under [id]. *)
Inductive value :=
| VNone
| VBool (b : bool)
| VInt (z : Z)
| VFloat (f : float)
| VStr (s : string)
| VClass (k : OClass)
| VFunction (f : OFunction)
| VNative (n : NativeFunction)
| VInstance (klass : OClass) (id : Z)
| VList (items : list item).

(** What a slot of a patch can hold. *)
Inductive pyobj :=
| UNDEFINED
| Obj (v : value)
| Snapshot (d : Dict.t value).

(** A patch [(field, old, new, step, line)].  [OInstance.set] builds the
    first shape, with any field name; [OInstance._rollback] builds the
    second, whose field is the marker. *)
Inductive Patch :=
| FieldPatch (field : string) (old : option value) (new : value)
    (step line : Z)
| SnapshotPatch (old new : Dict.t value) (step line : Z).

Definition patch_field (p : Patch) : string :=
  match p with
  | FieldPatch f _ _ _ _ => f
  | SnapshotPatch _ _ _ _ => "__snapshot__"
  end.
Definition patch_old (p : Patch) : pyobj :=
  match p with
  | FieldPatch _ (Some v) _ _ _ => Obj v
  | FieldPatch _ None _ _ _ => UNDEFINED
  | SnapshotPatch o _ _ _ => Snapshot o
  end.
Definition patch_new (p : Patch) : pyobj :=
  match p with
  | FieldPatch _ _ v _ _ => Obj v
  | SnapshotPatch _ n _ _ => Snapshot n
  end.
Definition patch_step (p : Patch) : Z :=
  match p with
  | FieldPatch _ _ _ s _ => s
  | SnapshotPatch _ _ s _ => s
  end.
Definition patch_line (p : Patch) : Z :=
  match p with
  | FieldPatch _ _ _ _ l => l
  | SnapshotPatch _ _ _ l => l
  end.

Record OInstance := mkOInstance {
  klass : OClass;
  id : Z;
  fields : Dict.t value;
  past : list Patch;
  future : list Patch;
  checkpoints : Dict.t (Dict.t value)
}.

(** The records of the trace, one constructor per ["type"]. *)
Inductive Event :=
| EvNew (step : Z) (object : string)
| EvSet (step line : Z) (object field old new : string)
    (fields_after : Dict.t string)
| EvUndo (step line : Z) (object field old new : string)
    (fields_after : Dict.t string) (rewinds_step : Z)
| EvRedo (step line : Z) (object field old new : string)
    (fields_after : Dict.t string) (reapplies_step : Z)
| EvCheckpoint (step line : Z) (object name : string)
    (fields_after : Dict.t string)
| EvRollback (step line : Z) (object name : string)
    (fields_after : Dict.t string).

(** The interpreter object with the store of the objects it can reach,
    and the host's console and clock. *)
Record Interpreter := mkInterpreter {
  globals : env_ref;
  environment : env_ref;
  _step : Z;
  trace : list Event;
  _next_obj_id : Z;
  frames : gmap nat (Dict.t value);
  instances : gmap Z OInstance;
  next_object : nat;
  stdout : list string;
  stdin : list string;
  wall_clock : nat -> float;
  clock_reads : nat
}.

(** Outcome of a run-time method. *)
Inductive outcome (A : Type) :=
| Ok (a : A)
| RuntimeError_ (token : Token) (message : string)
| ReturnException (v : value)
| PyError (e : Py.exception)
| OutOfFuel.
Arguments Ok {A} a.
Arguments RuntimeError_ {A} token message.
Arguments ReturnException {A} v.
Arguments PyError {A} e.
Arguments OutOfFuel {A}.

(* ===================================================================== *)
(** ** Value serialization ([Interpreter.serialize_value])                *)
(* ===================================================================== *)

Definition json_item (x : item) : string :=
  match x with
  | ItemStr s => Py.json_str s
  | ItemEntry step line field old new =>
      "{" +:+ Py.json_str "step" +:+ ":" +:+ pretty step +:+ ","
          +:+ Py.json_str "line" +:+ ":" +:+ pretty line +:+ ","
          +:+ Py.json_str "field" +:+ ":" +:+ Py.json_str field +:+ ","
          +:+ Py.json_str "old" +:+ ":" +:+ Py.json_str old +:+ ","
          +:+ Py.json_str "new" +:+ ":" +:+ Py.json_str new +:+ "}"
  end.

(** [json.dumps(l, indent=None, separators=(",",":"))] for a list. *)
Definition json_list (items : list item) : string :=
  "[" +:+ Py.join "," (map json_item items) +:+ "]".

(** One value inside a dict handed to [json.dumps]; the interpreter's own
    objects are not serializable. *)
Definition json_value (v : value) : Py.exception + string :=
  match v with
  | VNone => inr "null"
  | VBool b => inr (if b then "true" else "false")
  | VInt z => inr (Py.number_json (Py.Int z))
  | VFloat f => inr (Py.number_json (Py.Float f))
  | VStr s => inr (Py.json_str s)
  | VList items => inr (json_list items)
  | VClass _ | VFunction _ | VNative _ | VInstance _ _ => inl Py.TypeError
  end.

Fixpoint json_members (d : Dict.t value) : Py.exception + list string :=
  match d with
  | [] => inr []
  | (k, v) :: rest =>
      match json_value v with
      | inl e => inl e
      | inr s =>
          match json_members rest with
          | inl e => inl e
          | inr l => inr ((Py.json_str k +:+ ":" +:+ s) :: l)
          end
      end
  end.

(** [json.dumps(d, indent=None, separators=(",",":"))] for a dict. *)
Definition json_dict (d : Dict.t value) : Py.exception + string :=
  match json_members d with
  | inl e => inl e
  | inr l => inr ("{" +:+ Py.join "," l +:+ "}")
  end.

(** [serialize_value] on a value of the language. *)
Definition serialize (v : value) : string :=
  match v with
  | VNone => "nil"
  | VBool b => if b then "true" else "false"
  | VInt z => pretty z
  | VFloat f =>
      if Py.is_integer f then pretty (Py.int_of_float f)
      else Py.float_repr f
  | VStr s => s
  | VInstance k i => "<" +:+ class_name k +:+ "#" +:+ pretty i +:+ ">"
  | VClass k => "<class " +:+ class_name k +:+ ">"
  | VFunction f => "<fn " +:+ lexeme (fn_name (declaration f)) +:+ ">"
  | VNative n => "<native fn " +:+ _name n +:+ ">"
  | VList items => json_list items
  end.

(** [serialize_value] on anything a patch can hold. *)
Definition serialize_value (o : pyobj) : Py.exception + string :=
  match o with
  | UNDEFINED => inr "<undefined>"
  | Obj v => inr (serialize v)
  | Snapshot d => json_dict d
  end.

(** [serialize_value(fields.get(field, _UNDEFINED))] never fails. *)
Definition serialize_old (o : option value) : string :=
  match o with
  | None => "<undefined>"
  | Some v => serialize v
  end.

(** [dict(x)] for the [old] or [new] of a patch whose field reads
    ["__snapshot__"]: a dict is copied; a string or a list is taken as a
    sequence of pairs, so only two-character strings qualify as elements. *)
Fixpoint dict_of_pairs (items : list item) (acc : Dict.t value)
    : Py.exception + Dict.t value :=
  match items with
  | [] => inr acc
  | ItemStr (String a (String b EmptyString)) :: rest =>
      dict_of_pairs rest (Dict.set acc (Py.chr a) (VStr (Py.chr b)))
  | _ :: _ => inl Py.ValueError
  end.

Definition py_dict (x : pyobj) : Py.exception + Dict.t value :=
  match x with
  | Snapshot d => inr d
  | Obj (VStr EmptyString) => inr []
  | Obj (VStr _) => inl Py.ValueError
  | Obj (VList items) => dict_of_pairs items []
  | _ => inl Py.TypeError
  end.

(* ===================================================================== *)
(** ** Interpreter state: steps, trace, store                             *)
(* ===================================================================== *)

Definition with_step (s : Z) (i : Interpreter) : Interpreter :=
  mkInterpreter (globals i) (environment i) s (trace i) (_next_obj_id i)
    (frames i) (instances i) (next_object i) (stdout i) (stdin i)
    (wall_clock i) (clock_reads i).
Definition with_trace (t : list Event) (i : Interpreter) : Interpreter :=
  mkInterpreter (globals i) (environment i) (_step i) t (_next_obj_id i)
    (frames i) (instances i) (next_object i) (stdout i) (stdin i)
    (wall_clock i) (clock_reads i).
Definition with_environment (e : env_ref) (i : Interpreter) : Interpreter :=
  mkInterpreter (globals i) e (_step i) (trace i) (_next_obj_id i)
    (frames i) (instances i) (next_object i) (stdout i) (stdin i)
    (wall_clock i) (clock_reads i).
Definition with_next_obj_id (n : Z) (i : Interpreter) : Interpreter :=
  mkInterpreter (globals i) (environment i) (_step i) (trace i) n
    (frames i) (instances i) (next_object i) (stdout i) (stdin i)
    (wall_clock i) (clock_reads i).
Definition with_frames (f : gmap nat (Dict.t value)) (i : Interpreter)
    : Interpreter :=
  mkInterpreter (globals i) (environment i) (_step i) (trace i)
    (_next_obj_id i) f (instances i) (next_object i) (stdout i) (stdin i)
    (wall_clock i) (clock_reads i).
Definition with_instances (m : gmap Z OInstance) (i : Interpreter)
    : Interpreter :=
  mkInterpreter (globals i) (environment i) (_step i) (trace i)
    (_next_obj_id i) (frames i) m (next_object i) (stdout i) (stdin i)
    (wall_clock i) (clock_reads i).
Definition with_next_object (n : nat) (i : Interpreter) : Interpreter :=
  mkInterpreter (globals i) (environment i) (_step i) (trace i)
    (_next_obj_id i) (frames i) (instances i) n (stdout i) (stdin i)
    (wall_clock i) (clock_reads i).
Definition with_stdout (o : list string) (i : Interpreter) : Interpreter :=
  mkInterpreter (globals i) (environment i) (_step i) (trace i)
    (_next_obj_id i) (frames i) (instances i) (next_object i) o (stdin i)
    (wall_clock i) (clock_reads i).
Definition with_stdin (l : list string) (i : Interpreter) : Interpreter :=
  mkInterpreter (globals i) (environment i) (_step i) (trace i)
    (_next_obj_id i) (frames i) (instances i) (next_object i) (stdout i) l
    (wall_clock i) (clock_reads i).
Definition with_clock_reads (n : nat) (i : Interpreter) : Interpreter :=
  mkInterpreter (globals i) (environment i) (_step i) (trace i)
    (_next_obj_id i) (frames i) (instances i) (next_object i) (stdout i)
    (stdin i) (wall_clock i) n.

(** [Interpreter.next_step] *)
Definition next_step (i : Interpreter) : Z * Interpreter :=
  let i := with_step (_step i + 1) i in
  (_step i, i).

(** [Interpreter.record_event] *)
Definition record_event (event : Event) (i : Interpreter) : Interpreter :=
  with_trace (trace i ++ [event]) i.

(** [l.pop()] on a Python list: the last element and the rest. *)
Fixpoint pop {A} (l : list A) : option (list A * A) :=
  match l with
  | [] => None
  | x :: rest =>
      match pop rest with
      | None => Some ([], x)
      | Some (rest', y) => Some (x :: rest', y)
      end
  end.

(* ===================================================================== *)
(** ** The history engine ([OInstance])                                   *)
(* ===================================================================== *)

Definition with_fields (f : Dict.t value) (o : OInstance) : OInstance :=
  mkOInstance (klass o) (id o) f (past o) (future o) (checkpoints o).
Definition with_past (p : list Patch) (o : OInstance) : OInstance :=
  mkOInstance (klass o) (id o) (fields o) p (future o) (checkpoints o).
Definition with_future (f : list Patch) (o : OInstance) : OInstance :=
  mkOInstance (klass o) (id o) (fields o) (past o) f (checkpoints o).
Definition with_checkpoints (c : Dict.t (Dict.t value)) (o : OInstance)
    : OInstance :=
  mkOInstance (klass o) (id o) (fields o) (past o) (future o) c.

(** [OInstance(klass, obj_id)] *)
Definition new_instance (k : OClass) (obj_id : Z) : OInstance :=
  mkOInstance k obj_id [] [] [] [].

Module Instance.

(** The result of a method that can raise: the outcome, and the instance
    and the interpreter as the call left them. *)
Definition result : Type := outcome value * OInstance * Interpreter.

Definition _obj_label (self : OInstance) : string :=
  class_name (klass self) +:+ "#" +:+ pretty (id self).

Definition _serialize_fields (self : OInstance) : Dict.t string :=
  Dict.map_values serialize (fields self).

Definition set (name_token : Token) (v : value) (self : OInstance)
    (interpreter : Interpreter) : OInstance * Interpreter :=
  let field := lexeme name_token in
  let old := Dict.get (fields self) field in
  let '(step, interpreter) := next_step interpreter in
  let self :=
    with_past (past self ++ [FieldPatch field old v step (line name_token)])
      self in
  let self := with_future [] self in
  let self := with_fields (Dict.set (fields self) field v) self in
  let interpreter :=
    record_event
      (EvSet step (line name_token) (_obj_label self) field
         (serialize_old old) (serialize v) (_serialize_fields self))
      interpreter in
  (self, interpreter).

(** The field update of [_undo], for the patch just popped.  The test
    [field=="__snapshot__"] reads the field name, whichever method built
    the patch. *)
Definition undo_fields (p : Patch) (self : OInstance)
    : Py.exception + OInstance :=
  match p with
  | SnapshotPatch old _ _ _ => inr (with_fields old self)
  | FieldPatch field old _ _ _ =>
      if String.eqb field "__snapshot__" then
        match py_dict (patch_old p) with
        | inl e => inl e
        | inr d => inr (with_fields d self)
        end
      else
        match old with
        | None =>
            inr (if Dict.mem (fields self) field
                 then with_fields (Dict.del (fields self) field) self
                 else self)
        | Some old => inr (with_fields (Dict.set (fields self) field old) self)
        end
  end.

Definition _undo (line : Z) (self : OInstance) (interpreter : Interpreter)
    : result :=
  match pop (past self) with
  | None => (Ok VNone, self, interpreter)
  | Some (rest, p) =>
      let self := with_past rest self in
      let '(step, interpreter) := next_step interpreter in
      match undo_fields p self with
      | inl e => (PyError e, self, interpreter)
      | inr self =>
          let self := with_future (future self ++ [p]) self in
          match serialize_value (patch_new p) with
          | inl e => (PyError e, self, interpreter)
          | inr old_s =>
              match serialize_value (patch_old p) with
              | inl e => (PyError e, self, interpreter)
              | inr new_s =>
                  (Ok VNone, self,
                   record_event
                     (EvUndo step line (_obj_label self) (patch_field p)
                        old_s new_s (_serialize_fields self) (patch_step p))
                     interpreter)
              end
          end
      end
  end.

(** The field update of [_redo], for the patch just popped. *)
Definition redo_fields (p : Patch) (self : OInstance)
    : Py.exception + OInstance :=
  match p with
  | SnapshotPatch _ new _ _ => inr (with_fields new self)
  | FieldPatch field _ new _ _ =>
      if String.eqb field "__snapshot__" then
        match py_dict (patch_new p) with
        | inl e => inl e
        | inr d => inr (with_fields d self)
        end
      else inr (with_fields (Dict.set (fields self) field new) self)
  end.

Definition _redo (line : Z) (self : OInstance) (interpreter : Interpreter)
    : result :=
  match pop (future self) with
  | None => (Ok VNone, self, interpreter)
  | Some (rest, p) =>
      let self := with_future rest self in
      let '(step, interpreter) := next_step interpreter in
      match redo_fields p self with
      | inl e => (PyError e, self, interpreter)
      | inr self =>
          let self := with_past (past self ++ [p]) self in
          match serialize_value (patch_old p) with
          | inl e => (PyError e, self, interpreter)
          | inr old_s =>
              match serialize_value (patch_new p) with
              | inl e => (PyError e, self, interpreter)
              | inr new_s =>
                  (Ok VNone, self,
                   record_event
                     (EvRedo step line (_obj_label self) (patch_field p)
                        old_s new_s (_serialize_fields self) (patch_step p))
                     interpreter)
              end
          end
      end
  end.

Fixpoint history_entries (patches : list Patch) : Py.exception + list item :=
  match patches with
  | [] => inr []
  | p :: rest =>
      match serialize_value (patch_old p) with
      | inl e => inl e
      | inr old_s =>
          match serialize_value (patch_new p) with
          | inl e => inl e
          | inr new_s =>
              match history_entries rest with
              | inl e => inl e
              | inr l =>
                  inr (ItemEntry (patch_step p) (patch_line p)
                         (patch_field p) old_s new_s :: l)
              end
          end
      end
  end.

Definition _history (self : OInstance) (interpreter : Interpreter) : result :=
  match history_entries (past self) with
  | inl e => (PyError e, self, interpreter)
  | inr hist => (Ok (VList hist), self, interpreter)
  end.

(** [label if isinstance(label, str) else interpreter.serialize_value(label)] *)
Definition label_name (label : value) : string :=
  match label with
  | VStr s => s
  | _ => serialize label
  end.

Definition _checkpoint (label : value) (line : Z) (self : OInstance)
    (interpreter : Interpreter) : result :=
  let name := label_name label in
  let self :=
    with_checkpoints (Dict.set (checkpoints self) name (fields self)) self in
  let '(step, interpreter) := next_step interpreter in
  (Ok VNone, self,
   record_event
     (EvCheckpoint step line (_obj_label self) name (_serialize_fields self))
     interpreter).

Definition _rollback (label : value) (line : Z) (self : OInstance)
    (interpreter : Interpreter) : result :=
  let name := label_name label in
  match Dict.get (checkpoints self) name with
  | None =>
      (RuntimeError_ (mkToken IDENTIFIER "rollback" LNone line)
         ("No checkpoint named '" +:+ name +:+ "'."),
       self, interpreter)
  | Some stored =>
      let old_snapshot := fields self in
      let new_snapshot := stored in
      let '(step, interpreter) := next_step interpreter in
      let self :=
        with_past (past self ++ [SnapshotPatch old_snapshot new_snapshot step line])
          self in
      let self := with_future [] self in
      let self := with_fields new_snapshot self in
      (Ok VNone, self,
       record_event
         (EvRollback step line (_obj_label self) name (_serialize_fields self))
         interpreter)
  end.

End Instance.

(* ===================================================================== *)
(** ** The evaluator's monad: state and exceptions                        *)
(* ===================================================================== *)

Definition M (A : Type) : Type := Interpreter -> outcome A * Interpreter.

Definition ret {A} (a : A) : M A := fun i => (Ok a, i).
Definition bind {A B} (c : M A) (k : A -> M B) : M B :=
  fun i =>
    match c i with
    | (Ok a, i') => k a i'
    | (RuntimeError_ t m, i') => (RuntimeError_ t m, i')
    | (ReturnException v, i') => (ReturnException v, i')
    | (PyError e, i') => (PyError e, i')
    | (OutOfFuel, i') => (OutOfFuel, i')
    end.
Definition raise {A} (token : Token) (message : string) : M A :=
  fun i => (RuntimeError_ token message, i).
Definition py_raise {A} (e : Py.exception) : M A := fun i => (PyError e, i).
Definition out_of_fuel {A} : M A := fun i => (OutOfFuel, i).
Definition read {A} (f : Interpreter -> A) : M A := fun i => (Ok (f i), i).
Definition modify (f : Interpreter -> Interpreter) : M unit :=
  fun i => (Ok tt, f i).
(** A host primitive that may raise. *)
Definition lift {A} (r : Py.exception + A) : M A :=
  match r with
  | inl e => py_raise e
  | inr a => ret a
  end.

Declare Scope eval_scope.
Delimit Scope eval_scope with eval.
Notation "x <- c ;; k" := (bind c (fun x => k))
  (at level 100, c at next level, right associativity) : eval_scope.
Notation "c ;; k" := (bind c (fun _ => k))
  (at level 100, right associativity) : eval_scope.
Open Scope eval_scope.

(** A fresh object identity. *)
Definition fresh : M nat :=
  fun i => (Ok (next_object i), with_next_object (S (next_object i)) i).

(* ===================================================================== *)
(** ** [Environment]                                                      *)
(* ===================================================================== *)

Module Env.

(** The frame of the object itself, then the frames of [enclosing]. *)
Definition own (env : env_ref) : option nat := head env.
Definition enclosing (env : env_ref) : env_ref := tail env.

Definition values (i : Interpreter) (a : nat) : Dict.t value :=
  default [] (frames i !! a).

(** [Environment(enclosing)] *)
Definition new (enclosing : env_ref) : M env_ref :=
  a <- fresh ;;
  modify (fun i => with_frames (<[a := []]> (frames i)) i) ;;
  ret (a :: enclosing).

(** [self.values[name]=value] *)
Definition define (env : env_ref) (name : string) (v : value) : M unit :=
  match env with
  | [] => ret tt
  | a :: _ =>
      modify (fun i =>
        with_frames (<[a := Dict.set (values i a) name v]> (frames i)) i)
  end.

Fixpoint lookup (i : Interpreter) (env : env_ref) (name : string)
    : option value :=
  match env with
  | [] => None
  | a :: rest =>
      match Dict.get (values i a) name with
      | Some v => Some v
      | None => lookup i rest name
      end
  end.

Definition get (env : env_ref) (name_token : Token) : M value :=
  fun i =>
    match lookup i env (lexeme name_token) with
    | Some v => (Ok v, i)
    | None =>
        (RuntimeError_ name_token
           ("Undefined variable '" +:+ lexeme name_token +:+ "'."), i)
    end.

Fixpoint assign (env : env_ref) (name_token : Token) (v : value) : M unit :=
  match env with
  | [] =>
      raise name_token
        ("Undefined variable '" +:+ lexeme name_token +:+ "'.")
  | a :: rest =>
      fun i =>
        if Dict.mem (values i a) (lexeme name_token)
        then define env (lexeme name_token) v i
        else assign rest name_token v i
  end.

(** [self.values.get(name)] on the object itself. *)
Definition own_value (env : env_ref) (name : string) : M value :=
  fun i =>
    match env with
    | [] => (Ok VNone, i)
    | a :: _ =>
        (Ok (default VNone (Dict.get (values i a) name)), i)
    end.

End Env.

(* ===================================================================== *)
(** ** Truthiness, equality, numbers                                      *)
(* ===================================================================== *)

Definition is_truthy (v : value) : bool :=
  match v with
  | VNone => false
  | VBool b => b
  | _ => true
  end.

(** [isinstance(v, (int, float))]: a [bool] is an [int]. *)
Definition as_number (v : value) : option Py.number :=
  match v with
  | VBool b => Some (Py.Int (if b then 1 else 0))
  | VInt z => Some (Py.Int z)
  | VFloat f => Some (Py.Float f)
  | _ => None
  end.

Definition of_number (n : Py.number) : value :=
  match n with
  | Py.Int z => VInt z
  | Py.Float f => VFloat f
  end.

Definition item_eqb (x y : item) : bool :=
  match x, y with
  | ItemStr s, ItemStr t => String.eqb s t
  | ItemEntry s l f o n, ItemEntry s' l' f' o' n' =>
      (s =? s') && (l =? l') && String.eqb f f' && String.eqb o o'
      && String.eqb n n'
  | _, _ => false
  end.

Fixpoint items_eqb (l1 l2 : list item) : bool :=
  match l1, l2 with
  | [], [] => true
  | x :: r1, y :: r2 => item_eqb x y && items_eqb r1 r2
  | _, _ => false
  end.

(** [a == b]: by value for numbers, strings and lists, by identity for
    the interpreter's own objects. *)
Definition is_equal (a b : value) : bool :=
  match as_number a, as_number b with
  | Some x, Some y => Py.eq x y
  | Some _, None | None, Some _ => false
  | None, None =>
      match a, b with
      | VNone, VNone => true
      | VStr s, VStr t => String.eqb s t
      | VList l1, VList l2 => items_eqb l1 l2
      | VClass k1, VClass k2 => (class_object k1 =? class_object k2)%nat
      | VFunction f1, VFunction f2 => (fn_object f1 =? fn_object f2)%nat
      | VNative n1, VNative n2 => (native_object n1 =? native_object n2)%nat
      | VInstance _ i1, VInstance _ i2 => i1 =? i2
      | _, _ => false
      end
  end.

Definition check_number_operand (operator : Token) (operand : value)
    : M Py.number :=
  match as_number operand with
  | Some n => ret n
  | None => raise operator "Operand must be a number."
  end.

Definition check_number_operands (operator : Token) (left right : value)
    : M (Py.number * Py.number) :=
  match as_number left, as_number right with
  | Some x, Some y => ret (x, y)
  | _, _ => raise operator "Operands must be numbers."
  end.

(** The [Unary] case of [evaluate], once the operand has its value. *)
Definition unary_op (operator : Token) (right : value) : M value :=
  match type operator with
  | MINUS =>
      n <- check_number_operand operator right ;;
      ret (of_number (Py.neg n))
  | BANG => ret (VBool (negb (is_truthy right)))
  | _ => py_raise Py.UnknownNode
  end.

(** The [Binary] case of [evaluate], once both operands have their values. *)
Definition binary_op (operator : Token) (left right : value) : M value :=
  match type operator with
  | PLUS =>
      match as_number left, as_number right with
      | Some x, Some y => n <- lift (Py.add x y) ;; ret (of_number n)
      | _, _ =>
          match left, right with
          | VStr s, VStr t => ret (VStr (s +:+ t))
          | _, _ =>
              raise operator "Operands must be two numbers or two strings."
          end
      end
  | MINUS =>
      xy <- check_number_operands operator left right ;;
      let '(x, y) := xy in
      n <- lift (Py.sub x y) ;; ret (of_number n)
  | STAR =>
      xy <- check_number_operands operator left right ;;
      let '(x, y) := xy in
      n <- lift (Py.mul x y) ;; ret (of_number n)
  | SLASH =>
      xy <- check_number_operands operator left right ;;
      let '(x, y) := xy in
      if Py.eq y (Py.Int 0) then raise operator "Division by zero."
      else n <- lift (Py.truediv x y) ;; ret (of_number n)
  | GREATER =>
      xy <- check_number_operands operator left right ;;
      let '(x, y) := xy in
      ret (VBool (Py.gt x y))
  | GREATER_EQUAL =>
      xy <- check_number_operands operator left right ;;
      let '(x, y) := xy in
      ret (VBool (Py.ge x y))
  | LESS =>
      xy <- check_number_operands operator left right ;;
      let '(x, y) := xy in
      ret (VBool (Py.lt x y))
  | LESS_EQUAL =>
      xy <- check_number_operands operator left right ;;
      let '(x, y) := xy in
      ret (VBool (Py.le x y))
  | EQUAL_EQUAL => ret (VBool (is_equal left right))
  | BANG_EQUAL => ret (VBool (negb (is_equal left right)))
  | _ => py_raise Py.UnknownNode
  end.

(* ===================================================================== *)
(** ** Functions, classes, property lookup, natives                       *)
(* ===================================================================== *)

(** [OClass.find_method] *)
Definition find_method (k : OClass) (name : string) : option OFunction :=
  Dict.get (methods k) name.

(** [OFunction.arity] *)
Definition function_arity (f : OFunction) : Z :=
  Z.of_nat (length (fn_params (declaration f))).

(** [OClass.arity] *)
Definition class_arity (k : OClass) : Z :=
  match find_method k "init" with
  | Some initializer => function_arity initializer
  | None => 0
  end.

(** [OFunction.bind] *)
Definition bind_method (f : OFunction) (instance : OInstance) : M OFunction :=
  env <- Env.new (closure f) ;;
  Env.define env "this" (VInstance (klass instance) (id instance)) ;;
  a <- fresh ;;
  ret (mkOFunction a (declaration f) env (is_initializer f)).

(** [NativeFunction(name, arity, func)] *)
Definition native (name : string) (arity : Z) (func : native_func) : M value :=
  a <- fresh ;;
  ret (VNative (mkNative a name arity func)).

(** [OInstance.get] *)
Definition instance_get (name_token : Token) (self : OInstance) : M value :=
  let name := lexeme name_token in
  let cls := class_name (klass self) in
  match Dict.get (fields self) name with
  | Some v => ret v
  | None =>
      match find_method (klass self) name with
      | Some method => f <- bind_method method self ;; ret (VFunction f)
      | None =>
          if String.eqb name "undo" then
            native (cls +:+ ".undo") 0 (bound_undo (id self) (line name_token))
          else if String.eqb name "redo" then
            native (cls +:+ ".redo") 0 (bound_redo (id self) (line name_token))
          else if String.eqb name "history" then
            native (cls +:+ ".history") 0 (bound_history (id self))
          else if String.eqb name "id" then
            native (cls +:+ ".id") 0 (bound_id (id self))
          else if String.eqb name "checkpoint" then
            native (cls +:+ ".checkpoint") 1
              (bound_checkpoint (id self) (line name_token))
          else if String.eqb name "rollback" then
            native (cls +:+ ".rollback") 1
              (bound_rollback (id self) (line name_token))
          else if String.eqb name "checkpoints" then
            native (cls +:+ ".checkpoints") 0 (bound_checkpoints (id self))
          else
            raise name_token ("Undefined property '" +:+ name +:+ "'.")
      end
  end.

(** [Interpreter.make_instance]; the new object goes into the store. *)
Definition make_instance (k : OClass) : M OInstance :=
  obj_id <- read _next_obj_id ;;
  let obj := new_instance k obj_id in
  modify (fun i => with_instances (<[obj_id := obj]> (instances i)) i) ;;
  modify (with_next_obj_id (obj_id + 1)) ;;
  step <- (fun i => let '(step, i) := next_step i in (Ok step, i)) ;;
  modify (record_event
            (EvNew step (class_name k +:+ "#" +:+ pretty (id obj)))) ;;
  ret obj.

(** A method of the instance [obj_id] run on the object in the store. *)
Definition on_instance (obj_id : Z)
    (method : OInstance -> Interpreter -> Instance.result) : M value :=
  fun i =>
    match instances i !! obj_id with
    | None => (PyError Py.KeyError, i)
    | Some self =>
        let '(r, self, i) := method self i in
        (r, with_instances (<[obj_id := self]> (instances i)) i)
    end.

(** [Interpreter.type_of] *)
Definition type_of (v : value) : string :=
  match v with
  | VNone => "nil"
  | VBool _ => "bool"
  | VInt _ | VFloat _ => "number"
  | VStr _ => "string"
  | VInstance k _ => "instance(" +:+ class_name k +:+ ")"
  | VClass k => "class(" +:+ class_name k +:+ ")"
  | VFunction _ => "function"
  | VNative _ => "native_function"
  | VList _ => "list"
  end.

Definition builtin_token (name : string) : Token :=
  mkToken IDENTIFIER name LNone 0.

(** [Interpreter.native_len] *)
Definition native_len (v : value) : M value :=
  match v with
  | VStr s => ret (VInt (Z.of_nat (String.length s)))
  | VList items => ret (VInt (Z.of_nat (length items)))
  | _ =>
      raise (builtin_token "len")
        "len(x) only works on strings, lists, and dicts."
  end.

Definition item_repr (x : item) : string :=
  match x with
  | ItemStr s => Py.str_repr s
  | ItemEntry step line field old new =>
      "{'step': " +:+ pretty step +:+ ", 'line': " +:+ pretty line
        +:+ ", 'field': " +:+ Py.str_repr field
        +:+ ", 'old': " +:+ Py.str_repr old
        +:+ ", 'new': " +:+ Py.str_repr new +:+ "}"
  end.

(** Python's own [str(v)]. *)
Definition py_str (v : value) : string :=
  match v with
  | VNone => "None"
  | VBool b => if b then "True" else "False"
  | VInt z => pretty z
  | VFloat f => Py.float_repr f
  | VStr s => s
  | VList items => "[" +:+ Py.join ", " (map item_repr items) +:+ "]"
  | _ => serialize v
  end.

Definition newline : string := Py.chr "010"%char.

(** [input(prompt)]: the prompt goes out, one line comes in. *)
Definition host_input (prompt : string) : M value :=
  modify (fun i => with_stdout (stdout i ++ [prompt]) i) ;;
  fun i =>
    match stdin i with
    | [] => (PyError Py.EOFError, i)
    | l :: rest => (Ok (VStr l), with_stdin rest i)
    end.

(** [Interpreter.native_input] *)
Definition native_input (args : list value) : M value :=
  match args with
  | [] => host_input ""
  | [a] => host_input (py_str a)
  | _ => raise (builtin_token "input") "input() takes 0 or 1 argument."
  end.

(** [Interpreter.native_assert] *)
Definition native_assert (args : list value) : M value :=
  match args with
  | [cond] =>
      if is_truthy cond then ret VNone
      else raise (builtin_token "assert") "Assertion failed."
  | [cond; m] =>
      if is_truthy cond then ret VNone
      else raise (builtin_token "assert") (py_str m)
  | _ =>
      raise (builtin_token "assert")
        "assert(condition[, message]) takes 1 or 2 arguments."
  end.

(** [time.time()] *)
Definition host_clock : M value :=
  fun i =>
    (Ok (VFloat (wall_clock i (clock_reads i))),
     with_clock_reads (S (clock_reads i)) i).

(** [NativeFunction.call]: [self._func(interpreter, *arguments)]; a count
    of arguments the Python callable does not take is a [TypeError]. *)
Definition native_call (n : NativeFunction) (arguments : list value)
    : M value :=
  match _func n, arguments with
  | fn_clock, [] => host_clock
  | fn_str, [v] => ret (VStr (serialize v))
  | fn_type, [v] => ret (VStr (type_of v))
  | fn_len, [v] => native_len v
  | fn_input, _ => native_input arguments
  | fn_assert, _ => native_assert arguments
  | bound_undo self line, [] => on_instance self (Instance._undo line)
  | bound_redo self line, [] => on_instance self (Instance._redo line)
  | bound_history self, [] => on_instance self Instance._history
  | bound_id self, [] => ret (VInt self)
  | bound_checkpoint self line, [label] =>
      on_instance self (Instance._checkpoint label line)
  | bound_rollback self line, [label] =>
      on_instance self (Instance._rollback label line)
  | bound_checkpoints self, [] =>
      on_instance self
        (fun o i => (Ok (VList (map ItemStr (Dict.keys (checkpoints o)))), o, i))
  | _, _ => py_raise Py.TypeError
  end.

(* ===================================================================== *)
(** ** The evaluator ([Interpreter.execute], [Interpreter.evaluate])      *)
(* ===================================================================== *)

Definition literal_value (l : literal) : value :=
  match l with
  | LNone => VNone
  | LBool b => VBool b
  | LNumber f => VFloat f
  | LString s => VStr s
  end.

(** [try: self.environment=env; body finally: self.environment=previous] *)
Definition in_environment {A} (env : env_ref) (body : M A) : M A :=
  fun i =>
    let previous := environment i in
    let '(r, i) := body (with_environment env i) in
    (r, with_environment previous i).

(** [while is_truthy(cond()): body()] *)
Fixpoint while_loop (fuel : nat) (cond : M value) (body : M unit) : M unit :=
  match fuel with
  | O => out_of_fuel
  | S n =>
      c <- cond ;;
      if is_truthy c then (body ;; while_loop n cond body) else ret tt
  end.

(** [for param, arg in zip(params, arguments): env.define(param.lexeme, arg)] *)
Fixpoint define_params (env : env_ref) (params : list Token)
    (arguments : list value) : M unit :=
  match params, arguments with
  | p :: ps, a :: rest =>
      Env.define env (lexeme p) a ;; define_params env ps rest
  | _, _ => ret tt
  end.

(** The methods dict of a [ClassStmt]. *)
Fixpoint class_methods (ms : list FunctionDecl) (env : env_ref)
    (acc : Dict.t OFunction) : M (Dict.t OFunction) :=
  match ms with
  | [] => ret acc
  | method :: rest =>
      let is_init := String.eqb (lexeme (fn_name method)) "init" in
      a <- fresh ;;
      class_methods rest env
        (Dict.set acc (lexeme (fn_name method))
           (mkOFunction a method env is_init))
  end.

Module Run.
Section Evaluator.

(** The budget of the [while] loops, and [OFunction.call] with the budget
    left for the calls nested in this one. *)
Variable fuel : nat.
Variable function_call : OFunction -> list value -> M value.

(** [OClass.call] *)
Definition class_call (k : OClass) (arguments : list value) : M value :=
  instance <- make_instance k ;;
  match find_method k "init" with
  | Some initializer =>
      f <- bind_method initializer instance ;;
      function_call f arguments ;;
      ret (VInstance (klass instance) (id instance))
  | None => ret (VInstance (klass instance) (id instance))
  end.

(** The [Call] case of [evaluate] once callee and arguments have values. *)
Definition call_value (paren : Token) (callee : value) (args : list value)
    : M value :=
  let arity_error ar :=
    raise paren
      ("Expected " +:+ pretty ar +:+ " arguments but got "
         +:+ pretty (Z.of_nat (length args)) +:+ ".") in
  match callee with
  | VClass k =>
      let ar := class_arity k in
      if negb (ar =? -1) && negb (Z.of_nat (length args) =? ar)
      then arity_error ar else class_call k args
  | VFunction f =>
      let ar := function_arity f in
      if negb (ar =? -1) && negb (Z.of_nat (length args) =? ar)
      then arity_error ar else function_call f args
  | VNative n =>
      let ar := _arity n in
      if negb (ar =? -1) && negb (Z.of_nat (length args) =? ar)
      then arity_error ar else native_call n args
  | _ => raise paren "Can only call functions and classes."
  end.

(** The [NewExpr] case of [evaluate] once the name has its value; [args]
    evaluates the argument expressions. *)
Definition new_value (class_name : Token) (k : value)
    (args : M (list value)) : M value :=
  match k with
  | VClass k =>
      args <- args ;;
      let ar := class_arity k in
      if negb (Z.of_nat (length args) =? ar) then
        raise class_name
          ("Expected " +:+ pretty ar +:+ " arguments but got "
             +:+ pretty (Z.of_nat (length args)) +:+ ".")
      else class_call k args
  | _ => raise class_name ("'" +:+ lexeme class_name +:+ "' is not a class.")
  end.

Fixpoint evaluate (expr : Expr) : M value :=
  match expr with
  | Literal v => ret (literal_value v)
  | Grouping e => evaluate e
  | Unary operator e =>
      right <- evaluate e ;;
      unary_op operator right
  | Binary e1 operator e2 =>
      left <- evaluate e1 ;;
      right <- evaluate e2 ;;
      binary_op operator left right
  | Variable_ name =>
      env <- read environment ;; Env.get env name
  | Assign name e =>
      v <- evaluate e ;;
      env <- read environment ;;
      Env.assign env name v ;;
      ret v
  | Logical e1 operator e2 =>
      left <- evaluate e1 ;;
      if bool_decide (type operator = OR) then
        if is_truthy left then ret left else evaluate e2
      else
        if negb (is_truthy left) then ret left else evaluate e2
  | Call callee paren arguments =>
      callee <- evaluate callee ;;
      args <- (fix eval_args (l : list Expr) : M (list value) :=
                 match l with
                 | [] => ret []
                 | a :: rest =>
                     v <- evaluate a ;; vs <- eval_args rest ;; ret (v :: vs)
                 end) arguments ;;
      call_value paren callee args
  | Get object name =>
      obj <- evaluate object ;;
      match obj with
      | VInstance _ obj_id =>
          self <- read (fun i => instances i !! obj_id) ;;
          match self with
          | Some self => instance_get name self
          | None => py_raise Py.KeyError
          end
      | _ => raise name "Only instances have properties."
      end
  | SetExpr object name e =>
      obj <- evaluate object ;;
      match obj with
      | VInstance _ obj_id =>
          v <- evaluate e ;;
          on_instance obj_id
            (fun self i =>
               let '(self, i) := Instance.set name v self i in
               (Ok v, self, i))
      | _ => raise name "Only instances have fields."
      end
  | This keyword =>
      env <- read environment ;; Env.get env keyword
  | NewExpr class_name arguments =>
      env <- read environment ;;
      k <- Env.get env class_name ;;
      new_value class_name k
        ((fix eval_args (l : list Expr) : M (list value) :=
            match l with
            | [] => ret []
            | a :: rest =>
                v <- evaluate a ;; vs <- eval_args rest ;; ret (v :: vs)
            end) arguments)
  end.

Fixpoint execute (stmt : Stmt) : M unit :=
  match stmt with
  | ExpressionStmt e => evaluate e ;; ret tt
  | PrintStmt e =>
      v <- evaluate e ;;
      modify (fun i => with_stdout (stdout i ++ [serialize v +:+ newline]) i)
  | VarStmt name initializer =>
      v <- match initializer with
           | Some e => evaluate e
           | None => ret VNone
           end ;;
      env <- read environment ;;
      Env.define env (lexeme name) v
  | BlockStmt statements =>
      outer <- read environment ;;
      env <- Env.new outer ;;
      in_environment env
        ((fix run (l : list Stmt) : M unit :=
            match l with
            | [] => ret tt
            | s :: rest => execute s ;; run rest
            end) statements)
  | IfStmt condition then_branch else_branch =>
      c <- evaluate condition ;;
      if is_truthy c then execute then_branch
      else match else_branch with
           | Some s => execute s
           | None => ret tt
           end
  | WhileStmt condition body =>
      while_loop fuel (evaluate condition) (execute body)
  | FunctionStmt name params body =>
      env <- read environment ;;
      a <- fresh ;;
      Env.define env (lexeme name)
        (VFunction (mkOFunction a (mkFunction name params body) env false))
  | ReturnStmt keyword e =>
      v <- match e with
           | Some e => evaluate e
           | None => ret VNone
           end ;;
      fun i => (ReturnException v, i)
  | ClassStmt name ms =>
      env <- read environment ;;
      Env.define env (lexeme name) VNone ;;
      methods <- class_methods ms env [] ;;
      a <- fresh ;;
      Env.assign env name (VClass (mkOClass a (lexeme name) methods))
  end.

Fixpoint execute_all (statements : list Stmt) : M unit :=
  match statements with
  | [] => ret tt
  | s :: rest => execute s ;; execute_all rest
  end.

(** [Interpreter.execute_block] *)
Definition execute_block (statements : list Stmt) (env : env_ref) : M unit :=
  in_environment env (execute_all statements).

End Evaluator.
End Run.

(** [OFunction.call], given [execute_block]. *)
Definition function_body (execute_block : list Stmt -> env_ref -> M unit)
    (f : OFunction) (arguments : list value) : M value :=
  env <- Env.new (closure f) ;;
  define_params env (fn_params (declaration f)) arguments ;;
  fun i =>
    match execute_block (fn_body (declaration f)) env i with
    | (Ok _, i) =>
        if is_initializer f then Env.own_value (closure f) "this" i
        else (Ok VNone, i)
    | (ReturnException v, i) =>
        if is_initializer f then Env.own_value (closure f) "this" i
        else (Ok v, i)
    | (RuntimeError_ t m, i) => (RuntimeError_ t m, i)
    | (PyError e, i) => (PyError e, i)
    | (OutOfFuel, i) => (OutOfFuel, i)
    end.

(** [OFunction.call] with [fuel] nested calls allowed. *)
Fixpoint function_call (fuel : nat) (f : OFunction) (arguments : list value)
    : M value :=
  match fuel with
  | O => out_of_fuel
  | S n => function_body (Run.execute_block n (function_call n)) f arguments
  end.

Definition evaluate (fuel : nat) : Expr -> M value :=
  Run.evaluate (function_call fuel).
Definition execute (fuel : nat) : Stmt -> M unit :=
  Run.execute fuel (function_call fuel).
Definition execute_block (fuel : nat) : list Stmt -> env_ref -> M unit :=
  Run.execute_block fuel (function_call fuel).

(** [Interpreter.interpret] *)
Definition interpret (fuel : nat) (statements : list Stmt) : M unit :=
  Run.execute_all fuel (function_call fuel) statements.

(** [Interpreter()]: the globals hold the six built-ins. *)
Definition builtins : Dict.t value :=
  [("clock", VNative (mkNative 1 "clock" 0 fn_clock));
   ("str", VNative (mkNative 2 "str" 1 fn_str));
   ("type", VNative (mkNative 3 "type" 1 fn_type));
   ("len", VNative (mkNative 4 "len" 1 fn_len));
   ("input", VNative (mkNative 5 "input" (-1) fn_input));
   ("assert", VNative (mkNative 6 "assert" (-1) fn_assert))].

Definition new_interpreter (input : list string) (clock : nat -> float)
    : Interpreter :=
  mkInterpreter [O] [O] 0 [] 1 {[ O := builtins ]} ∅ 7 [] input clock 0.

(* ===================================================================== *)
(** * Lexer ([Scanner])                                                   *)
(* ===================================================================== *)

Module Scan.

(** The scanner object. *)
Record Scanner := mkScanner {
  source : string;
  tokens : list Token;
  start : nat;
  current : nat;
  line : Z
}.

(** Outcome of a scanner method: a value and the scanner after the call,
    a [ScanError] with its message, the [ValueError] of [float], an index
    outside the source, or an exhausted iteration budget. *)
Inductive result (A : Type) :=
| Done (a : A) (s : Scanner)
| ScanError (message : string)
| ValueError
| IndexError
| OutOfFuel.
Arguments Done {A} a s.
Arguments ScanError {A} message.
Arguments ValueError {A}.
Arguments IndexError {A}.
Arguments OutOfFuel {A}.

Definition M (A : Type) : Type := Scanner -> result A.

Definition ret {A} (a : A) : M A := fun s => Done a s.
Definition bind {A B} (c : M A) (k : A -> M B) : M B :=
  fun s => match c s with
           | Done a s' => k a s'
           | ScanError m => ScanError m
           | ValueError => ValueError
           | IndexError => IndexError
           | OutOfFuel => OutOfFuel
           end.
Definition raise {A} (m : string) : M A := fun _ => ScanError m.
Definition read {A} (f : Scanner -> A) : M A := fun s => Done (f s) s.

Declare Scope scan_scope.
Delimit Scope scan_scope with scan.
Notation "x <- c ;; k" := (bind c (fun x => k))
  (at level 100, c at next level, right associativity) : scan_scope.
Notation "c ;; k" := (bind c (fun _ => k))
  (at level 100, right associativity) : scan_scope.
Open Scope scan_scope.

(** *** Characters *)

(** [str.isdigit], [str.isalpha] and [str.isalnum] of one character, for
    the code points below 256. *)
Definition isdigit (c : ascii) : bool :=
  let n := nat_of_ascii c in
  ((48 <=? n) && (n <=? 57) || (178 <=? n) && (n <=? 179) || (n =? 185))%nat.

Definition isalpha (c : ascii) : bool :=
  let n := nat_of_ascii c in
  ((65 <=? n) && (n <=? 90) || (97 <=? n) && (n <=? 122)
   || (n =? 170) || (n =? 181) || (n =? 186)
   || (192 <=? n) && (n <=? 214) || (216 <=? n) && (n <=? 246)
   || (248 <=? n))%nat.

Definition isalnum (c : ascii) : bool :=
  let n := nat_of_ascii c in
  (isalpha c || isdigit c || (188 <=? n) && (n <=? 190))%nat.

Definition newline : ascii := "010"%char.
Definition nul : ascii := "000"%char.
Definition underscore : ascii := "_"%char.
Definition dot : ascii := "."%char.

(** [float(text)] for a text of [isdigit] characters with at most one
    point: the nearest double of the decimal; the superscript digits are
    not digits to [float]. *)
Fixpoint decimal (text : string) (z : Z) (point : bool) (k : Z)
    : option (Z * Z) :=
  match text with
  | EmptyString => Some (z, k)
  | String c rest =>
      let n := nat_of_ascii c in
      if ((48 <=? n) && (n <=? 57))%nat then
        decimal rest (10 * z + Z.of_nat (n - 48)) point
          (if point then k + 1 else k)
      else if Ascii.eqb c dot && negb point then decimal rest z true k
      else None
  end.

Definition float_of_text (text : string) : option float :=
  match decimal text 0 false 0 with
  | Some (z, k) => Some (SF2Prim (Py.round_ratio z (10 ^ k)))
  | None => None
  end.

(** [KEYWORDS.get(text, TokenType.IDENTIFIER)] *)
Definition keyword (text : string) : TokenType :=
  if String.eqb text "and" then AND
  else if String.eqb text "class" then CLASS
  else if String.eqb text "else" then ELSE
  else if String.eqb text "false" then FALSE
  else if String.eqb text "fun" then FUN
  else if String.eqb text "if" then IF
  else if String.eqb text "nil" then NIL
  else if String.eqb text "or" then OR
  else if String.eqb text "print" then PRINT
  else if String.eqb text "return" then RETURN
  else if String.eqb text "this" then THIS
  else if String.eqb text "true" then TRUE
  else if String.eqb text "var" then VAR
  else if String.eqb text "while" then WHILE
  else if String.eqb text "new" then NEW
  else IDENTIFIER.

(** *** The methods *)

Definition is_at_end : M bool :=
  read (fun s => (String.length (source s) <=? current s)%nat).

(** [ch=self.source[self.current]; self.current+=1] *)
Definition advance : M ascii := fun s =>
  match String.get (current s) (source s) with
  | Some ch =>
      Done ch (mkScanner (source s) (tokens s) (start s) (S (current s))
                 (line s))
  | None => IndexError
  end.

(** [self.source[self.start:self.current]] *)
Definition text (s : Scanner) : string :=
  String.substring (start s) (current s - start s) (source s).

Definition add_token (type_ : TokenType) (literal : literal) : M unit :=
  fun s =>
    Done tt (mkScanner (source s)
               (tokens s ++ [mkToken type_ (text s) literal (line s)])
               (start s) (current s) (line s)).

Definition match_ (expected : ascii) : M bool :=
  e <- is_at_end ;;
  if e then ret false else
  fun s =>
    match String.get (current s) (source s) with
    | None => IndexError
    | Some c =>
        if negb (Ascii.eqb c expected) then Done false s
        else Done true (mkScanner (source s) (tokens s) (start s)
                          (S (current s)) (line s))
    end.

Definition peek : M ascii :=
  e <- is_at_end ;;
  if e then ret nul else
  fun s =>
    match String.get (current s) (source s) with
    | Some c => Done c s
    | None => IndexError
    end.

Definition peek_next : M ascii := fun s =>
  if (String.length (source s) <=? current s + 1)%nat then Done nul s
  else match String.get (current s + 1) (source s) with
       | Some c => Done c s
       | None => IndexError
       end.

(** [self.line+=1] *)
Definition next_line : M unit := fun s =>
  Done tt (mkScanner (source s) (tokens s) (start s) (current s) (line s + 1)).

(** [while cond(): body()] *)
Fixpoint while_ (fuel : nat) (cond : M bool) (body : M unit) : M unit :=
  match fuel with
  | O => fun _ => OutOfFuel
  | S n =>
      c <- cond ;;
      if c then (body ;; while_ n cond body) else ret tt
  end.

(** [Scanner.string]; the name of the type of strings is taken. *)
Definition string_ (fuel : nat) : M unit :=
  while_ fuel
    (c <- peek ;; e <- is_at_end ;;
     ret (negb (Ascii.eqb c Py.quote) && negb e))
    (c <- peek ;;
     (if Ascii.eqb c newline then next_line else ret tt) ;;
     advance ;; ret tt) ;;
  e <- is_at_end ;;
  (if e then
     l <- read line ;;
     raise ("[line " +:+ pretty l +:+ "] Unterminated string.")
   else ret tt) ;;
  advance ;;
  value <- read (fun s =>
             String.substring (start s + 1) (current s - 1 - (start s + 1))
               (source s)) ;;
  add_token STRING (LString value).

Definition digits (fuel : nat) : M unit :=
  while_ fuel (c <- peek ;; ret (isdigit c)) (advance ;; ret tt).

Definition number (fuel : nat) : M unit :=
  digits fuel ;;
  c <- peek ;;
  (if Ascii.eqb c dot then
     n <- peek_next ;;
     if isdigit n then (advance ;; digits fuel) else ret tt
   else ret tt) ;;
  t <- read text ;;
  match float_of_text t with
  | Some value => add_token NUMBER (LNumber value)
  | None => fun _ => ValueError
  end.

Definition identifier (fuel : nat) : M unit :=
  while_ fuel
    (c <- peek ;; ret (isalnum c || Ascii.eqb c underscore))
    (advance ;; ret tt) ;;
  t <- read text ;;
  add_token (keyword t) LNone.

(** [self.add_token(yes if self.match(second) else no)] *)
Definition two (second : ascii) (yes no : TokenType) : M unit :=
  m <- match_ second ;; add_token (if m then yes else no) LNone.

Definition scan_token (fuel : nat) : M unit :=
  c <- advance ;;
  if Ascii.eqb c "(" then add_token LEFT_PAREN LNone
  else if Ascii.eqb c ")" then add_token RIGHT_PAREN LNone
  else if Ascii.eqb c "{" then add_token LEFT_BRACE LNone
  else if Ascii.eqb c "}" then add_token RIGHT_BRACE LNone
  else if Ascii.eqb c "," then add_token COMMA LNone
  else if Ascii.eqb c "." then add_token DOT LNone
  else if Ascii.eqb c "-" then add_token MINUS LNone
  else if Ascii.eqb c "+" then add_token PLUS LNone
  else if Ascii.eqb c ";" then add_token SEMICOLON LNone
  else if Ascii.eqb c "*" then add_token STAR LNone
  else if Ascii.eqb c "!" then two "=" BANG_EQUAL BANG
  else if Ascii.eqb c "=" then two "=" EQUAL_EQUAL EQUAL
  else if Ascii.eqb c "<" then two "=" LESS_EQUAL LESS
  else if Ascii.eqb c ">" then two "=" GREATER_EQUAL GREATER
  else if Ascii.eqb c "/" then
    m <- match_ "/" ;;
    if m then
      while_ fuel
        (c <- peek ;; e <- is_at_end ;;
         ret (negb (Ascii.eqb c newline) && negb e))
        (advance ;; ret tt)
    else add_token SLASH LNone
  else if Ascii.eqb c " " || Ascii.eqb c "013" || Ascii.eqb c "009"
  then ret tt
  else if Ascii.eqb c newline then next_line
  else if Ascii.eqb c Py.quote then string_ fuel
  else if isdigit c then number fuel
  else if isalpha c || Ascii.eqb c underscore then identifier fuel
  else
    l <- read line ;;
    raise ("[line " +:+ pretty l +:+ "] Unexpected character: "
             +:+ Py.str_repr (Py.chr c)).

(** [Scanner(source)] *)
Definition new (source : string) : Scanner := mkScanner source [] 0 0 1.

(** [self.start=self.current] *)
Definition set_start : M unit := fun s =>
  Done tt (mkScanner (source s) (tokens s) (current s) (current s) (line s)).

(** [self.tokens.append(Token(TokenType.EOF,"",None,self.line))] *)
Definition add_eof : M unit := fun s =>
  Done tt (mkScanner (source s) (tokens s ++ [mkToken EOF "" LNone (line s)])
             (start s) (current s) (line s)).

(** [Scanner.scan_tokens] with [fuel] iterations for each loop. *)
Definition scan (fuel : nat) : M (list Token) :=
  while_ fuel (e <- is_at_end ;; ret (negb e))
    (set_start ;; scan_token fuel) ;;
  add_eof ;;
  read tokens.

(** [Scanner(source).scan_tokens()]; no loop of the scanner runs more
    often than the source has characters. *)
Definition scan_tokens (source : string) : result (list Token) :=
  match scan (S (String.length source)) (new source) with
  | Done tokens _ => Done tokens (new source)
  | ScanError m => ScanError m
  | ValueError => ValueError
  | IndexError => IndexError
  | OutOfFuel => OutOfFuel
  end.

End Scan.

(* ===================================================================== *)
(** * The trace debugger ([tools/os_debugger.py])                         *)
(* ===================================================================== *)

(** The debugger reads the events of a trace file through two keys only:
    [e.get("step", 0)], an [int], and [e.get("object")], a string or
    nothing.  Its functions are stated over any type of events with these
    two readings. *)
Module Debugger.
Section Events.

Context {event : Type}.
(** [e.get("step", 0)] *)
Variable step : event -> Z.
(** [e.get("object")] *)
Variable object : event -> option string.

(** [sorted(events, key=lambda e: e.get("step", 0))]: the stable sort.
    [insert e l] puts [e] in front of the first event whose step is not
    smaller, so events with equal steps keep their order. *)
Fixpoint insert (e : event) (l : list event) : list event :=
  match l with
  | [] => [e]
  | x :: rest =>
      if step e <=? step x then e :: x :: rest else x :: insert e rest
  end.

Definition sorted (events : list event) : list event :=
  foldr insert [] events.

(** What [load_trace] does with the events [json.load] returned. *)
Definition load_trace (events : list event) : list event := sorted events.

(** The loop of [build_index]: [by_obj.setdefault(obj, []).append(e)]
    for every event whose object is not empty. *)
Fixpoint group (events : list event) (by_obj : Dict.t (list event))
    : Dict.t (list event) :=
  match events with
  | [] => by_obj
  | e :: rest =>
      group rest
        match object e with
        | Some obj =>
            if String.eqb obj "" then by_obj
            else Dict.set by_obj obj (default [] (Dict.get by_obj obj) ++ [e])
        | None => by_obj
        end
  end.

(** [min(steps)] and [max(steps)] of a list that is not empty. *)
Definition min_step (s : Z) (steps : list Z) : Z := foldl Z.min s steps.
Definition max_step (s : Z) (steps : list Z) : Z := foldl Z.max s steps.

Definition build_index (events : list event)
    : Dict.t (list event) * Z * Z :=
  let by_obj := Dict.map_values sorted (group events []) in
  match map step events with
  | [] => (by_obj, 0, 0)
  | s :: steps => (by_obj, min_step s steps, max_step s steps)
  end.

(** [l[k]] for an [int] index: a negative one counts from the end. *)
Definition index (l : list event) (k : Z) : option event :=
  if k <? 0 then
    if - Z.of_nat (length l) <=? k
    then l !! Z.to_nat (Z.of_nat (length l) + k) else None
  else l !! Z.to_nat k.

(** What the search ends in: the answer, [None] when no event qualifies;
    an index outside the list; the iteration budget used up. *)
Inductive search_result :=
| Answer (ans : option event)
| IndexError
| OutOfFuel.

(** The [while lo <= hi] loop of [last_event_leq]. *)
Fixpoint search (fuel : nat) (events : list event) (s : Z) (lo hi : Z)
    (ans : option event) : search_result :=
  match fuel with
  | O => OutOfFuel
  | S n =>
      if lo <=? hi then
        let mid := (lo + hi) / 2 in
        match index events mid with
        | None => IndexError
        | Some e =>
            if step e <=? s then search n events s (mid + 1) hi (Some e)
            else search n events s lo (mid - 1) ans
        end
      else Answer ans
  end.

(** [last_event_leq(events, step)]; the loop halves an interval of
    [len(events)] indices, so [len(events) + 1] iterations are enough. *)
Definition last_event_leq (events : list event) (s : Z) : search_result :=
  search (S (length events)) events s 0 (Z.of_nat (length events) - 1) None.

(** The events of one object, in the order of the trace. *)
Definition of_object (obj : string) (events : list event) : list event :=
  filter (fun e => object e = Some obj) events.

End Events.
End Debugger.

(* ===================================================================== *)
(** * Histories, sample programs and predicates                          *)
(* ===================================================================== *)

(** ** Operations on one instance *)

(** The calls a program can make on an instance, with their arguments. *)
Inductive op :=
| OpSet (name_token : Token) (v : value)
| OpUndo (line : Z)
| OpRedo (line : Z)
| OpCheckpoint (label : value) (line : Z)
| OpRollback (label : value) (line : Z).

Definition state : Type := OInstance * Interpreter.

Definition after (r : Instance.result) : state := (snd (fst r), snd r).
Definition raised (r : Instance.result) : outcome value := fst (fst r).

(** One call; the state is kept whether or not the call raised, as a
    session that goes on after an error sees it. *)
Definition apply_op (o : op) (s : state) : state :=
  match o with
  | OpSet t v => Instance.set t v (fst s) (snd s)
  | OpUndo l => after (Instance._undo l (fst s) (snd s))
  | OpRedo l => after (Instance._redo l (fst s) (snd s))
  | OpCheckpoint v l => after (Instance._checkpoint v l (fst s) (snd s))
  | OpRollback v l => after (Instance._rollback v l (fst s) (snd s))
  end.

Definition run_ops (ops : list op) (s : state) : state :=
  fold_left (fun s o => apply_op o s) ops s.

(** A history state is reachable when calls on a new instance lead to it. *)
Definition reachable (self : OInstance) : Prop :=
  exists k obj_id i ops, self = fst (run_ops ops (new_instance k obj_id, i)).

(** ** The future stack after [set], [checkpoint], [rollback] *)

Definition sample_class : OClass := mkOClass 7 "C" [].
Definition sample_token (name : string) : Token := mkToken IDENTIFIER name LNone 1.
Definition sample_interpreter : Interpreter :=
  new_interpreter [] (fun _ => PrimFloat.zero).

(** A history with a pending redo: [o.x = 1; o.undo();]. *)
Definition after_write_undo : state :=
  run_ops [OpSet (sample_token "x") (VFloat PrimFloat.one); OpUndo 1]
    (new_instance sample_class 1, sample_interpreter).

(** The same history after [o.checkpoint("k")]. *)
Definition after_checkpoint : state :=
  apply_op (OpCheckpoint (VStr "k") 1) after_write_undo.

(** ** Checkpoints *)

(** Field writes, undos and redos. *)
Definition is_edit (o : op) : bool :=
  match o with
  | OpSet _ _ | OpUndo _ | OpRedo _ => true
  | OpCheckpoint _ _ | OpRollback _ _ => false
  end.

(** After the specification's scenario C: [p.a = 1; p.checkpoint("s");
    p.a = 2; p.b = 2; p.undo(); p.redo(); p.rollback("s");] removes [b]. *)
Definition scenario_before : state :=
  run_ops [OpSet (sample_token "a") (VFloat PrimFloat.one)]
    (new_instance sample_class 1, sample_interpreter).
Definition scenario_edits : list op :=
  [OpSet (sample_token "a") (VFloat PrimFloat.two);
   OpSet (sample_token "b") (VFloat PrimFloat.two);
   OpUndo 1; OpRedo 1].

(** ** Writes, then as many undos, then as many redos *)

(** What [_undo] and [_redo] do to the instance; the interpreter only
    supplies the step and receives the event. *)
Definition undo_instance (o : OInstance) : OInstance :=
  match pop (past o) with
  | None => o
  | Some (rest, p) =>
      match Instance.undo_fields p (with_past rest o) with
      | inl _ => with_past rest o
      | inr o' => with_future (future o' ++ [p]) o'
      end
  end.

Definition redo_instance (o : OInstance) : OInstance :=
  match pop (future o) with
  | None => o
  | Some (rest, p) =>
      match Instance.redo_fields p (with_future rest o) with
      | inl _ => with_future rest o
      | inr o' => with_past (past o' ++ [p]) o'
      end
  end.

Definition marker_free (t : Token) : bool :=
  negb (String.eqb (lexeme t) "__snapshot__").

(** The patch that [set] pushes. *)
Definition set_patch (t : Token) (v : value) (o : OInstance)
    (i : Interpreter) : Patch :=
  FieldPatch (lexeme t) (Dict.get (fields o) (lexeme t)) v (_step i + 1)
    (line t).

(** A sequence of field writes, as calls. *)
Definition writes (ws : list (Token * value)) : list op :=
  map (fun w => OpSet (fst w) (snd w)) ws.

(** ** A field called [__snapshot__] *)

(** The history [o.__snapshot__ = ""; o.x = 1;]: two writes, nothing to redo. *)
Definition marker_history : state :=
  run_ops [OpSet (sample_token "__snapshot__") (VStr "");
           OpSet (sample_token "x") (VFloat PrimFloat.one)]
    (new_instance sample_class 1, sample_interpreter).

(** ** Argument and parameter lists *)

Definition tk (ty : TokenType) (lx : string) : Token := mkToken ty lx LNone 1.
Definition zero_token : Token :=
  mkToken NUMBER "0" (LNumber PrimFloat.zero) 1.

(** [0, 0, ..., 0] with [n] zeros. *)
Fixpoint zeros_tokens (n : nat) : list Token :=
  match n with
  | O => []
  | S O => [zero_token]
  | S n => zero_token :: tk COMMA "," :: zeros_tokens n
  end.

(** The tokens of [new C(0, ..., 0);] and of [C(0, ..., 0);]. *)
Definition new_tokens (n : nat) : list Token :=
  [tk NEW "new"; tk IDENTIFIER "C"; tk LEFT_PAREN "("] ++ zeros_tokens n
    ++ [tk RIGHT_PAREN ")"; tk SEMICOLON ";"; tk EOF ""].
Definition call_tokens (n : nat) : list Token :=
  [tk IDENTIFIER "C"; tk LEFT_PAREN "("] ++ zeros_tokens n
    ++ [tk RIGHT_PAREN ")"; tk SEMICOLON ";"; tk EOF ""].

(** The number of arguments of the one [new] expression a program is. *)
Definition new_argument_count (r : presult (list Stmt)) : option nat :=
  match r with
  | POk [ExpressionStmt (NewExpr _ args)] _ => Some (length args)
  | _ => None
  end.

Definition parse_error (r : presult (list Stmt)) : option string :=
  match r with
  | PParseError m => Some m
  | _ => None
  end.

(** ** Property lookup on an instance *)

Definition builtin_names : list string :=
  ["undo"; "redo"; "history"; "id"; "checkpoint"; "rollback"; "checkpoints"].

(** An instance whose class declares [undo] and which has a field [id]. *)
Definition shadowing_class : OClass :=
  mkOClass 7 "C"
    [("undo", mkOFunction 8 (mkFunction (tk IDENTIFIER "undo") [] []) [O] false)].
Definition shadowing_instance : OInstance :=
  mkOInstance shadowing_class 1 [("id", VStr "mine")] [] [] [].

(** ** Calling a class *)

(** [class C { fun init(v) { this.x = v; } }] *)
Definition sample_class_stmt : Stmt :=
  ClassStmt (tk IDENTIFIER "C")
    [mkFunction (tk IDENTIFIER "init") [tk IDENTIFIER "v"]
       [ExpressionStmt
          (SetExpr (This (tk THIS "this")) (tk IDENTIFIER "x")
             (Variable_ (tk IDENTIFIER "v")))]].

Definition class_declared : Interpreter :=
  snd (execute 5 sample_class_stmt sample_interpreter).

Definition declared_class : OClass :=
  match Env.lookup class_declared (environment class_declared) "C" with
  | Some (VClass k) => k
  | _ => sample_class
  end.

(** ** The 255 limit in the lists that have it *)

(** Every call node has at most 255 arguments (a [new] node may have more). *)
Fixpoint expr_bounded (e : Expr) : Prop :=
  match e with
  | Literal _ | Variable_ _ | This _ => True
  | Grouping e | Unary _ e | Assign _ e | Get e _ => expr_bounded e
  | Binary a _ b | Logical a _ b | SetExpr a _ b =>
      expr_bounded a /\ expr_bounded b
  | Call c _ args =>
      expr_bounded c /\ (length args <= 255)%nat
      /\ (fix all (l : list Expr) : Prop :=
            match l with
            | [] => True
            | x :: rest => expr_bounded x /\ all rest
            end) args
  | NewExpr _ args =>
      (fix all (l : list Expr) : Prop :=
         match l with
         | [] => True
         | x :: rest => expr_bounded x /\ all rest
         end) args
  end.

(** Every function or method has at most 255 parameters, and every
    expression inside is bounded. *)
Fixpoint stmt_bounded (s : Stmt) : Prop :=
  match s with
  | ExpressionStmt e | PrintStmt e => expr_bounded e
  | VarStmt _ None | ReturnStmt _ None => True
  | VarStmt _ (Some e) | ReturnStmt _ (Some e) => expr_bounded e
  | BlockStmt l =>
      (fix all (l : list Stmt) : Prop :=
         match l with
         | [] => True
         | x :: rest => stmt_bounded x /\ all rest
         end) l
  | IfStmt c t None => expr_bounded c /\ stmt_bounded t
  | IfStmt c t (Some e) => expr_bounded c /\ stmt_bounded t /\ stmt_bounded e
  | WhileStmt c b => expr_bounded c /\ stmt_bounded b
  | FunctionStmt _ params body =>
      (length params <= 255)%nat
      /\ (fix all (l : list Stmt) : Prop :=
            match l with
            | [] => True
            | x :: rest => stmt_bounded x /\ all rest
            end) body
  | ClassStmt _ ms =>
      (fix all (l : list FunctionDecl) : Prop :=
         match l with
         | [] => True
         | mkFunction _ params body :: rest =>
             ((length params <= 255)%nat
              /\ (fix all' (l : list Stmt) : Prop :=
                    match l with
                    | [] => True
                    | x :: rest => stmt_bounded x /\ all' rest
                    end) body)
             /\ all rest
         end) ms
  end.

Definition decl_bounded (d : FunctionDecl) : Prop := stmt_bounded (fn_stmt d).

(** What a parser method returns when it returns. *)
Definition yields {A} (Q : A -> Prop) (c : P A) : Prop :=
  forall p a p', c p = POk a p' -> Q a.

(** [fun f(a, b) { return a; } C(0, 0);] *)
Definition function_tokens : list Token :=
  [tk FUN "fun"; tk IDENTIFIER "f"; tk LEFT_PAREN "("; tk IDENTIFIER "a";
   tk COMMA ","; tk IDENTIFIER "b"; tk RIGHT_PAREN ")"; tk LEFT_BRACE "{";
   tk RETURN "return"; tk IDENTIFIER "a"; tk SEMICOLON ";";
   tk RIGHT_BRACE "}"] ++ call_tokens 2.

Definition function_program : list Stmt :=
  [FunctionStmt (tk IDENTIFIER "f") [tk IDENTIFIER "a"; tk IDENTIFIER "b"]
     [ReturnStmt (tk RETURN "return") (Some (Variable_ (tk IDENTIFIER "a")))];
   ExpressionStmt
     (Call (Variable_ (tk IDENTIFIER "C")) (tk RIGHT_PAREN ")")
        [Literal (LNumber PrimFloat.zero); Literal (LNumber PrimFloat.zero)])].

(** ** Arithmetic and comparison on numbers *)

Definition arithmetic (t : TokenType) : bool :=
  match t with
  | MINUS | STAR | SLASH | LESS | LESS_EQUAL | GREATER | GREATER_EQUAL => true
  | _ => false
  end.

Definition is_runtime_error {A} (o : outcome A) : bool :=
  match o with
  | RuntimeError_ _ _ => true
  | _ => false
  end.

(** [right == 0] for a right operand that is an [int] or a [float]. *)
Definition is_zero (v : value) : bool :=
  match as_number v with
  | Some y => Py.eq y (Py.Int 0)
  | None => false
  end.

(** The runtime errors of the arithmetic and comparison operators. *)
Definition operands_rejected (t : TokenType) (left right : value) : bool :=
  match as_number left, as_number right with
  | Some _, Some _ => bool_decide (t = SLASH) && is_zero right
  | _, _ => true
  end.

(** What the operators compute on two [float]s. *)
Definition float_result (t : TokenType) (a b : float) : value :=
  match t with
  | MINUS => VFloat (a - b)
  | STAR => VFloat (a * b)
  | SLASH => VFloat (a / b)
  | LESS => VBool (a <? b)%float
  | LESS_EQUAL => VBool ((a <? b) || (a =? b))%float
  | GREATER => VBool (b <? a)%float
  | GREATER_EQUAL => VBool ((b <? a) || (b =? a))%float
  | _ => VNone
  end.

(** A computation keeps [R] when the interpreter it leaves is related by
    [R] to the one it started from, whatever the outcome. *)
Definition preserves (R : Interpreter -> Interpreter -> Prop) {A} (c : M A)
    : Prop :=
  forall i, R i (snd (c i)).

(** The three entries of a trace event the debugger reads. *)
Definition event_step (e : Event) : Z :=
  match e with
  | EvNew s _ | EvSet s _ _ _ _ _ _ | EvUndo s _ _ _ _ _ _ _
  | EvRedo s _ _ _ _ _ _ _ | EvCheckpoint s _ _ _ _ | EvRollback s _ _ _ _ => s
  end.

Definition event_object (e : Event) : string :=
  match e with
  | EvNew _ o | EvSet _ _ o _ _ _ _ | EvUndo _ _ o _ _ _ _ _
  | EvRedo _ _ o _ _ _ _ _ | EvCheckpoint _ _ o _ _ | EvRollback _ _ o _ _ => o
  end.

Definition event_fields_after (e : Event) : Dict.t string :=
  match e with
  | EvNew _ _ => []
  | EvSet _ _ _ _ _ _ f | EvUndo _ _ _ _ _ _ f _ | EvRedo _ _ _ _ _ _ f _
  | EvCheckpoint _ _ _ _ f | EvRollback _ _ _ _ f => f
  end.

(** What a method of an instance does to the step counter and the trace:
    nothing; one step taken; one step taken and the event of that step
    recorded. *)
Inductive advances (i : Interpreter) : Interpreter -> Prop :=
| advance_none : advances i i
| advance_step : advances i (with_step (_step i + 1) i)
| advance_event ev :
    event_step ev = _step i + 1 ->
    advances i (record_event ev (with_step (_step i + 1) i)).

(** The methods [native_call] and the [SetExpr] case run on an instance. *)
Inductive instance_method
    : (OInstance -> Interpreter -> Instance.result) -> Prop :=
| method_set name v :
    instance_method
      (fun self i =>
         let '(self, i) := Instance.set name v self i in (Ok v, self, i))
| method_undo line : instance_method (Instance._undo line)
| method_redo line : instance_method (Instance._redo line)
| method_history : instance_method Instance._history
| method_checkpoint label line :
    instance_method (Instance._checkpoint label line)
| method_rollback label line :
    instance_method (Instance._rollback label line)
| method_checkpoints :
    instance_method
      (fun o i => (Ok (VList (map ItemStr (Dict.keys (checkpoints o)))), o, i)).

(** The steps of the trace go strictly up, and none is beyond the step
    counter. *)
Definition trace_ok (i : Interpreter) : Prop :=
  StronglySorted Z.lt (map event_step (trace i))
  /\ Forall (fun e => event_step e <= _step i) (trace i).

(** The store files every instance under its id, and the ids handed out
    so far are below [_next_obj_id]. *)
Definition store_ok (i : Interpreter) : Prop :=
  forall k o, instances i !! k = Some o -> id o = k /\ k < _next_obj_id i.

(** The relation of a state to a later one: the trace has only grown at
    its end, the step counter has not gone down, and the steps of the
    trace are still in order if they were. *)
Definition later (i i' : Interpreter) : Prop :=
  (exists events, trace i' = trace i ++ events)
  /\ _step i <= _step i'
  /\ (trace_ok i -> trace_ok i').

(** The store of a later state keeps the instances of the earlier one,
    each under its id and with its class, and the next id is no lower;
    the store stays well-formed if it was.  All this is meant from a
    well-formed store. *)
Definition keeps_instances (i i' : Interpreter) : Prop :=
  store_ok i ->
  store_ok i'
  /\ _next_obj_id i <= _next_obj_id i'
  /\ forall k o, instances i !! k = Some o ->
       exists o', instances i' !! k = Some o'
                  /\ klass o' = klass o /\ id o' = id o.

(** The number of newline characters among the first [n] of a source. *)
Fixpoint newlines_before (n : nat) (source : string) : nat :=
  match n, source with
  | S n, String c rest =>
      (if Ascii.eqb c Scan.newline then 1 else 0) + newlines_before n rest
  | _, _ => 0
  end.

(** The number of newline characters of a source. *)
Definition newlines (source : string) : nat :=
  newlines_before (String.length source) source.

(** What a scanner method does when it returns, from a scanner that has
    not run past the end of the source: it only moves forward, stays
    inside the source, keeps the line counter in step with the newlines it
    passes, and only appends tokens, none an [EOF], whose lines do not go
    down and lie between the line counter before and after. *)
Record scanned (s s' : Scan.Scanner) : Prop := {
  scanned_source : Scan.source s' = Scan.source s;
  scanned_current :
    (Scan.current s <= Scan.current s'
     <= String.length (Scan.source s))%nat;
  scanned_line :
    Scan.line s' - Z.of_nat (newlines_before (Scan.current s') (Scan.source s))
    = Scan.line s - Z.of_nat (newlines_before (Scan.current s) (Scan.source s));
  scanned_tokens :
    exists new,
      Scan.tokens s' = Scan.tokens s ++ new
      /\ Forall (fun t => type t <> EOF) new
      /\ StronglySorted Z.le (map line new)
      /\ Forall (fun t => Scan.line s <= line t <= Scan.line s') new
}.

(** A method that, run from [s], does not index outside the source nor
    use up its budget, and whose value and final scanner satisfy [Q] when
    it returns. *)
Definition scans_at (s : Scan.Scanner) {A} (c : Scan.M A)
    (Q : A -> Scan.Scanner -> Prop) : Prop :=
  (Scan.current s <= String.length (Scan.source s))%nat ->
  match c s with
  | Scan.Done a s' => scanned s s' /\ Q a s'
  | Scan.IndexError | Scan.OutOfFuel => False
  | _ => True
  end.

(** The character [peek] returns: the one ahead, the null character at
    the end of the source. *)
Definition ahead (s : Scan.Scanner) : ascii :=
  default Scan.nul (String.get (Scan.current s) (Scan.source s)).

Definition at_end (s : Scan.Scanner) : bool :=
  (String.length (Scan.source s) <=? Scan.current s)%nat.

(** The parser stands on a token of the list [toks]. *)
Definition within (toks : list Token) (p : Parser) : Prop :=
  tokens p = toks /\ (current p < length toks)%nat.

(** A parser method that, run from [p] on the list [toks], does not index
    outside the list nor use up its budget; when it returns it has not
    moved backwards, and its value and final parser satisfy [Q]. *)
Definition safe (toks : list Token) (p : Parser) {A} (c : P A)
    (Q : A -> Parser -> Prop) : Prop :=
  within toks p ->
  match c p with
  | POk a p' => within toks p' /\ (current p <= current p')%nat /\ Q a p'
  | PParseError _ => True
  | PIndexError | PFuel => False
  end.

(** At most [n] tokens are left, the one the parser stands on counted. *)
Definition level (toks : list Token) (n : nat) (p : Parser) : Prop :=
  (length toks - current p <= n)%nat.

(** The token list ends in an [EOF] token. *)
Definition ends_in_EOF (toks : list Token) : Prop :=
  exists body t, toks = body ++ [t] /\ type t = EOF.

(* ===================================================================== *)
(** * Properties                                                          *)
(* ===================================================================== *)

(** ** Dicts and lists *)

Lemma dict_get_set_eq {V} (d : Dict.t V) k v :
  Dict.get (Dict.set d k v) k = Some v.
Proof.
  induction d as [|[k' v'] d IH]; simpl.
  - by rewrite String.eqb_refl.
  - destruct (String.eqb k' k) eqn:E; simpl; rewrite E; [done | apply IH].
Qed.

Lemma dict_get_set_ne {V} (d : Dict.t V) k k' v :
  k <> k' -> Dict.get (Dict.set d k v) k' = Dict.get d k'.
Proof.
  intros Hne. induction d as [|[k0 v0] d IH]; simpl.
  - destruct (String.eqb k k') eqn:E; [|done].
    apply String.eqb_eq in E. congruence.
  - destruct (String.eqb k0 k) eqn:E; simpl.
    + apply String.eqb_eq in E. subst k0.
      destruct (String.eqb k k') eqn:E'; [|done].
      apply String.eqb_eq in E'. congruence.
    + by rewrite IH.
Qed.

Lemma dict_mem_set {V} (d : Dict.t V) k v : Dict.mem (Dict.set d k v) k = true.
Proof. unfold Dict.mem. by rewrite dict_get_set_eq. Qed.

(** Writing the old value back undoes an overwrite. *)
Lemma dict_set_set_old {V} (d : Dict.t V) k v old :
  Dict.get d k = Some old -> Dict.set (Dict.set d k v) k old = d.
Proof.
  induction d as [|[k' v'] d IH]; simpl; [done|].
  destruct (String.eqb k' k) eqn:E; simpl; rewrite E.
  - by intros [= ->].
  - intros H. by rewrite IH.
Qed.

(** Deleting a key that the write added undoes the write. *)
Lemma dict_del_set_new {V} (d : Dict.t V) k v :
  Dict.get d k = None -> Dict.del (Dict.set d k v) k = d.
Proof.
  induction d as [|[k' v'] d IH]; simpl.
  - by rewrite String.eqb_refl.
  - destruct (String.eqb k' k) eqn:E; simpl; rewrite E; [done|].
    intros H. by rewrite IH.
Qed.

Lemma pop_snoc {A} (l : list A) x : pop (l ++ [x]) = Some (l, x).
Proof.
  induction l as [|y l IH]; simpl; [done|]. by rewrite IH.
Qed.

Lemma pop_None {A} (l : list A) : pop l = None -> l = [].
Proof.
  destruct l as [|x l]; [done|]. simpl. by destruct (pop l) as [[? ?]|].
Qed.

Lemma pop_Some {A} (l rest : list A) x :
  pop l = Some (rest, x) -> l = rest ++ [x].
Proof.
  revert rest. induction l as [|y l IH]; simpl; [done|].
  intros rest. destruct (pop l) as [[r z]|] eqn:E.
  - intros [= <- <-]. simpl. f_equal. by apply IH.
  - intros [= <- <-]. by rewrite (pop_None l E).
Qed.

(** ** Operations on one instance *)

Lemma run_ops_app ops1 ops2 s :
  run_ops (ops1 ++ ops2) s = run_ops ops2 (run_ops ops1 s).
Proof. unfold run_ops. apply fold_left_app. Qed.

Lemma reachable_new k obj_id : reachable (new_instance k obj_id).
Proof.
  exists k, obj_id, (new_interpreter [] (fun _ => PrimFloat.zero)), []. done.
Qed.

(** ** The future stack after [set], [checkpoint], [rollback] *)

Lemma set_future t v self i : future (fst (Instance.set t v self i)) = [].
Proof. done. Qed.

Lemma set_fields t v self i :
  fields (fst (Instance.set t v self i))
  = Dict.set (fields self) (lexeme t) v.
Proof. done. Qed.

Lemma set_past t v self i :
  past (fst (Instance.set t v self i))
  = past self ++ [FieldPatch (lexeme t) (Dict.get (fields self) (lexeme t)) v
                    (_step i + 1) (line t)].
Proof. done. Qed.

Lemma set_checkpoints t v self i :
  checkpoints (fst (Instance.set t v self i)) = checkpoints self.
Proof. done. Qed.

(** What a successful [_rollback] leaves behind. *)
Lemma rollback_Some label l self i stored :
  Dict.get (checkpoints self) (Instance.label_name label) = Some stored ->
  raised (Instance._rollback label l self i) = Ok VNone
  /\ fields (fst (after (Instance._rollback label l self i))) = stored
  /\ past (fst (after (Instance._rollback label l self i)))
     = past self ++ [SnapshotPatch (fields self) stored (_step i + 1) l]
  /\ future (fst (after (Instance._rollback label l self i))) = []
  /\ checkpoints (fst (after (Instance._rollback label l self i)))
     = checkpoints self.
Proof. intros H. unfold Instance._rollback. rewrite H. done. Qed.

Lemma rollback_None label l self i :
  Dict.get (checkpoints self) (Instance.label_name label) = None ->
  Instance._rollback label l self i
  = (RuntimeError_ (mkToken IDENTIFIER "rollback" LNone l)
       ("No checkpoint named '" +:+ Instance.label_name label +:+ "'."), self, i).
Proof. intros H. unfold Instance._rollback. by rewrite H. Qed.

Lemma rollback_Ok_inv label l self i :
  raised (Instance._rollback label l self i) = Ok VNone ->
  exists stored, Dict.get (checkpoints self) (Instance.label_name label) = Some stored.
Proof.
  destruct (Dict.get (checkpoints self) (Instance.label_name label)) as [d|] eqn:E;
    [by exists d|].
  by rewrite (rollback_None _ _ _ _ E).
Qed.

(** C1 (as amended): after a [set] and after a [rollback] that succeeds
    the future stack is empty; a [checkpoint] never touches it, so after a
    [checkpoint] it is what it was before. *)
Theorem future_after_set_rollback_checkpoint
    (t : Token) (v label : value) (l : Z) (self : OInstance)
    (i : Interpreter) :
  future (fst (Instance.set t v self i)) = []
  /\ (raised (Instance._rollback label l self i) = Ok VNone ->
      future (fst (after (Instance._rollback label l self i))) = [])
  /\ future (fst (after (Instance._checkpoint label l self i))) = future self.
Proof.
  split; [done|]. split; [|done].
  intros [stored H]%rollback_Ok_inv.
  by destruct (rollback_Some label l self i stored H) as (_ & _ & _ & ? & _).
Qed.

Lemma future_after_set_rollback_checkpoint_witness :
  raised (Instance._rollback (VStr "k") 1 (fst after_checkpoint)
            (snd after_checkpoint)) = Ok VNone
  /\ future (fst (after (Instance._rollback (VStr "k") 1
                           (fst after_checkpoint) (snd after_checkpoint))))
     = [].
Proof.
  split; [reflexivity|].
  apply (future_after_set_rollback_checkpoint (sample_token "x") VNone
           (VStr "k") 1 (fst after_checkpoint) (snd after_checkpoint)).
  reflexivity.
Defined.

(** C1, as stated, fails for [checkpoint]: on the reachable history
    [o.x = 1; o.undo();] the call [o.checkpoint("k")] completes and the
    future stack still holds the undone patch. *)
Lemma checkpoint_keeps_future_counterexample :
  ~ (forall (self : OInstance) (i : Interpreter) (label : value) (l : Z),
       reachable self ->
       future (fst (after (Instance._checkpoint label l self i))) = []).
Proof.
  intros H.
  specialize (H (fst after_write_undo) (snd after_write_undo) (VStr "k") 1).
  assert (R : reachable (fst after_write_undo)).
  { exists sample_class, 1, sample_interpreter,
      [OpSet (sample_token "x") (VFloat PrimFloat.one); OpUndo 1]. done. }
  specialize (H R). vm_compute in H. discriminate H.
Qed.

(** ** [undo] and [redo], one patch at a time *)

(** The instance after an [_undo] that finds the patch [p] on top of the
    past stack and can apply it; the serialization of the event, which
    comes last, may still raise. *)
Lemma undo_after l self i rest p self' :
  past self = rest ++ [p] ->
  Instance.undo_fields p (with_past rest self) = inr self' ->
  fst (after (Instance._undo l self i))
  = with_future (future self' ++ [p]) self'.
Proof.
  intros Hp Hf. unfold Instance._undo. rewrite Hp, pop_snoc. simpl.
  rewrite Hf.
  destruct (serialize_value (patch_new p)); [done|].
  by destruct (serialize_value (patch_old p)).
Qed.

Lemma redo_after l self i rest p self' :
  future self = rest ++ [p] ->
  Instance.redo_fields p (with_future rest self) = inr self' ->
  fst (after (Instance._redo l self i))
  = with_past (past self' ++ [p]) self'.
Proof.
  intros Hp Hf. unfold Instance._redo. rewrite Hp, pop_snoc. simpl.
  rewrite Hf.
  destruct (serialize_value (patch_old p)); [done|].
  by destruct (serialize_value (patch_new p)).
Qed.

(** ** A rollback is one step on the past stack *)

Lemma after_fst r : fst (after r) = snd (fst r).
Proof. done. Qed.

Lemma rollback_instance label l self i stored :
  Dict.get (checkpoints self) (Instance.label_name label) = Some stored ->
  snd (fst (Instance._rollback label l self i))
  = with_fields stored
      (with_future []
         (with_past
            (past self ++ [SnapshotPatch (fields self) stored (_step i + 1) l])
            self)).
Proof. intros H. unfold Instance._rollback. by rewrite H. Qed.

(** C2: after a [rollback] that succeeds the past stack is one entry
    longer; one [undo] then leaves the live field map as it was just
    before the rollback, and one [redo] after that leaves it as the
    rollback had set it. *)
Theorem rollback_undo_redo
    (label : value) (l l1 l2 : Z) (self : OInstance) (i : Interpreter) :
  raised (Instance._rollback label l self i) = Ok VNone ->
  let s1 := after (Instance._rollback label l self i) in
  let s2 := after (Instance._undo l1 (fst s1) (snd s1)) in
  let s3 := after (Instance._redo l2 (fst s2) (snd s2)) in
  length (past (fst s1)) = S (length (past self))
  /\ fields (fst s2) = fields self
  /\ past (fst s2) = past self
  /\ fields (fst s3) = fields (fst s1)
  /\ past (fst s3) = past (fst s1).
Proof.
  intros [stored H]%rollback_Ok_inv.
  pose proof (rollback_instance label l self i stored H) as E1.
  set (p := SnapshotPatch (fields self) stored (_step i + 1) l) in *.
  cbn zeta. rewrite !after_fst in *.
  set (o1 := snd (fst (Instance._rollback label l self i))) in *.
  set (i1 := after (Instance._rollback label l self i)).
  pose proof (undo_after l1 o1 (snd i1) (past self) p
                (with_fields (fields self) (with_past (past self) o1))) as E2.
  rewrite !after_fst in E2. rewrite E2; [|by rewrite E1|done].
  split; [rewrite E1; simpl; rewrite length_app; simpl; lia|].
  split; [done|]. split; [done|].
  set (o2 := with_future _ _).
  match goal with |- context [Instance._redo l2 o2 ?j] =>
    pose proof (redo_after l2 o2 j (future o1) p
                  (with_fields stored (with_future (future o1) o2))) as E3
  end.
  rewrite !after_fst in E3. rewrite E3; [|done|done].
  rewrite E1. done.
Qed.

Lemma rollback_undo_redo_witness :
  raised (Instance._rollback (VStr "k") 1 (fst after_checkpoint)
            (snd after_checkpoint)) = Ok VNone
  /\ (let s1 := after (Instance._rollback (VStr "k") 1 (fst after_checkpoint)
                        (snd after_checkpoint)) in
      let s2 := after (Instance._undo 2 (fst s1) (snd s1)) in
      let s3 := after (Instance._redo 3 (fst s2) (snd s2)) in
      length (past (fst s1)) = S (length (past (fst after_checkpoint)))
      /\ fields (fst s2) = fields (fst after_checkpoint)
      /\ past (fst s2) = past (fst after_checkpoint)
      /\ fields (fst s3) = fields (fst s1)
      /\ past (fst s3) = past (fst s1)).
Proof.
  split; [reflexivity|].
  apply (rollback_undo_redo (VStr "k") 1 2 3 (fst after_checkpoint)
           (snd after_checkpoint)).
  reflexivity.
Defined.

(** ** Checkpoints *)

Lemma undo_fields_checkpoints p self self' :
  Instance.undo_fields p self = inr self' ->
  checkpoints self' = checkpoints self.
Proof.
  unfold Instance.undo_fields. destruct p as [f old new st ln|old new st ln].
  - destruct (String.eqb f "__snapshot__").
    + destruct (py_dict _); [done|]. by intros [= <-].
    + destruct old; [by intros [= <-]|].
      destruct (Dict.mem _ _); by intros [= <-].
  - by intros [= <-].
Qed.

Lemma redo_fields_checkpoints p self self' :
  Instance.redo_fields p self = inr self' ->
  checkpoints self' = checkpoints self.
Proof.
  unfold Instance.redo_fields. destruct p as [f old new st ln|old new st ln].
  - destruct (String.eqb f "__snapshot__").
    + destruct (py_dict _); [done|]. by intros [= <-].
    + by intros [= <-].
  - by intros [= <-].
Qed.

Lemma undo_checkpoints l self i :
  checkpoints (fst (after (Instance._undo l self i))) = checkpoints self.
Proof.
  unfold Instance._undo. destruct (pop (past self)) as [[rest p]|]; [|done].
  simpl. destruct (Instance.undo_fields p _) as [e|self'] eqn:E; [done|].
  apply undo_fields_checkpoints in E.
  destruct (serialize_value (patch_new p)); [done|].
  by destruct (serialize_value (patch_old p)).
Qed.

Lemma redo_checkpoints l self i :
  checkpoints (fst (after (Instance._redo l self i))) = checkpoints self.
Proof.
  unfold Instance._redo. destruct (pop (future self)) as [[rest p]|]; [|done].
  simpl. destruct (Instance.redo_fields p _) as [e|self'] eqn:E; [done|].
  apply redo_fields_checkpoints in E.
  destruct (serialize_value (patch_old p)); [done|].
  by destruct (serialize_value (patch_new p)).
Qed.

Lemma edits_checkpoints ops s :
  forallb is_edit ops = true ->
  checkpoints (fst (run_ops ops s)) = checkpoints (fst s).
Proof.
  revert s. induction ops as [|o ops IH]; intros s; [done|].
  simpl. intros [Ho Hops]%andb_prop. rewrite (IH _ Hops).
  destruct o; try done; simpl.
  - apply undo_checkpoints.
  - apply redo_checkpoints.
Qed.

(** C4: a [checkpoint], then any number of field writes, undos and redos
    in any order, then a [rollback] to the same label: the rollback
    succeeds and the live field map is the one the checkpoint captured. *)
Theorem checkpoint_rollback_restores
    (label : value) (l l' : Z) (ops : list op) (self : OInstance)
    (i : Interpreter) :
  forallb is_edit ops = true ->
  let s1 := after (Instance._checkpoint label l self i) in
  let s2 := run_ops ops s1 in
  raised (Instance._rollback label l' (fst s2) (snd s2)) = Ok VNone
  /\ fields (fst (after (Instance._rollback label l' (fst s2) (snd s2))))
     = fields self.
Proof.
  intros Hops. cbn zeta.
  set (s2 := run_ops ops _).
  assert (H : Dict.get (checkpoints (fst s2)) (Instance.label_name label)
              = Some (fields self)).
  { unfold s2. rewrite (edits_checkpoints _ _ Hops). simpl.
    apply dict_get_set_eq. }
  by destruct (rollback_Some label l' (fst s2) (snd s2) _ H) as (? & ? & _).
Qed.

Lemma checkpoint_rollback_restores_witness :
  forallb is_edit scenario_edits = true
  /\ Dict.get
       (fields (fst (after (Instance._rollback (VStr "s") 1
          (fst (run_ops scenario_edits
                  (after (Instance._checkpoint (VStr "s") 1
                            (fst scenario_before) (snd scenario_before)))))
          (snd (run_ops scenario_edits
                  (after (Instance._checkpoint (VStr "s") 1
                            (fst scenario_before) (snd scenario_before))))))))) "b"
     = None.
Proof.
  split; [reflexivity|].
  rewrite (proj2 (checkpoint_rollback_restores (VStr "s") 1 1 scenario_edits
                    (fst scenario_before) (snd scenario_before) eq_refl)).
  reflexivity.
Defined.

(** C8: a [rollback] to a label that names no checkpoint raises the
    runtime error that quotes the label, and leaves the instance (fields,
    past, future, checkpoints) and the interpreter (step counter, trace)
    exactly as they were. *)
Theorem rollback_unknown_label
    (label : value) (l : Z) (self : OInstance) (i : Interpreter) :
  Dict.mem (checkpoints self) (Instance.label_name label) = false ->
  Instance._rollback label l self i
  = (RuntimeError_ (mkToken IDENTIFIER "rollback" LNone l)
       ("No checkpoint named '" +:+ Instance.label_name label +:+ "'."),
     self, i).
Proof.
  unfold Dict.mem. intros H. apply rollback_None.
  by destruct (Dict.get _ _).
Qed.

Lemma rollback_unknown_label_witness :
  Instance._rollback (VStr "nope") 1 (fst after_checkpoint)
    (snd after_checkpoint)
  = (RuntimeError_ (mkToken IDENTIFIER "rollback" LNone 1)
       "No checkpoint named 'nope'.",
     fst after_checkpoint, snd after_checkpoint).
Proof.
  apply (rollback_unknown_label (VStr "nope") 1 (fst after_checkpoint)
           (snd after_checkpoint)).
  reflexivity.
Defined.


(** ** Writes, then as many undos, then as many redos *)

Lemma undo_instance_eq l o i :
  fst (after (Instance._undo l o i)) = undo_instance o.
Proof.
  unfold Instance._undo, undo_instance.
  destruct (pop (past o)) as [[rest p]|]; [|done]. simpl.
  destruct (Instance.undo_fields p _); [done|].
  destruct (serialize_value (patch_new p)); [done|].
  by destruct (serialize_value (patch_old p)).
Qed.

Lemma redo_instance_eq l o i :
  fst (after (Instance._redo l o i)) = redo_instance o.
Proof.
  unfold Instance._redo, redo_instance.
  destruct (pop (future o)) as [[rest p]|]; [|done]. simpl.
  destruct (Instance.redo_fields p _); [done|].
  destruct (serialize_value (patch_old p)); [done|].
  by destruct (serialize_value (patch_new p)).
Qed.

Lemma run_undos us o i :
  fst (run_ops (map OpUndo us) (o, i)) = Nat.iter (length us) undo_instance o.
Proof.
  revert o i. induction us as [|l us IH]; intros o i; [done|].
  change (length (l :: us)) with (S (length us)).
  rewrite Nat.iter_succ_r. simpl.
  destruct (after (Instance._undo l o i)) as [o' i'] eqn:E.
  rewrite IH. f_equal.
  by rewrite <- (undo_instance_eq l o i), E.
Qed.

Lemma run_redos rs o i :
  fst (run_ops (map OpRedo rs) (o, i)) = Nat.iter (length rs) redo_instance o.
Proof.
  revert o i. induction rs as [|l rs IH]; intros o i; [done|].
  change (length (l :: rs)) with (S (length rs)).
  rewrite Nat.iter_succ_r. simpl.
  destruct (after (Instance._redo l o i)) as [o' i'] eqn:E.
  rewrite IH. f_equal.
  by rewrite <- (redo_instance_eq l o i), E.
Qed.

Lemma undo_set t v o i f :
  marker_free t = true ->
  undo_instance (with_future f (fst (Instance.set t v o i)))
  = with_future (f ++ [set_patch t v o i]) o.
Proof.
  unfold marker_free. intros Hm%negb_true_iff.
  unfold undo_instance. simpl. rewrite pop_snoc.
  unfold Instance.undo_fields. rewrite Hm. simpl.
  destruct (Dict.get (fields o) (lexeme t)) as [old|] eqn:E.
  - unfold with_fields, with_future, set_patch. simpl.
    by rewrite (dict_set_set_old _ _ _ _ E), E.
  - rewrite dict_mem_set. unfold with_fields, with_future, set_patch. simpl.
    by rewrite (dict_del_set_new _ _ _ E), E.
Qed.

Lemma redo_set t v o i f :
  marker_free t = true ->
  redo_instance (with_future (f ++ [set_patch t v o i]) o)
  = with_future f (fst (Instance.set t v o i)).
Proof.
  unfold marker_free. intros Hm%negb_true_iff.
  unfold redo_instance. simpl. rewrite pop_snoc.
  unfold Instance.redo_fields. simpl. rewrite Hm. done.
Qed.

Lemma writes_undone_redone ws : forall o i,
  future o = [] ->
  forallb (fun w => marker_free (fst w)) ws = true ->
  exists ps,
    Nat.iter (length ws) undo_instance (fst (run_ops (writes ws) (o, i)))
    = with_future ps o
    /\ Nat.iter (length ws) redo_instance (with_future ps o)
       = fst (run_ops (writes ws) (o, i)).
Proof.
  induction ws as [|[t v] ws IH]; intros o i Hfut Hok.
  - exists []. simpl. split; destruct o; simpl in *; by subst.
  - simpl in Hok. apply andb_prop in Hok as [Ht Hok]. simpl.
    destruct (Instance.set t v o i) as [o1 i1] eqn:E.
    destruct (IH o1 i1) as (ps & HU & HR); [by rewrite <- (set_future t v o i), E|done|].
    exists (ps ++ [set_patch t v o i]). split.
    + rewrite HU.
      replace o1 with (fst (Instance.set t v o i)) by (by rewrite E).
      by apply undo_set.
    + change (redo_instance (Nat.iter ?n redo_instance ?x))
        with (Nat.iter (S n) redo_instance x).
      rewrite Nat.iter_succ_r, redo_set by done.
      by rewrite E.
Qed.

(** The part of C3 that the code keeps: for every sequence of writes to
    fields not called [__snapshot__], from a state with an empty future
    stack, as many undos and then as many redos give back the instance as
    it was right after the writes: its field map, and its stacks too. *)
Theorem writes_undo_redo
    (ws : list (Token * value)) (us rs : list Z) (o : OInstance)
    (i : Interpreter) :
  future o = [] ->
  forallb (fun w => marker_free (fst w)) ws = true ->
  length us = length ws ->
  length rs = length ws ->
  fst (run_ops (map OpUndo us ++ map OpRedo rs) (run_ops (writes ws) (o, i)))
  = fst (run_ops (writes ws) (o, i)).
Proof.
  intros Hfut Hok Hus Hrs.
  destruct (writes_undone_redone ws o i Hfut Hok) as (ps & HU & HR).
  rewrite run_ops_app.
  destruct (run_ops (writes ws) (o, i)) as [o1 i1] eqn:E1.
  destruct (run_ops (map OpUndo us) (o1, i1)) as [o2 i2] eqn:E2.
  rewrite run_redos, Hrs. simpl in *.
  replace o2 with (fst (run_ops (map OpUndo us) (o1, i1))) by (by rewrite E2).
  by rewrite run_undos, Hus, HU.
Qed.

Lemma writes_undo_redo_witness :
  fields (fst (run_ops (map OpUndo [1; 2] ++ map OpRedo [3; 4])
                 (run_ops (writes [(sample_token "a", VNone);
                                   (sample_token "b", VBool true)])
                    (fst scenario_before, snd scenario_before))))
  = [("a", VNone); ("b", VBool true)].
Proof.
  rewrite (writes_undo_redo [(sample_token "a", VNone);
                             (sample_token "b", VBool true)]
             [1; 2] [3; 4] (fst scenario_before) (snd scenario_before)
             eq_refl eq_refl eq_refl eq_refl).
  reflexivity.
Defined.

(** ** A field called [__snapshot__] *)

(** C3 fails on the code: from [marker_history] (empty future stack) the
    one write [o.__snapshot__ = ""] followed by one [undo] and one [redo],
    all three returning normally, leaves the instance with no field at all,
    where the write had left both [__snapshot__] and [x]: [_undo] and
    [_redo] take the patch for a snapshot patch because of its field name. *)
Lemma marker_field_undo_redo_loses_fields :
  let s1 := run_ops (writes [(sample_token "__snapshot__", VStr "")])
              marker_history in
  let r2 := Instance._undo 2 (fst s1) (snd s1) in
  let r3 := Instance._redo 3 (fst (after r2)) (snd (after r2)) in
  future (fst marker_history) = []
  /\ fields (fst s1)
     = [("__snapshot__", VStr ""); ("x", VFloat PrimFloat.one)]
  /\ raised r2 = Ok VNone
  /\ raised r3 = Ok VNone
  /\ fields (fst (after r3)) = [].
Proof. vm_compute. repeat split; reflexivity. Qed.

(** The same collision on a first write: [o.__snapshot__ = 1; o.undo();]
    raises Python's [TypeError] ([dict] of the [_UNDEFINED] sentinel) after
    the patch has left the past stack, so the write can be neither undone
    nor redone. *)
Lemma marker_field_undo_raises :
  let s1 := run_ops (writes [(sample_token "__snapshot__", VFloat PrimFloat.one)])
              (new_instance sample_class 1, sample_interpreter) in
  let r2 := Instance._undo 2 (fst s1) (snd s1) in
  raised r2 = PyError Py.TypeError
  /\ past (fst (after r2)) = []
  /\ future (fst (after r2)) = []
  /\ fields (fst (after r2)) = fields (fst s1).
Proof. vm_compute. repeat split; reflexivity. Qed.

(** ** Argument and parameter lists *)

(** C5 fails on the code for [new]: [new C(0, ..., 0);] with 256
    arguments is parsed into a [NewExpr] with 256 arguments, while the
    plain call [C(0, ..., 0);] with the same arguments is the parse error
    of [finish_call]. *)
Lemma new_accepts_256_arguments :
  new_argument_count (Parse.parse 300 (new_tokens 256)) = Some 256%nat
  /\ parse_error (Parse.parse 300 (call_tokens 256))
     = Some "[line 1] Error at '0': Can't have more than 255 arguments.".
Proof. split; vm_compute; reflexivity. Qed.

(** ** Arithmetic and comparison on non-numbers *)

(** C6 fails on the code for booleans: [true - 1] evaluates to [0] and
    [true < 2] to [true], no runtime error, because [bool] passes
    [isinstance(x, (int, float))]. *)
Lemma boolean_operands_accepted (fuel : nat) (i : Interpreter) :
  evaluate fuel
    (Binary (Literal (LBool true)) (tk MINUS "-")
       (Literal (LNumber PrimFloat.one))) i
  = (Ok (VFloat PrimFloat.zero), i)
  /\ evaluate fuel
       (Binary (Literal (LBool true)) (tk LESS "<")
          (Literal (LNumber PrimFloat.two))) i
     = (Ok (VBool true), i)
  /\ type_of (VBool true) = "bool".
Proof. repeat split; reflexivity. Qed.

(** ** Property lookup on an instance *)

Lemma bind_method_this m self i :
  exists f i',
    bind_method m self i = (Ok f, i')
    /\ declaration f = declaration m
    /\ is_initializer f = is_initializer m
    /\ Env.enclosing (closure f) = closure m
    /\ Env.lookup i' (closure f) "this"
       = Some (VInstance (klass self) (id self)).
Proof.
  eexists _, _. split; [reflexivity|]. simpl.
  repeat split. unfold Env.values. simpl.
  by rewrite !lookup_insert_eq.
Qed.

(** C7: for the seven built-in names, [OInstance.get] returns the field
    of that name when the live field map has one; otherwise the declared
    method of that name, bound to the instance, when the class has one;
    and the built-in only when both are missing. *)
Theorem builtin_resolved_last
    (t : Token) (self : OInstance) (i : Interpreter) :
  In (lexeme t) builtin_names ->
  match Dict.get (fields self) (lexeme t) with
  | Some v => instance_get t self i = (Ok v, i)
  | None =>
      match find_method (klass self) (lexeme t) with
      | Some m =>
          exists f i',
            instance_get t self i = (Ok (VFunction f), i')
            /\ bind_method m self i = (Ok f, i')
            /\ declaration f = declaration m
            /\ Env.lookup i' (closure f) "this"
               = Some (VInstance (klass self) (id self))
      | None =>
          exists n,
            fst (instance_get t self i) = Ok (VNative n)
            /\ _name n = class_name (klass self) +:+ "." +:+ lexeme t
      end
  end.
Proof.
  intros Hin. unfold instance_get.
  destruct (Dict.get (fields self) (lexeme t)) as [v|]; [done|].
  destruct (find_method (klass self) (lexeme t)) as [m|].
  - destruct (bind_method_this m self i) as (f & i' & E & Hd & _ & _ & Hthis).
    exists f, i'. unfold bind. rewrite E. done.
  - simpl in Hin.
    destruct Hin as [<-|[<-|[<-|[<-|[<-|[<-|[<-|[]]]]]]]];
      simpl; eexists; split; reflexivity.
Qed.

Lemma builtin_resolved_last_witness :
  instance_get (tk IDENTIFIER "id") shadowing_instance sample_interpreter
  = (Ok (VStr "mine"), sample_interpreter).
Proof.
  apply (builtin_resolved_last (tk IDENTIFIER "id") shadowing_instance
           sample_interpreter).
  simpl. tauto.
Defined.

(** ** Calling a class *)




(** The call [C(1)] on the class [class C { fun init(v) { this.x = v; } }]
    runs to the new instance: a [new] event, then the write of [init]. *)
Lemma class_call_creates_instance :
  let r := evaluate 5
             (Call (Variable_ (tk IDENTIFIER "C")) (tk RIGHT_PAREN ")")
                [Literal (LNumber PrimFloat.one)]) class_declared in
  fst r = Ok (VInstance declared_class 1)
  /\ trace (snd r)
     = [EvNew 1 "C#1";
        EvSet 2 1 "C#1" "x" "<undefined>" "1" [("x", "1")]]
  /\ fields <$> instances (snd r) !! 1
     = Some [("x", VFloat PrimFloat.one)].
Proof. vm_compute. repeat split; reflexivity. Qed.

(** With the wrong number of arguments both forms raise the same message;
    the call blames its closing parenthesis, [new] the class name. *)
Lemma class_call_arity_error :
  evaluate 5 (Call (Variable_ (tk IDENTIFIER "C")) (tk RIGHT_PAREN ")") [])
    class_declared
  = (RuntimeError_ (tk RIGHT_PAREN ")") "Expected 1 arguments but got 0.",
     class_declared)
  /\ evaluate 5 (NewExpr (tk IDENTIFIER "C") []) class_declared
     = (RuntimeError_ (tk IDENTIFIER "C") "Expected 1 arguments but got 0.",
        class_declared).
Proof. split; vm_compute; reflexivity. Qed.

(** ** The 255 limit in the lists that have it *)

Lemma yields_ret {A} (Q : A -> Prop) (a : A) : Q a -> yields Q (p_ret a).
Proof. intros H p x p' [= <- _]. exact H. Qed.

Lemma yields_raise {A} (Q : A -> Prop) m : yields Q (p_raise m).
Proof. intros p x p' [=]. Qed.

Lemma yields_fuel {A} (Q : A -> Prop) : yields Q p_fuel.
Proof. intros p x p' [=]. Qed.

Lemma yields_any {A} (c : P A) : yields (fun _ => True) c.
Proof. intros p x p' _. exact I. Qed.

Lemma yields_bind {A B} (Q1 : A -> Prop) (Q2 : B -> Prop) (c : P A)
  (k : A -> P B) :
  yields Q1 c -> (forall a, Q1 a -> yields Q2 (k a)) -> yields Q2 (p_bind c k).
Proof.
  intros Hc Hk p b p'. unfold p_bind.
  destruct (c p) as [a p1| | |] eqn:E; try discriminate.
  intros H. exact (Hk a (Hc _ _ _ E) _ _ _ H).
Qed.

Lemma exprs_bounded_Forall (l : list Expr) :
  (fix all (l : list Expr) : Prop :=
     match l with
     | [] => True
     | x :: rest => expr_bounded x /\ all rest
     end) l <-> Forall expr_bounded l.
Proof.
  induction l as [|x l IH]; [split; auto|].
  rewrite Forall_cons. now rewrite IH.
Qed.

Lemma stmts_bounded_Forall (l : list Stmt) :
  (fix all (l : list Stmt) : Prop :=
     match l with
     | [] => True
     | x :: rest => stmt_bounded x /\ all rest
     end) l <-> Forall stmt_bounded l.
Proof.
  induction l as [|x l IH]; [split; auto|].
  rewrite Forall_cons. now rewrite IH.
Qed.

Lemma decl_bounded_eq name params body :
  decl_bounded (mkFunction name params body)
  <-> (length params <= 255)%nat /\ Forall stmt_bounded body.
Proof. unfold decl_bounded. simpl. now rewrite stmts_bounded_Forall. Qed.

Lemma class_bounded_eq name ms :
  stmt_bounded (ClassStmt name ms) <-> Forall decl_bounded ms.
Proof.
  simpl. induction ms as [|[n ps b] ms IH]; [split; auto|].
  rewrite Forall_cons, IH. unfold decl_bounded at 1. simpl. reflexivity.
Qed.

Ltac yield :=
  repeat match goal with
  | |- yields _ (p_ret _) => apply yields_ret
  | |- yields _ (p_raise _) => apply yields_raise
  | |- yields _ p_fuel => apply yields_fuel
  | |- yields _ (if ?b then _ else _) => destruct b
  | |- yields _ (p_bind (if _ then _ else _) _) => fail 1
  | |- yields _ (p_bind _ _) =>
      eapply yields_bind;
      [ first [ eassumption | solve [eauto 3] | apply yields_any ]
      | cbv beta; intros ? ? ]
  end.

Lemma params_loop_bounded fuel params :
  (length params <= 255)%nat ->
  yields (fun l => (length l <= 255)%nat) (Parse.params_loop fuel params).
Proof.
  revert params. induction fuel as [|n IH]; intros params H; cbn [Parse.params_loop].
  - apply yields_fuel.
  - destruct (255 <=? length params)%nat eqn:E; cbv iota; [yield|].
    apply Nat.leb_gt in E.
    eapply yields_bind; [apply yields_any|]. intros t _.
    assert (length (params ++ [t]) <= 255)%nat
      by (rewrite length_app; simpl; lia).
    yield; auto.
Qed.

Lemma call_args_bounded fuel expression args :
  yields expr_bounded expression ->
  Forall expr_bounded args -> (length args <= 255)%nat ->
  yields (fun l => Forall expr_bounded l /\ (length l <= 255)%nat)
    (Parse.call_args fuel expression args).
Proof.
  intros He. revert args.
  induction fuel as [|n IH]; intros args Ha H; cbn [Parse.call_args].
  - apply yields_fuel.
  - destruct (255 <=? length args)%nat eqn:E; cbv iota; [yield|].
    apply Nat.leb_gt in E.
    eapply yields_bind; [exact He|]. intros e Hb.
    assert (length (args ++ [e]) <= 255)%nat
      by (rewrite length_app; simpl; lia).
    assert (Forall expr_bounded (args ++ [e]))
      by (apply Forall_app; auto).
    yield; auto.
Qed.

Lemma new_args_bounded fuel expression args :
  yields expr_bounded expression ->
  Forall expr_bounded args ->
  yields (Forall expr_bounded) (Parse.new_args fuel expression args).
Proof.
  intros He. revert args.
  induction fuel as [|n IH]; intros args Ha; simpl.
  - apply yields_fuel.
  - eapply yields_bind; [exact He|]. intros e Hb.
    assert (Forall expr_bounded (args ++ [e]))
      by (apply Forall_app; auto).
    yield; auto.
Qed.

Lemma binary_loop_bounded fuel ops operand mk expr :
  yields expr_bounded operand ->
  (forall a t b, expr_bounded a -> expr_bounded b -> expr_bounded (mk a t b)) ->
  expr_bounded expr ->
  yields expr_bounded (Parse.binary_loop fuel ops operand mk expr).
Proof.
  intros Ho Hmk. revert expr.
  induction fuel as [|n IH]; intros expr He; simpl; yield; auto.
Qed.

Lemma call_loop_bounded fuel finish_call expr :
  (forall e, expr_bounded e -> yields expr_bounded (finish_call e)) ->
  expr_bounded expr ->
  yields expr_bounded (Parse.call_loop fuel finish_call expr).
Proof.
  intros Hf. revert expr.
  induction fuel as [|n IH]; intros expr He; simpl; yield; auto.
Qed.

Lemma until_brace_bounded {A} (Q : A -> Prop) fuel item items :
  yields Q item -> Forall Q items ->
  yields (Forall Q) (Parse.until_brace fuel item items).
Proof.
  intros Hi. revert items.
  induction fuel as [|n IH]; intros items Hs; simpl; yield; auto.
  apply IH, Forall_app; auto.
Qed.

Lemma parse_loop_bounded fuel declaration statements :
  yields stmt_bounded declaration -> Forall stmt_bounded statements ->
  yields (Forall stmt_bounded) (Parse.parse_loop fuel declaration statements).
Proof.
  intros Hd. revert statements.
  induction fuel as [|n IH]; intros statements Hs; simpl; yield; auto.
  apply IH, Forall_app; auto.
Qed.

Section GrammarBounded.
Variable fuel : nat.
Variable self : Parse.rec_calls.
Hypothesis self_expression : yields expr_bounded (Parse.rec_expression self).
Hypothesis self_assignment : yields expr_bounded (Parse.rec_assignment self).
Hypothesis self_unary : yields expr_bounded (Parse.rec_unary self).
Hypothesis self_statement : yields stmt_bounded (Parse.rec_statement self).
Hypothesis self_declaration : yields stmt_bounded (Parse.rec_declaration self).

Lemma primary_bounded : yields expr_bounded (Parse.primary fuel self).
Proof using All.
  unfold Parse.primary. yield; simpl; auto.
  eapply yields_bind with (Q1 := Forall expr_bounded).
  - match goal with |- yields _ (if ?c then _ else _) => destruct c end;
      [apply yields_ret; constructor|].
    apply new_args_bounded; auto.
  - intros args Ha. yield. simpl. now apply exprs_bounded_Forall.
Qed.

Lemma finish_call_bounded callee :
  expr_bounded callee ->
  yields expr_bounded (Parse.finish_call fuel self callee).
Proof using All.
  intros Hc. unfold Parse.finish_call.
  eapply yields_bind; [apply yields_any|]. intros c _.
  eapply yields_bind
    with (Q1 := fun l => Forall expr_bounded l /\ (length l <= 255)%nat).
  - destruct c; [apply yields_ret; split; [constructor|simpl; lia]|].
    apply call_args_bounded; auto. simpl; lia.
  - intros args [Ha Hl]. yield. simpl. rewrite exprs_bounded_Forall. auto.
Qed.

Lemma call_bounded : yields expr_bounded (Parse.call fuel self).
Proof using All.
  unfold Parse.call. eapply yields_bind; [apply primary_bounded|].
  intros e He. apply call_loop_bounded; auto using finish_call_bounded.
Qed.

Lemma unary_bounded : yields expr_bounded (Parse.unary fuel self).
Proof using All. unfold Parse.unary. yield; simpl; auto using call_bounded. Qed.

Lemma binary_bounded a (t : Token) b :
  expr_bounded a -> expr_bounded b -> expr_bounded (Binary a t b).
Proof using All. simpl; auto. Qed.

Lemma logical_bounded a (t : Token) b :
  expr_bounded a -> expr_bounded b -> expr_bounded (Logical a t b).
Proof using All. simpl; auto. Qed.

Ltac level sub :=
  eapply yields_bind; [apply sub|];
  intros e He; apply binary_loop_bounded;
  auto using sub, binary_bounded, logical_bounded.

Lemma factor_bounded : yields expr_bounded (Parse.factor fuel self).
Proof using All. unfold Parse.factor. level unary_bounded. Qed.

Lemma term_bounded : yields expr_bounded (Parse.term fuel self).
Proof using All. unfold Parse.term. level factor_bounded. Qed.

Lemma comparison_bounded : yields expr_bounded (Parse.comparison fuel self).
Proof using All. unfold Parse.comparison. level term_bounded. Qed.

Lemma equality_bounded : yields expr_bounded (Parse.equality fuel self).
Proof using All. unfold Parse.equality. level comparison_bounded. Qed.

Lemma and_bounded : yields expr_bounded (Parse.and_ fuel self).
Proof using All. unfold Parse.and_. level equality_bounded. Qed.

Lemma or_bounded : yields expr_bounded (Parse.or_ fuel self).
Proof using All. unfold Parse.or_. level and_bounded. Qed.

Lemma assignment_bounded : yields expr_bounded (Parse.assignment fuel self).
Proof using All.
  unfold Parse.assignment.
  eapply yields_bind; [apply or_bounded|]. intros e He.
  yield; auto.
  destruct e; yield; simpl in *; auto.
Qed.

Lemma expression_bounded : yields expr_bounded (Parse.expression fuel self).
Proof using All. exact assignment_bounded. Qed.

Lemma optional_bounded (m : bool) :
  yields (fun o => match o with Some e => expr_bounded e | None => True end)
    (if m then p_bind (Parse.expression fuel self) (fun e => p_ret (Some e))
     else p_ret None).
Proof using All.
  destruct m; [|now apply yields_ret].
  eapply yields_bind; [apply expression_bounded|].
  intros e He. now apply yields_ret.
Qed.

Lemma block_bounded : yields (Forall stmt_bounded) (Parse.block fuel self).
Proof using All.
  unfold Parse.block.
  eapply yields_bind; [apply (until_brace_bounded stmt_bounded); auto|].
  intros l Hl. yield. exact Hl.
Qed.

Lemma statement_bounded : yields stmt_bounded (Parse.statement fuel self).
Proof using All.
  pose proof expression_bounded as He.
  pose proof block_bounded as Hb.
  unfold Parse.statement, Parse.print_statement, Parse.if_statement,
    Parse.while_statement, Parse.return_statement,
    Parse.expression_statement.
  yield; simpl; auto.
  - now apply stmts_bounded_Forall.
  - eapply yields_bind
      with (Q1 := fun o => match o with Some s => stmt_bounded s
                           | None => True end).
    + yield; auto.
    + intros [s|] Hs; yield; simpl; auto.
  - eapply yields_bind
      with (Q1 := fun o => match o with Some e => expr_bounded e
                           | None => True end).
    + yield; auto.
    + intros [e|] Hv; yield; simpl; auto.
Qed.

Lemma var_declaration_bounded :
  yields stmt_bounded (Parse.var_declaration fuel self).
Proof using All.
  pose proof expression_bounded as He.
  unfold Parse.var_declaration. yield.
  eapply yields_bind
    with (Q1 := fun o => match o with Some e => expr_bounded e
                         | None => True end).
  - yield; auto.
  - intros [e|] Hv; yield; simpl; auto.
Qed.

Lemma function_bounded kind :
  yields decl_bounded (Parse.function fuel self kind).
Proof using All.
  pose proof block_bounded as Hb.
  unfold Parse.function. yield.
  eapply yields_bind with (Q1 := fun l => (length l <= 255)%nat).
  - match goal with |- yields _ (if ?c then _ else _) => destruct c end;
      [apply yields_ret; simpl; lia|].
    apply params_loop_bounded. simpl; lia.
  - intros params Hp. yield. apply decl_bounded_eq. auto.
Qed.

Lemma class_declaration_bounded :
  yields stmt_bounded (Parse.class_declaration fuel self).
Proof using All.
  assert (yields (Forall decl_bounded)
            (Parse.until_brace fuel (Parse.class_method fuel self) [])) as Hm.
  { apply until_brace_bounded; [|constructor].
    unfold Parse.class_method. yield. apply function_bounded. }
  unfold Parse.class_declaration. yield. now apply class_bounded_eq.
Qed.

Lemma declaration_bounded : yields stmt_bounded (Parse.declaration fuel self).
Proof using All.
  pose proof class_declaration_bounded as Hc.
  pose proof var_declaration_bounded as Hv.
  pose proof statement_bounded as Hs.
  pose proof (function_bounded "function") as Hf.
  unfold Parse.declaration. yield; auto.
Qed.

End GrammarBounded.

Lemma parser_at_bounded fuel :
  yields expr_bounded (Parse.rec_expression (Parse.parser_at fuel))
  /\ yields expr_bounded (Parse.rec_assignment (Parse.parser_at fuel))
  /\ yields expr_bounded (Parse.rec_unary (Parse.parser_at fuel))
  /\ yields stmt_bounded (Parse.rec_statement (Parse.parser_at fuel))
  /\ yields stmt_bounded (Parse.rec_declaration (Parse.parser_at fuel)).
Proof.
  induction fuel as [|n (He & Ha & Hu & Hs & Hd)]; simpl.
  - repeat split; apply yields_fuel.
  - repeat split.
    + now apply expression_bounded.
    + now apply assignment_bounded.
    + now apply unary_bounded.
    + now apply statement_bounded.
    + now apply declaration_bounded.
Qed.

(** Every program the parser accepts has at most 255 arguments in each call
    and at most 255 parameters in each function and method. *)
Theorem parsed_calls_and_functions_bounded (fuel : nat) (toks : list Token)
  (program : list Stmt) (p : Parser) :
  Parse.parse fuel toks = POk program p ->
  Forall stmt_bounded program.
Proof.
  unfold Parse.parse. intros H.
  refine (parse_loop_bounded fuel _ [] _ _ _ _ _ H); [|constructor].
  apply parser_at_bounded.
Qed.

Lemma parsed_calls_and_functions_bounded_witness :
  Parse.parse 20 function_tokens
  = POk function_program (mkParser function_tokens 19)
  /\ Forall stmt_bounded function_program.
Proof.
  assert (Parse.parse 20 function_tokens
          = POk function_program (mkParser function_tokens 19)) as H
    by (vm_compute; reflexivity).
  split; [exact H|].
  exact (parsed_calls_and_functions_bounded _ _ _ _ H).
Defined.

(** ** Arithmetic and comparison on numbers *)

(** The operators [-], [*], [/], [<], [<=], [>], [>=] raise a runtime error
    exactly on the operands [operands_rejected] names, and leave the
    interpreter as it was. *)
Lemma arithmetic_runtime_error (operator : Token) (left right : value)
  (i : Interpreter) :
  arithmetic (type operator) = true ->
  is_runtime_error (fst (binary_op operator left right i))
  = operands_rejected (type operator) left right
  /\ snd (binary_op operator left right i) = i.
Proof.
  intros Ha. unfold binary_op, operands_rejected, is_zero,
    check_number_operands.
  destruct (type operator); try discriminate Ha;
    destruct (as_number left) as [x|], (as_number right) as [y|];
    cbn; auto.
  all: try (match goal with |- context [lift ?r] => destruct r end; cbn; auto).
  all: destruct (Py.eq y (Py.Int 0)); cbn; auto.
  all: try (match goal with |- context [Py.truediv ?a ?b] =>
              destruct (Py.truediv a b) end; cbn; auto).
Qed.

Lemma not_bool_number (v : value) :
  type_of v <> "bool" -> (as_number v = None <-> type_of v <> "number").
Proof.
  destruct v; simpl; intros Hb; split; intros H;
    congruence || discriminate || (exfalso; apply H; reflexivity).
Qed.

(** For operands that are not booleans the operators [-], [*], [/], [<],
    [<=], [>], [>=] raise a runtime error if and only if an operand is not a
    number or the operator is [/] and the right operand is zero. *)
Theorem arithmetic_error_iff_not_number (operator : Token)
  (left right : value) (i : Interpreter) :
  arithmetic (type operator) = true ->
  type_of left <> "bool" -> type_of right <> "bool" ->
  is_runtime_error (fst (binary_op operator left right i)) = true
  <-> (type_of left <> "number" \/ type_of right <> "number"
       \/ (type operator = SLASH /\ is_zero right = true)).
Proof.
  intros Ha Hl Hr.
  rewrite (proj1 (arithmetic_runtime_error operator left right i Ha)).
  rewrite <- (not_bool_number left Hl), <- (not_bool_number right Hr).
  unfold operands_rejected.
  destruct (as_number left) as [x|] eqn:El,
           (as_number right) as [y|] eqn:Er.
  - rewrite andb_true_iff, bool_decide_eq_true.
    split; [intros H; right; right; exact H|].
    intros [H|[H|H]]; [discriminate H|discriminate H|exact H].
  - split; auto.
  - split; auto.
  - split; auto.
Qed.

Lemma arithmetic_error_iff_not_number_witness :
  is_runtime_error
    (fst (binary_op (tk MINUS "-") (VStr "a") (VInt 1) sample_interpreter))
  = true
  /\ is_runtime_error
       (fst (binary_op (tk SLASH "/") (VInt 1) (VFloat PrimFloat.zero)
               sample_interpreter))
     = true.
Proof.
  split.
  - apply (arithmetic_error_iff_not_number (tk MINUS "-") (VStr "a") (VInt 1)
             sample_interpreter);
      [reflexivity|discriminate|discriminate|left; discriminate].
  - apply (arithmetic_error_iff_not_number (tk SLASH "/") (VInt 1)
             (VFloat PrimFloat.zero) sample_interpreter);
      [reflexivity|discriminate|discriminate|].
    right; right. split; [reflexivity|vm_compute; reflexivity].
Defined.

Lemma float_eq_zero (b : float) :
  Py.eq (Py.Float b) (Py.Int 0) = PrimFloat.eqb b PrimFloat.zero.
Proof.
  rewrite FloatAxioms.eqb_spec. unfold Py.eq, Py.compare_int_float.
  change (Prim2SF PrimFloat.zero) with (S754_zero false).
  destruct (Prim2SF b) as [s| s | |s m e]; try reflexivity.
  - destruct s; reflexivity.
  - unfold SFeqb, SFcompare.
    assert (forall v, v <> 0 ->
              Py.is_Eq (Some (if 0 <=? e then 0 ?= (v * 2 ^ e)
                              else (0 * 2 ^ (- e)) ?= v)) = false) as H.
    { intros v Hv. destruct (0 <=? e) eqn:E.
      - apply Z.leb_le in E.
        destruct (0 ?= v * 2 ^ e) eqn:C; try reflexivity.
        apply Z.compare_eq in C.
        assert (0 < 2 ^ e) by (apply Z.pow_pos_nonneg; lia). nia.
      - rewrite Z.mul_0_l. destruct (0 ?= v) eqn:C; try reflexivity.
        apply Z.compare_eq in C. lia. }
    destruct s; rewrite H; try reflexivity; lia.
Qed.

(** On two [float]s, which is what number literals are, the operators [-],
    [*], [/], [<], [<=], [>], [>=] return the floating-point result and
    leave the interpreter as it was, unless the operator is [/] and the
    right operand is zero. *)
Theorem float_operands_result (operator : Token) (a b : float)
  (i : Interpreter) :
  arithmetic (type operator) = true ->
  (type operator = SLASH -> PrimFloat.eqb b PrimFloat.zero = false) ->
  binary_op operator (VFloat a) (VFloat b) i
  = (Ok (float_result (type operator) a b), i).
Proof.
  intros Ha Hz. unfold binary_op, float_result.
  destruct (type operator); try discriminate Ha; try reflexivity.
  cbn -[Py.eq]. rewrite float_eq_zero, (Hz eq_refl). cbn.
  reflexivity.
Qed.

Lemma float_operands_result_witness :
  binary_op (tk SLASH "/") (VFloat PrimFloat.one) (VFloat PrimFloat.two)
    sample_interpreter
  = (Ok (VFloat (PrimFloat.one / PrimFloat.two)), sample_interpreter).
Proof.
  apply (float_operands_result (tk SLASH "/") PrimFloat.one PrimFloat.two
           sample_interpreter).
  - reflexivity.
  - intros _. vm_compute. reflexivity.
Defined.

(** An [int] beyond the range of [float] (a product of lengths can be one)
    makes [*] with a [float] raise Python's [OverflowError], which is not a
    runtime error of the language. *)
Lemma huge_integer_operand_overflows (i : Interpreter) :
  binary_op (tk STAR "*") (VInt (2 ^ 1024)) (VFloat PrimFloat.one) i
  = (PyError Py.OverflowError, i).
Proof. vm_compute. reflexivity. Qed.

(** ** The trace debugger *)

Section DebuggerFacts.

Context {event : Type}.
Variable step : event -> Z.
Variable object : event -> option string.

Local Notation "'by_step'" := (fun a b : event => step a <= step b).

Lemma insert_Permutation e l : Debugger.insert step e l ≡ₚ e :: l.
Proof.
  induction l as [|x l IH]; simpl; [done|].
  destruct (step e <=? step x); [done|].
  rewrite IH. apply Permutation_swap.
Qed.

Lemma sorted_Permutation l : Debugger.sorted step l ≡ₚ l.
Proof.
  induction l as [|x l IH]; simpl; [done|].
  by rewrite insert_Permutation, IH.
Qed.

Lemma insert_StronglySorted e l :
  StronglySorted by_step l -> StronglySorted by_step (Debugger.insert step e l).
Proof.
  induction 1 as [|x l Hl IH Hx]; simpl.
  - by repeat constructor.
  - destruct (step e <=? step x) eqn:E.
    + apply Z.leb_le in E. constructor; [by constructor|].
      constructor; [done|].
      eapply Forall_impl; [exact Hx|]. simpl. intros; lia.
    + apply Z.leb_gt in E. constructor; [done|].
      rewrite insert_Permutation. constructor; [lia|done].
Qed.

Lemma sorted_StronglySorted l : StronglySorted by_step (Debugger.sorted step l).
Proof.
  induction l; simpl; [constructor|by apply insert_StronglySorted].
Qed.

Lemma sorted_id l : StronglySorted by_step l -> Debugger.sorted step l = l.
Proof.
  induction 1 as [|x l Hl IH Hx]; simpl; [done|].
  rewrite IH. destruct l as [|y l]; simpl; [done|].
  apply Forall_cons in Hx as [Hy _].
  by destruct (Z.leb_spec (step x) (step y)); [|lia].
Qed.

Lemma dict_get_map_values {V W} (f : V -> W) (d : Dict.t V) k :
  Dict.get (Dict.map_values f d) k = f <$> Dict.get d k.
Proof.
  induction d as [|[k' v] d IH]; simpl; [done|].
  by destruct (String.eqb k' k).
Qed.

Lemma group_get events : forall by_obj obj,
  obj <> "" ->
  Dict.get (Debugger.group object events by_obj) obj
  = match Dict.get by_obj obj, Debugger.of_object object obj events with
    | None, [] => None
    | o, es => Some (default [] o ++ es)
    end.
Proof.
  induction events as [|e events IH]; intros by_obj obj Hobj; simpl.
  - destruct (Dict.get by_obj obj); simpl; [by rewrite app_nil_r|done].
  - rewrite IH by done. unfold Debugger.of_object. rewrite filter_cons.
    destruct (object e) as [o|] eqn:Eo.
    + destruct (String.eqb o "") eqn:Ee.
      * apply String.eqb_eq in Ee. subst o.
        rewrite decide_False by congruence. done.
      * destruct (decide (o = obj)) as [->|Hne].
        -- rewrite decide_True by done. rewrite dict_get_set_eq.
           destruct (Dict.get by_obj obj); simpl; by rewrite <- ?app_assoc.
        -- rewrite decide_False by congruence.
           by rewrite dict_get_set_ne.
    + by rewrite decide_False.
Qed.

Lemma group_get_empty events : forall by_obj,
  Dict.get by_obj "" = None -> Dict.get (Debugger.group object events by_obj) "" = None.
Proof.
  induction events as [|e events IH]; intros by_obj H; simpl; [done|].
  apply IH. destruct (object e) as [o|]; [|done].
  destruct (String.eqb o "") eqn:E; [done|].
  rewrite dict_get_set_ne; [done|].
  intros ->. by rewrite String.eqb_refl in E.
Qed.

(** [build_index] files under each object name the events of that object,
    sorted by step with ties in trace order; an object without events, and
    the empty name, have no entry. *)
Theorem build_index_by_object (events : list event) (obj : string) :
  Dict.get (Debugger.build_index step object events).1.1 obj
  = match Debugger.of_object object obj events with
    | [] => None
    | es => if String.eqb obj "" then None else Some (Debugger.sorted step es)
    end.
Proof.
  assert (Dict.get (Dict.map_values (Debugger.sorted step) (Debugger.group object events [])) obj
          = match Debugger.of_object object obj events with
            | [] => None
            | es => if String.eqb obj "" then None else Some (Debugger.sorted step es)
            end) as H.
  { rewrite dict_get_map_values.
    destruct (String.eqb obj "") eqn:E.
    - apply String.eqb_eq in E. subst obj.
      rewrite group_get_empty by done. by destruct (Debugger.of_object object "" events).
    - rewrite group_get by (intros ->; by rewrite String.eqb_refl in E).
      simpl. by destruct (Debugger.of_object object obj events). }
  unfold Debugger.build_index. by destruct (map step events).
Qed.

Lemma min_step_le s steps :
  Debugger.min_step s steps <= s /\ Forall (fun x => Debugger.min_step s steps <= x) steps
  /\ Debugger.min_step s steps ∈ s :: steps.
Proof.
  unfold Debugger.min_step. revert s.
  induction steps as [|x steps IH]; intros s; simpl.
  - repeat split; [lia|constructor|by left].
  - destruct (IH (Z.min s x)) as (H1 & H2 & H3). repeat split.
    + lia.
    + constructor; [lia|done].
    + apply elem_of_cons in H3 as [H3|H3]; [|by do 2 right].
      rewrite H3. destruct (Z.min_spec s x) as [[_ ->]|[_ ->]];
        [by left|by right; left].
Qed.

Lemma max_step_ge s steps :
  s <= Debugger.max_step s steps /\ Forall (fun x => x <= Debugger.max_step s steps) steps
  /\ Debugger.max_step s steps ∈ s :: steps.
Proof.
  unfold Debugger.max_step. revert s.
  induction steps as [|x steps IH]; intros s; simpl.
  - repeat split; [lia|constructor|by left].
  - destruct (IH (Z.max s x)) as (H1 & H2 & H3). repeat split.
    + lia.
    + constructor; [lia|done].
    + apply elem_of_cons in H3 as [H3|H3]; [|by do 2 right].
      rewrite H3. destruct (Z.max_spec s x) as [[_ ->]|[_ ->]];
        [by right; left|by left].
Qed.

(** The two bounds [build_index] returns are the least and the greatest
    step of the trace, both taken by some event; they are [0] and [0] for
    an empty trace. *)
Theorem build_index_bounds (events : list event) :
  let '(_, lo, hi) := Debugger.build_index step object events in
  match events with
  | [] => lo = 0 /\ hi = 0
  | _ =>
      Forall (fun e => lo <= step e <= hi) events
      /\ (exists e, e ∈ events /\ step e = lo)
      /\ (exists e, e ∈ events /\ step e = hi)
  end.
Proof.
  unfold Debugger.build_index. destruct events as [|e events]; simpl; [done|].
  destruct (min_step_le (step e) (map step events)) as (L1 & L2 & L3).
  destruct (max_step_ge (step e) (map step events)) as (U1 & U2 & U3).
  split; [|split].
  - constructor; [lia|].
    rewrite Forall_map in L2, U2. rewrite Forall_forall in *.
    intros x Hx. specialize (L2 x Hx). specialize (U2 x Hx). simpl in *. lia.
  - change (step e :: map step events) with (map step (e :: events)) in L3.
    apply list_elem_of_In, in_map_iff in L3 as (x & <- & Hx).
    exists x. by rewrite list_elem_of_In.
  - change (step e :: map step events) with (map step (e :: events)) in U3.
    apply list_elem_of_In, in_map_iff in U3 as (x & <- & Hx).
    exists x. by rewrite list_elem_of_In.
Qed.

Lemma StronglySorted_lookup (l : list event) i j a b :
  StronglySorted by_step l -> (i <= j)%nat ->
  l !! i = Some a -> l !! j = Some b -> step a <= step b.
Proof.
  intros Hs. revert i j. induction Hs as [|x l Hl IH Hx]; intros i j Hij Ha Hb.
  - done.
  - destruct i as [|i], j as [|j]; simpl in *.
    + injection Ha as <-. injection Hb as <-. lia.
    + injection Ha as <-. rewrite Forall_forall in Hx.
      apply Hx. by eapply list_elem_of_lookup_2.
    + lia.
    + eapply IH; [|done|done]. lia.
Qed.

Lemma index_nat (l : list event) (m : nat) :
  Debugger.index l (Z.of_nat m) = l !! m.
Proof.
  unfold Debugger.index. destruct (Z.ltb_spec (Z.of_nat m) 0); [lia|].
  by rewrite Nat2Z.id.
Qed.

Lemma midpoint (a b : nat) :
  (a < b)%nat ->
  exists m : nat,
    (Z.of_nat a + (Z.of_nat b - 1)) / 2 = Z.of_nat m /\ (a <= m < b)%nat.
Proof.
  intros H. exists (Z.to_nat ((Z.of_nat a + (Z.of_nat b - 1)) / 2)).
  assert (Z.of_nat a <= (Z.of_nat a + (Z.of_nat b - 1)) / 2
          < Z.of_nat b).
  { split.
    - apply Z.div_le_lower_bound; lia.
    - apply Z.div_lt_upper_bound; lia. }
  split; lia.
Qed.

(** [last_event_leq] always answers, on any list: the loop stays inside
    the list and ends; the event it answers with is one of the list and
    its step is not after [s]. *)
Theorem last_event_leq_sound (events : list event) (s : Z) :
  exists ans,
    Debugger.last_event_leq step events s = Debugger.Answer ans
    /\ forall e, ans = Some e -> e ∈ events /\ step e <= s.
Proof.
  unfold Debugger.last_event_leq.
  assert (forall fuel (a b : nat) ans0,
            (a <= b <= length events)%nat -> (b - a < fuel)%nat ->
            (forall e, ans0 = Some e -> e ∈ events /\ step e <= s) ->
            exists ans,
              Debugger.search step fuel events s (Z.of_nat a) (Z.of_nat b - 1) ans0
              = Debugger.Answer ans
              /\ forall e, ans = Some e -> e ∈ events /\ step e <= s) as H.
  { induction fuel as [|fuel IH]; intros a b ans0 Hab Hf Hans; [lia|].
    simpl. destruct (Z.leb_spec (Z.of_nat a) (Z.of_nat b - 1)) as [Hle|Hgt].
    - destruct (midpoint a b) as (m & -> & Hm); [lia|].
      rewrite index_nat.
      destruct (lookup_lt_is_Some_2 events m) as [e He]; [lia|].
      rewrite He. destruct (Z.leb_spec (step e) s).
      + replace (Z.of_nat m + 1) with (Z.of_nat (S m)) by lia.
        apply IH; [lia|lia|].
        intros e' [= <-]. split; [by eapply list_elem_of_lookup_2|done].
      + apply (IH a m); [lia|lia|done].
    - by exists ans0. }
  replace 0 with (Z.of_nat 0) by done.
  apply H; [lia|lia|done].
Qed.

Lemma filter_all (P : event -> Prop) `{!forall e, Decision (P e)}
    (l : list event) :
  Forall P l -> filter P l = l.
Proof.
  induction 1 as [|x l Hx Hl IH]; [done|].
  by rewrite filter_cons_True, IH.
Qed.

Lemma filter_none (P : event -> Prop) `{!forall e, Decision (P e)}
    (l : list event) :
  Forall (fun e => ~ P e) l -> filter P l = [].
Proof.
  induction 1 as [|x l Hx Hl IH]; [done|].
  by rewrite filter_cons_False.
Qed.

(** On a list sorted by step, [last_event_leq] answers with the last of
    the events whose step is not after [s], and with [None] when there is
    none. *)
Theorem last_event_leq_sorted (events : list event) (s : Z) :
  StronglySorted by_step events ->
  Debugger.last_event_leq step events s
  = Debugger.Answer (last (filter (fun e => step e <= s) events)).
Proof.
  intros Hs. unfold Debugger.last_event_leq.
  assert (forall fuel (a b : nat),
            (a <= b <= length events)%nat -> (b - a < fuel)%nat ->
            Forall (fun e => step e <= s) (take a events) ->
            Forall (fun e => ~ step e <= s) (drop b events) ->
            Debugger.search step fuel events s (Z.of_nat a) (Z.of_nat b - 1)
              (last (take a events))
            = Debugger.Answer (last (filter (fun e => step e <= s) events))) as H.
  { induction fuel as [|fuel IH]; intros a b Hab Hf Hlo Hhi; [lia|].
    simpl. destruct (Z.leb_spec (Z.of_nat a) (Z.of_nat b - 1)) as [Hle|Hgt].
    - destruct (midpoint a b) as (m & -> & Hm); [lia|].
      rewrite index_nat.
      destruct (lookup_lt_is_Some_2 events m) as [e He]; [lia|].
      rewrite He. destruct (Z.leb_spec (step e) s) as [Hes|Hes].
      + replace (Z.of_nat m + 1) with (Z.of_nat (S m)) by lia.
        replace (Some e) with (last (take (S m) events))
          by (by rewrite (take_S_r _ _ _ He), last_snoc).
        apply IH; [lia|lia| |done].
        apply Forall_lookup. intros i x Hx.
        apply lookup_take_Some in Hx as [Hx Hi].
        pose proof (StronglySorted_lookup events i m x e Hs) as Hle'.
        specialize (Hle' ltac:(lia) Hx He). lia.
      + apply (IH a m); [lia|lia|done|].
        apply Forall_lookup. intros i x Hx.
        rewrite lookup_drop in Hx.
        pose proof (StronglySorted_lookup events m (m + i) e x Hs) as Hle'.
        specialize (Hle' ltac:(lia) He Hx). lia.
    - assert (a = b) as -> by lia.
      rewrite <- (take_drop b events) at 2.
      by rewrite filter_app, filter_all, filter_none, app_nil_r. }
  replace 0 with (Z.of_nat 0) by done.
  apply (H _ 0%nat (length events)); [lia|lia|constructor|].
  rewrite drop_all. constructor.
Qed.

End DebuggerFacts.

(** ** What every execution keeps *)

Lemma Expr_nested_ind (P : Expr -> Prop) :
  (forall v, P (Literal v)) ->
  (forall e, P e -> P (Grouping e)) ->
  (forall t e, P e -> P (Unary t e)) ->
  (forall a t b, P a -> P b -> P (Binary a t b)) ->
  (forall t, P (Variable_ t)) ->
  (forall t e, P e -> P (Assign t e)) ->
  (forall a t b, P a -> P b -> P (Logical a t b)) ->
  (forall c t args, P c -> Forall P args -> P (Call c t args)) ->
  (forall o t, P o -> P (Get o t)) ->
  (forall o t v, P o -> P v -> P (SetExpr o t v)) ->
  (forall t, P (This t)) ->
  (forall t args, Forall P args -> P (NewExpr t args)) ->
  forall e, P e.
Proof.
  intros HL HG HU HB HV HA HLo HC HGe HS HT HN.
  fix IH 1. intros e.
  destruct e as [v|e|t e|a t b|t|t e|a t b|c t args|o t|o t v|t|t args].
  - apply HL.
  - apply HG, IH.
  - apply HU, IH.
  - apply HB; apply IH.
  - apply HV.
  - apply HA, IH.
  - apply HLo; apply IH.
  - apply HC; [apply IH|].
    induction args as [|x args IHargs]; constructor; [apply IH|exact IHargs].
  - apply HGe, IH.
  - apply HS; apply IH.
  - apply HT.
  - apply HN.
    induction args as [|x args IHargs]; constructor; [apply IH|exact IHargs].
Qed.

Lemma Stmt_nested_ind (P : Stmt -> Prop) :
  (forall e, P (ExpressionStmt e)) ->
  (forall e, P (PrintStmt e)) ->
  (forall t e, P (VarStmt t e)) ->
  (forall l, Forall P l -> P (BlockStmt l)) ->
  (forall c t e, P t -> (forall s, e = Some s -> P s) -> P (IfStmt c t e)) ->
  (forall c b, P b -> P (WhileStmt c b)) ->
  (forall t ps b, P (FunctionStmt t ps b)) ->
  (forall t e, P (ReturnStmt t e)) ->
  (forall t ms, P (ClassStmt t ms)) ->
  forall s, P s.
Proof.
  intros HE HP HV HB HI HW HF HR HC.
  fix IH 1. intros s.
  destruct s as [e|e|t e|l|c t e|c b|t ps b|t e|t ms].
  - apply HE.
  - apply HP.
  - apply HV.
  - apply HB.
    induction l as [|x l IHl]; constructor; [apply IH|exact IHl].
  - apply HI; [apply IH|].
    destruct e as [s|]; intros s' [= <-]. apply IH.
  - apply HW, IH.
  - apply HF.
  - apply HR.
  - apply HC.
Qed.

(** The operators only compute: they leave the interpreter as it was. *)
Lemma unary_op_state t v i : snd (unary_op t v i) = i.
Proof.
  unfold unary_op, check_number_operand.
  destruct (type t); try reflexivity.
  destruct (as_number v); reflexivity.
Qed.

Lemma binary_op_state t l r i : snd (binary_op t l r i) = i.
Proof.
  unfold binary_op, check_number_operands.
  destruct (type t); try reflexivity;
    destruct (as_number l) as [x|], (as_number r) as [y|]; cbn;
    try reflexivity;
    try (destruct l, r; reflexivity);
    try (match goal with |- context [lift ?r] => destruct r end; reflexivity).
  destruct (Py.eq y (Py.Int 0)); cbn; [reflexivity|].
  match goal with |- context [Py.truediv ?a ?b] =>
    destruct (Py.truediv a b) end; reflexivity.
Qed.

Create HintDb pres.

Section Preservation.

Variable R : Interpreter -> Interpreter -> Prop.
Hypothesis R_refl : forall i, R i i.
Hypothesis R_trans : forall i j k, R i j -> R j k -> R i k.
(** The state changes the evaluator is made of. *)
Hypothesis R_frames : forall f i, R i (with_frames f i).
Hypothesis R_next_object : forall n i, R i (with_next_object n i).
Hypothesis R_stdout : forall o i, R i (with_stdout o i).
Hypothesis R_make_instance : forall k, preserves R (make_instance k).
Hypothesis R_native : forall n args, preserves R (native_call n args).
Hypothesis R_set : forall obj_id name v,
  preserves R
    (on_instance obj_id
       (fun self i =>
          let '(self, i) := Instance.set name v self i in (Ok v, self, i))).
Hypothesis R_in_environment : forall A env (body : M A),
  preserves R body -> preserves R (in_environment env body).

Lemma preserves_ret {A} (a : A) : preserves R (ret a).
Proof using R_refl. intros i. apply R_refl. Qed.

Lemma preserves_raise {A} t m : preserves R (@raise A t m).
Proof using R_refl. intros i. apply R_refl. Qed.

Lemma preserves_py_raise {A} e : preserves R (@py_raise A e).
Proof using R_refl. intros i. apply R_refl. Qed.

Lemma preserves_out_of_fuel {A} : preserves R (@out_of_fuel A).
Proof using R_refl. intros i. apply R_refl. Qed.

Lemma preserves_read {A} (f : Interpreter -> A) : preserves R (read f).
Proof using R_refl. intros i. apply R_refl. Qed.

Lemma preserves_lift {A} (r : Py.exception + A) : preserves R (lift r).
Proof using R_refl. destruct r; intros i; apply R_refl. Qed.

Lemma preserves_modify f : (forall i, R i (f i)) -> preserves R (modify f).
Proof. intros H i. apply H. Qed.

Lemma preserves_bind {A B} (c : M A) (k : A -> M B) :
  preserves R c -> (forall a, preserves R (k a)) -> preserves R (bind c k).
Proof using R_trans.
  intros Hc Hk i. unfold bind. specialize (Hc i).
  destruct (c i) as [[a| | | |] i']; simpl in *; try done.
  eapply R_trans; [exact Hc|apply Hk].
Qed.

Lemma preserves_fresh : preserves R fresh.
Proof using R_next_object. intros i. apply R_next_object. Qed.

Ltac pres :=
  repeat first
    [ apply preserves_ret | apply preserves_raise | apply preserves_py_raise
    | apply preserves_out_of_fuel | apply preserves_read
    | apply preserves_lift | apply preserves_fresh
    | apply preserves_modify; intros ?; first [apply R_frames|apply R_stdout]
    | assumption
    | solve [auto 2 with pres nocore]
    | apply preserves_bind; [|intros ?] ].

Lemma preserves_Env_new env : preserves R (Env.new env).
Proof using R_refl R_trans R_frames R_next_object. unfold Env.new. pres. Qed.

Lemma preserves_Env_define env name v : preserves R (Env.define env name v).
Proof using R_refl R_frames. destruct env; simpl; pres. Qed.

Lemma preserves_Env_get env t : preserves R (Env.get env t).
Proof using R_refl.
  intros i. unfold Env.get. destruct (Env.lookup i env (lexeme t)); apply R_refl.
Qed.
#[local] Hint Resolve preserves_Env_get : pres.
#[local] Hint Resolve preserves_Env_define : pres.
#[local] Hint Resolve preserves_Env_new : pres.

Lemma preserves_Env_assign env t v : preserves R (Env.assign env t v).
Proof using R_refl R_frames.
  induction env as [|a env IH]; simpl; [pres|].
  intros i. destruct (Dict.mem _ _); [apply R_frames|apply IH].
Qed.
#[local] Hint Resolve preserves_Env_assign : pres.

Lemma preserves_Env_own_value env name : preserves R (Env.own_value env name).
Proof using R_refl. intros i. destruct env; apply R_refl. Qed.

Lemma preserves_unary_op t v : preserves R (unary_op t v).
Proof using R_refl. intros i. rewrite unary_op_state. apply R_refl. Qed.

Lemma preserves_binary_op t l r : preserves R (binary_op t l r).
Proof using R_refl. intros i. rewrite binary_op_state. apply R_refl. Qed.

Lemma preserves_bind_method f o : preserves R (bind_method f o).
Proof using R_refl R_trans R_frames R_next_object.
  unfold bind_method. pres.
Qed.
#[local] Hint Resolve preserves_bind_method : pres.
#[local] Hint Resolve preserves_binary_op : pres.
#[local] Hint Resolve preserves_unary_op : pres.
#[local] Hint Resolve preserves_Env_own_value : pres.

Lemma preserves_instance_get t self : preserves R (instance_get t self).
Proof using R_refl R_trans R_frames R_next_object.
  unfold instance_get, native.
  destruct (Dict.get _ _); pres.
  destruct (find_method _ _); pres.
  repeat (match goal with |- context [if ?b then _ else _] => destruct b end;
          pres).
Qed.
#[local] Hint Resolve preserves_instance_get : pres.

Lemma preserves_define_params env ps args :
  preserves R (define_params env ps args).
Proof using R_refl R_trans R_frames.
  revert args. induction ps as [|p ps IH]; intros [|a args]; simpl; pres.
Qed.
#[local] Hint Resolve preserves_define_params : pres.

Lemma preserves_class_methods ms env acc :
  preserves R (class_methods ms env acc).
Proof using R_refl R_trans R_next_object.
  revert acc. induction ms as [|m ms IH]; intros acc; simpl; pres.
Qed.
#[local] Hint Resolve preserves_class_methods : pres.

Lemma preserves_while_loop fuel cond body :
  preserves R cond -> preserves R body ->
  preserves R (while_loop fuel cond body).
Proof using R_refl R_trans.
  intros Hc Hb. induction fuel as [|n IH]; simpl; pres.
  destruct (is_truthy _); pres.
Qed.

Section Evaluator.

Variable fuel : nat.
Variable function_call : OFunction -> list value -> M value.
Hypothesis R_function_call : forall f args, preserves R (function_call f args).

Lemma preserves_class_call k args :
  preserves R (Run.class_call function_call k args).
Proof using All.
  unfold Run.class_call. pres. destruct (find_method _ _); pres.
Qed.
#[local] Hint Resolve preserves_class_call : pres.

Lemma preserves_call_value paren callee args :
  preserves R (Run.call_value function_call paren callee args).
Proof using All.
  unfold Run.call_value. destruct callee; pres;
    match goal with |- context [if ?b then _ else _] => destruct b end; pres.
Qed.
#[local] Hint Resolve preserves_call_value : pres.

Ltac pres_cases :=
  repeat (match goal with
          | |- preserves _ (if ?b then _ else _) => destruct b
          | |- preserves _ (match ?v with VNone => _ | _ => _ end) =>
              destruct v
          | |- preserves _ (match ?v with Some _ => _ | None => _ end) =>
              destruct v
          end; pres).

Lemma preserves_eval_args (args : list Expr) :
  Forall (fun e => preserves R (Run.evaluate function_call e)) args ->
  preserves R
    ((fix eval_args (l : list Expr) : M (list value) :=
        match l with
        | [] => ret []
        | a :: rest =>
            v <- Run.evaluate function_call a ;;
            vs <- eval_args rest ;; ret (v :: vs)
        end) args).
Proof using R_refl R_trans. induction 1; pres. Qed.
#[local] Hint Resolve preserves_eval_args : pres.

Lemma preserves_evaluate e : preserves R (Run.evaluate function_call e).
Proof using All.
  induction e using Expr_nested_ind; simpl; pres; pres_cases;
    try apply R_set.
  unfold Run.new_value. pres_cases.
Qed.
#[local] Hint Resolve preserves_evaluate : pres.

Lemma preserves_run (l : list Stmt) :
  Forall (fun s => preserves R (Run.execute fuel function_call s)) l ->
  preserves R
    ((fix run (l : list Stmt) : M unit :=
        match l with
        | [] => ret tt
        | s :: rest => Run.execute fuel function_call s ;; run rest
        end) l).
Proof using R_refl R_trans. induction 1; pres. Qed.
#[local] Hint Resolve preserves_run : pres.

Lemma preserves_execute s :
  preserves R (Run.execute fuel function_call s).
Proof using All.
  induction s using Stmt_nested_ind; simpl; pres; pres_cases.
  - apply R_in_environment. pres.
  - match goal with H : forall s, _ = Some s -> _ |- _ =>
      apply H; reflexivity end.
  - apply preserves_while_loop; pres.
Qed.
#[local] Hint Resolve preserves_execute : pres.

Lemma preserves_execute_all l :
  preserves R (Run.execute_all fuel function_call l).
Proof using All. induction l; simpl; pres. Qed.

Lemma preserves_execute_block l env :
  preserves R (Run.execute_block fuel function_call l env).
Proof using All.
  unfold Run.execute_block. apply R_in_environment, preserves_execute_all.
Qed.

End Evaluator.

Lemma preserves_function_body execute_block f args :
  (forall l env, preserves R (execute_block l env)) ->
  preserves R (function_body execute_block f args).
Proof using R_refl R_trans R_frames R_next_object.
  intros H. unfold function_body. pres.
  intros i. specialize (H (fn_body (declaration f)) a i).
  destruct (execute_block _ _ i) as [[[]|t m|v|e|] i']; simpl in *; try done;
    destruct (is_initializer f); try done;
    (eapply R_trans; [exact H|apply preserves_Env_own_value]).
Qed.

Lemma preserves_function_call fuel f args :
  preserves R (function_call fuel f args).
Proof using All.
  revert f args. induction fuel as [|n IH]; intros f args; simpl.
  - apply preserves_out_of_fuel.
  - apply preserves_function_body. intros l env.
    by apply preserves_execute_block.
Qed.

(** Whatever all the state changes of the evaluator keep, every
    expression, statement and program keeps. *)
Lemma preserves_interpret fuel statements :
  preserves R (interpret fuel statements).
Proof using All.
  unfold interpret. apply preserves_execute_all; try assumption.
  intros f args. apply preserves_function_call.
Qed.

Lemma preserves_top_evaluate fuel e : preserves R (evaluate fuel e).
Proof using All.
  unfold evaluate. apply preserves_evaluate; try assumption.
  intros f args. apply preserves_function_call.
Qed.

Lemma preserves_top_execute fuel s : preserves R (execute fuel s).
Proof using All.
  unfold execute. apply preserves_execute; try assumption.
  intros f args. apply preserves_function_call.
Qed.

End Preservation.

(** ** Methods of an instance: steps and events *)

Lemma undo_fields_identity p self self' :
  Instance.undo_fields p self = inr self' ->
  klass self' = klass self /\ id self' = id self.
Proof.
  destruct p as [f old new s l|old new s l]; unfold Instance.undo_fields.
  - destruct (String.eqb f "__snapshot__").
    + match goal with |- context [py_dict ?x] => destruct (py_dict x) end;
        [done|]. by intros [= <-].
    + destruct old; [by intros [= <-]|].
      destruct (Dict.mem _ _); by intros [= <-].
  - by intros [= <-].
Qed.

Lemma redo_fields_identity p self self' :
  Instance.redo_fields p self = inr self' ->
  klass self' = klass self /\ id self' = id self.
Proof.
  destruct p as [f old new s l|old new s l]; unfold Instance.redo_fields.
  - destruct (String.eqb f "__snapshot__").
    + match goal with |- context [py_dict ?x] => destruct (py_dict x) end;
        [done|]. by intros [= <-].
    + by intros [= <-].
  - by intros [= <-].
Qed.

(** Every method leaves the class and the id of the instance alone, and
    moves the interpreter by at most one step and one event. *)
Lemma instance_method_effect method self i :
  instance_method method ->
  let '(_, self', i') := method self i in
  klass self' = klass self /\ id self' = id self /\ advances i i'.
Proof.
  intros [name v|line|line| |label line|label line|].
  - simpl. repeat split. by apply advance_event.
  - unfold Instance._undo. destruct (pop (past self)) as [[rest p]|];
      [|repeat split; constructor].
    simpl. destruct (Instance.undo_fields p _) as [e|self'] eqn:E;
      [repeat split; constructor|].
    apply undo_fields_identity in E as [E1 E2]. simpl in *.
    destruct (serialize_value (patch_new p));
      [repeat split; try done; constructor|].
    destruct (serialize_value (patch_old p));
      [repeat split; try done; constructor|].
    repeat split; try done. by apply advance_event.
  - unfold Instance._redo. destruct (pop (future self)) as [[rest p]|];
      [|repeat split; constructor].
    simpl. destruct (Instance.redo_fields p _) as [e|self'] eqn:E;
      [repeat split; constructor|].
    apply redo_fields_identity in E as [E1 E2]. simpl in *.
    destruct (serialize_value (patch_old p));
      [repeat split; try done; constructor|].
    destruct (serialize_value (patch_new p));
      [repeat split; try done; constructor|].
    repeat split; try done. by apply advance_event.
  - unfold Instance._history. destruct (Instance.history_entries _);
      repeat split; constructor.
  - simpl. repeat split. by apply advance_event.
  - unfold Instance._rollback. destruct (Dict.get _ _);
      [|repeat split; constructor].
    simpl. repeat split. by apply advance_event.
  - repeat split. constructor.
Qed.

Lemma advance_instances i i' : advances i i' -> instances i' = instances i.
Proof. by intros []. Qed.

Section Ticking.

Variable R : Interpreter -> Interpreter -> Prop.
Hypothesis R_refl : forall i, R i i.
Hypothesis R_trans : forall i j k, R i j -> R j k -> R i k.
Hypothesis R_frames : forall f i, R i (with_frames f i).
Hypothesis R_next_object : forall n i, R i (with_next_object n i).
Hypothesis R_stdout : forall o i, R i (with_stdout o i).
Hypothesis R_stdin : forall l i, R i (with_stdin l i).
Hypothesis R_clock : forall n i, R i (with_clock_reads n i).
Hypothesis R_environment : forall e i, R i (with_environment e i).
Hypothesis R_advance : forall i i', advances i i' -> R i i'.
Hypothesis R_update : forall k old o i,
  instances i !! k = Some old -> klass o = klass old -> id o = id old ->
  R i (with_instances (<[k := o]> (instances i)) i).
Hypothesis R_make_instance : forall k, preserves R (make_instance k).

Lemma ticking_on_instance obj_id method :
  instance_method method -> preserves R (on_instance obj_id method).
Proof using R_refl R_trans R_advance R_update.
  intros Hm i. unfold on_instance.
  destruct (instances i !! obj_id) as [self|] eqn:E; [|apply R_refl].
  pose proof (instance_method_effect method self i Hm) as H.
  destruct (method self i) as [[r self'] i'].
  destruct H as (Hk & Hi & Ha). simpl.
  eapply R_trans; [by apply R_advance|].
  eapply R_update; [|done|done].
  by rewrite (advance_instances _ _ Ha).
Qed.

Lemma ticking_native_call n args : preserves R (native_call n args).
Proof using R_refl R_trans R_stdout R_stdin R_clock R_advance R_update.
  unfold native_call.
  destruct (_func n) eqn:E, args as [|a [|b args]];
    try (intros i; apply R_refl);
    try (apply ticking_on_instance; constructor).
  - intros i. apply R_clock.
  - unfold native_len. destruct a; intros i; apply R_refl.
  - intros i. unfold native_input, host_input, bind, modify. simpl.
    destruct (stdin i); simpl; [apply R_stdout|].
    eapply R_trans; [apply R_stdout|apply R_stdin].
  - intros i. unfold native_input, host_input, bind, modify. simpl.
    destruct (stdin i); simpl; [apply R_stdout|].
    eapply R_trans; [apply R_stdout|apply R_stdin].
  - intros i. simpl. destruct (is_truthy a); apply R_refl.
  - intros i. simpl. destruct args; [|apply R_refl].
    destruct (is_truthy a); apply R_refl.
Qed.

Lemma ticking_in_environment A env (body : M A) :
  preserves R body -> preserves R (in_environment env body).
Proof using R_trans R_environment.
  intros H i. unfold in_environment.
  specialize (H (with_environment env i)).
  destruct (body _) as [r i']. simpl in *.
  eapply R_trans; [apply R_environment|].
  eapply R_trans; [exact H|apply R_environment].
Qed.

(** A relation that holds across each of the evaluator's state changes
    holds across every run of a program, finished or not. *)
Lemma ticking_interpret fuel statements :
  preserves R (interpret fuel statements).
Proof using All.
  apply preserves_interpret; auto using ticking_native_call,
    ticking_in_environment.
  intros. apply ticking_on_instance. constructor.
Qed.

Lemma ticking_execute fuel s : preserves R (execute fuel s).
Proof using All.
  apply preserves_top_execute; auto using ticking_native_call,
    ticking_in_environment.
  intros. apply ticking_on_instance. constructor.
Qed.

Lemma ticking_evaluate fuel e : preserves R (evaluate fuel e).
Proof using All.
  apply preserves_top_evaluate; auto using ticking_native_call,
    ticking_in_environment.
  intros. apply ticking_on_instance. constructor.
Qed.

End Ticking.

(** ** The current environment *)

Lemma make_instance_state k i :
  snd (make_instance k i)
  = record_event (EvNew (_step i + 1) (class_name k +:+ "#" +:+ pretty (_next_obj_id i)))
      (with_step (_step i + 1)
         (with_next_obj_id (_next_obj_id i + 1)
            (with_instances
               (<[_next_obj_id i := new_instance k (_next_obj_id i)]> (instances i))
               i))).
Proof. reflexivity. Qed.

(** Evaluating an expression, executing a statement or running a program
    leaves [self.environment] as it found it, also when the run ends in a
    runtime error, a [return] or a Python exception. *)
Theorem environment_restored (fuel : nat) (statements : list Stmt)
  (s : Stmt) (e : Expr) (i : Interpreter) :
  environment (snd (interpret fuel statements i)) = environment i
  /\ environment (snd (execute fuel s i)) = environment i
  /\ environment (snd (evaluate fuel e i)) = environment i.
Proof.
  set (R := fun i i' : Interpreter => environment i' = environment i).
  assert (forall i, R i i) as R_refl by done.
  assert (forall i j k, R i j -> R j k -> R i k) as R_trans
    by (unfold R; congruence).
  assert (forall i i', advances i i' -> R i i') as R_advance
    by (by intros ? ? []).
  assert (forall n args, preserves R (native_call n args)) as R_native
    by (intros; by apply ticking_native_call).
  assert (forall obj_id name v,
            preserves R
              (on_instance obj_id
                 (fun self i =>
                    let '(self, i) := Instance.set name v self i in
                    (Ok v, self, i)))) as R_set.
  { intros. apply ticking_on_instance; try done. constructor. }
  assert (forall A env (body : M A),
            preserves R body -> preserves R (in_environment env body))
    as R_env.
  { intros A env body _ j. unfold in_environment.
    by destruct (body _). }
  repeat split.
  - by apply (preserves_interpret R).
  - by apply (preserves_top_execute R).
  - by apply (preserves_top_evaluate R).
Qed.

(** ** The trace and the step counter *)

Lemma trace_ok_step i : trace_ok i -> trace_ok (with_step (_step i + 1) i).
Proof.
  intros [H1 H2]. split; [done|]. simpl.
  eapply Forall_impl; [exact H2|]. simpl. intros; lia.
Qed.

Lemma trace_ok_event ev i :
  event_step ev = _step i + 1 -> trace_ok i ->
  trace_ok (record_event ev (with_step (_step i + 1) i)).
Proof.
  intros He [H1 H2]. split; simpl.
  - rewrite map_app. simpl.
    induction (trace i) as [|x l IH]; simpl in *.
    + repeat constructor.
    + apply StronglySorted_inv in H1 as [H1 Hx].
      apply Forall_cons in H2 as [Hx2 H2].
      constructor; [by apply IH|].
      apply Forall_app. split; [done|].
      constructor; [lia|constructor].
  - apply Forall_app. split.
    + eapply Forall_impl; [exact H2|]. simpl. intros; lia.
    + constructor; [lia|constructor].
Qed.

Lemma later_refl i : later i i.
Proof. split; [exists []; by rewrite app_nil_r|]. split; [lia|done]. Qed.

Lemma later_trans i j k : later i j -> later j k -> later i k.
Proof.
  intros ([e1 H1] & S1 & O1) ([e2 H2] & S2 & O2). split; [|split].
  - exists (e1 ++ e2). by rewrite H2, H1, app_assoc.
  - lia.
  - auto.
Qed.

Lemma later_same i i' :
  trace i' = trace i -> _step i' = _step i -> later i i'.
Proof.
  intros Ht Hs. split; [exists []; by rewrite app_nil_r|].
  split; [lia|]. unfold trace_ok. by rewrite Ht, Hs.
Qed.

Lemma later_advance i i' : advances i i' -> later i i'.
Proof.
  intros [| |ev Hev].
  - apply later_refl.
  - split; [exists []; by rewrite app_nil_r|]. split; [simpl; lia|].
    apply trace_ok_step.
  - split; [by exists [ev]|]. split; [simpl; lia|].
    by apply trace_ok_event.
Qed.

Lemma later_make_instance k : preserves later (make_instance k).
Proof.
  intros i. rewrite make_instance_state.
  set (j := with_next_obj_id _ _).
  apply (later_trans i j); [by apply later_same|].
  apply later_advance. by apply (advance_event j).
Qed.

Lemma later_interpret fuel statements i :
  later i (snd (interpret fuel statements i)).
Proof.
  apply (ticking_interpret later);
    auto using later_refl, later_advance, later_make_instance;
    try (intros; by apply later_same).
  apply later_trans.
Qed.

(** A run only appends to the trace and never lowers the step counter:
    the events recorded before it are still there, in place, whatever the
    run ends in. *)
Theorem trace_append_only (fuel : nat) (statements : list Stmt)
  (i : Interpreter) :
  (exists events,
     trace (snd (interpret fuel statements i)) = trace i ++ events)
  /\ _step i <= _step (snd (interpret fuel statements i)).
Proof.
  destruct (later_interpret fuel statements i) as (H1 & H2 & _). by split.
Qed.

(** If the steps of the trace are strictly increasing and none is beyond
    the step counter, the same holds after a run. *)
Theorem trace_steps_increasing (fuel : nat) (statements : list Stmt)
  (i : Interpreter) :
  trace_ok i -> trace_ok (snd (interpret fuel statements i)).
Proof. by destruct (later_interpret fuel statements i) as (_ & _ & H). Qed.

(** ** The store of instances *)

Lemma keeps_refl i : keeps_instances i i.
Proof. intros H. split; [done|]. split; [lia|]. intros k o Hk. by exists o. Qed.

Lemma keeps_trans i j k :
  keeps_instances i j -> keeps_instances j k -> keeps_instances i k.
Proof.
  intros H1 H2 Hi. destruct (H1 Hi) as (Hj & N1 & K1).
  destruct (H2 Hj) as (Hk & N2 & K2). split; [done|]. split; [lia|].
  intros x o Hx. destruct (K1 x o Hx) as (o1 & Ho1 & C1 & I1).
  destruct (K2 x o1 Ho1) as (o2 & Ho2 & C2 & I2).
  exists o2. repeat split; congruence.
Qed.

Lemma keeps_same i i' :
  instances i' = instances i -> _next_obj_id i' = _next_obj_id i ->
  keeps_instances i i'.
Proof.
  intros Hs Hn Hi. unfold store_ok. rewrite Hs, Hn.
  split; [done|]. split; [lia|]. intros k o Hk. by exists o.
Qed.

Lemma keeps_update k old o i :
  instances i !! k = Some old -> klass o = klass old -> id o = id old ->
  keeps_instances i (with_instances (<[k := o]> (instances i)) i).
Proof.
  intros Hk Hc Hid Hi. split; [|split]; unfold store_ok; simpl; [|lia|].
  - intros x y. destruct (decide (x = k)) as [->|Hne].
    + rewrite lookup_insert_eq. intros [= <-]. rewrite Hid. by apply Hi.
    + rewrite lookup_insert_ne by done. apply Hi.
  - intros x y Hx. destruct (decide (x = k)) as [->|Hne].
    + rewrite lookup_insert_eq. exists o. rewrite Hx in Hk.
      injection Hk as ->. done.
    + rewrite lookup_insert_ne by done. by exists y.
Qed.

Lemma keeps_make_instance k : preserves keeps_instances (make_instance k).
Proof.
  intros i Hi. rewrite make_instance_state.
  split; [|split]; unfold store_ok; simpl; [|lia|].
  - intros x y. destruct (decide (x = _next_obj_id i)) as [->|Hne].
    + rewrite lookup_insert_eq. intros [= <-]. simpl. lia.
    + rewrite lookup_insert_ne by done. intros Hx.
      destruct (Hi x y Hx). lia.
  - intros x y Hx. destruct (Hi x y Hx) as [_ Hlt].
    rewrite lookup_insert_ne by lia. by exists y.
Qed.

(** From a well-formed store, a run never removes an instance and never
    changes the class or the id of one; ids are handed out upwards, so the
    id of an instance is never given to another. *)
Theorem instances_kept (fuel : nat) (statements : list Stmt)
  (i : Interpreter) :
  store_ok i ->
  let i' := snd (interpret fuel statements i) in
  store_ok i'
  /\ _next_obj_id i <= _next_obj_id i'
  /\ forall k o, instances i !! k = Some o ->
       exists o', instances i' !! k = Some o'
                  /\ klass o' = klass o /\ id o' = id o.
Proof.
  apply (ticking_interpret keeps_instances);
    auto using keeps_refl, keeps_make_instance, keeps_update;
    try (intros; by apply keeps_same).
  - apply keeps_trans.
  - intros j j' Ha. apply keeps_same; by destruct Ha.
  - apply keeps_update.
  - apply keeps_make_instance.
Qed.

(** ** The debugger on a trace of the interpreter *)

Lemma StronglySorted_lt_le (l : list Event) :
  StronglySorted Z.lt (map event_step l) ->
  StronglySorted (fun a b => event_step a <= event_step b) l.
Proof.
  induction l as [|x l IH]; simpl; intros H; [constructor|].
  apply StronglySorted_inv in H as [H Hx]. constructor; [by apply IH|].
  rewrite Forall_map in Hx. eapply Forall_impl; [exact Hx|].
  simpl. intros; lia.
Qed.

Lemma StronglySorted_filter {A} (R : A -> A -> Prop) (P : A -> Prop)
    `{!forall x, Decision (P x)} (l : list A) :
  StronglySorted R l -> StronglySorted R (filter P l).
Proof.
  induction 1 as [|x l Hl IH Hx]; [constructor|].
  rewrite filter_cons. destruct (decide (P x)); [|done].
  constructor; [done|]. rewrite Forall_forall in *.
  intros y [_ Hy]%list_elem_of_filter. by apply Hx.
Qed.

(** On the trace of a run the debugger's sort changes nothing; the index
    files under an object the events of that object in trace order; and
    the search in that list answers with the last event of the object
    whose step is not after [s]. *)
Theorem debugger_on_trace (i : Interpreter) (obj : string) (s : Z) :
  trace_ok i ->
  let object := fun e => Some (event_object e) in
  let mine := filter (fun e => object e = Some obj) (trace i) in
  Debugger.load_trace event_step (trace i) = trace i
  /\ Dict.get (Debugger.build_index event_step object (trace i)).1.1 obj
     = match mine with
       | [] => None
       | _ => if String.eqb obj "" then None else Some mine
       end
  /\ Debugger.last_event_leq event_step mine s
     = Debugger.Answer (last (filter (fun e => event_step e <= s) mine)).
Proof.
  intros [Hs _]. cbn zeta. apply StronglySorted_lt_le in Hs.
  split; [by apply sorted_id|]. split.
  - rewrite build_index_by_object.
    unfold Debugger.of_object.
    destruct (filter _ (trace i)) as [|e es] eqn:E; [done|].
    destruct (String.eqb obj ""); [done|].
    rewrite <- E. f_equal. apply sorted_id.
    by apply StronglySorted_filter.
  - apply last_event_leq_sorted.
    by apply StronglySorted_filter.
Qed.

(** ** The scanner *)

Lemma get_None n (s : string) :
  String.get n s = None <-> (String.length s <= n)%nat.
Proof.
  revert n. induction s as [|c s IH]; intros [|n]; simpl;
    try (split; [intros; lia|done]).
  - split; [done|lia].
  - rewrite IH. lia.
Qed.

Lemma get_Some n (s : string) :
  (n < String.length s)%nat -> exists c, String.get n s = Some c.
Proof.
  intros H. destruct (String.get n s) as [c|] eqn:E; [by exists c|].
  apply get_None in E. lia.
Qed.

Lemma newlines_before_0 (s : string) : newlines_before 0 s = 0%nat.
Proof. by destruct s. Qed.

Lemma newlines_before_S n (s : string) c :
  String.get n s = Some c ->
  newlines_before (S n) s
  = (newlines_before n s + if Ascii.eqb c Scan.newline then 1 else 0)%nat.
Proof.
  revert n. induction s as [|x s IH]; intros [|n] H; simpl in H; try done.
  - injection H as ->.
    change (newlines_before 1 (String c s))
      with ((if Ascii.eqb c Scan.newline then 1 else 0)
            + newlines_before 0 s)%nat.
    rewrite !newlines_before_0. lia.
  - change (newlines_before (S (S n)) (String x s))
      with ((if Ascii.eqb x Scan.newline then 1 else 0)
            + newlines_before (S n) s)%nat.
    change (newlines_before (S n) (String x s))
      with ((if Ascii.eqb x Scan.newline then 1 else 0)
            + newlines_before n s)%nat.
    rewrite (IH n H). lia.
Qed.

Lemma newlines_before_mono n m (s : string) :
  (n <= m)%nat -> (newlines_before n s <= newlines_before m s)%nat.
Proof.
  revert n m. induction s as [|x s IH]; intros [|n] [|m] H; simpl; try lia.
  specialize (IH n m). lia.
Qed.

Lemma scanned_refl s :
  (Scan.current s <= String.length (Scan.source s))%nat -> scanned s s.
Proof.
  intros H. split; [done|lia|done|].
  exists []. rewrite app_nil_r. repeat split; constructor.
Qed.

Lemma scanned_line_le s s' : scanned s s' -> Scan.line s <= Scan.line s'.
Proof.
  intros [_ H2 H3 _].
  pose proof (newlines_before_mono (Scan.current s) (Scan.current s')
                (Scan.source s) (proj1 H2)). lia.
Qed.

Lemma StronglySorted_app_le (l1 l2 : list Z) m :
  StronglySorted Z.le l1 -> StronglySorted Z.le l2 ->
  Forall (fun x => x <= m) l1 -> Forall (fun x => m <= x) l2 ->
  StronglySorted Z.le (l1 ++ l2).
Proof.
  intros H1 H2 F1 F2. induction H1 as [|x l1 H1 IH Hx]; simpl; [done|].
  apply Forall_cons in F1 as [Fx F1]. constructor; [by apply IH|].
  apply Forall_app. split; [done|].
  eapply Forall_impl; [exact F2|]. simpl. intros; lia.
Qed.

Lemma scanned_trans s1 s2 s3 :
  scanned s1 s2 -> scanned s2 s3 -> scanned s1 s3.
Proof.
  intros H12 H23.
  pose proof (scanned_line_le _ _ H12) as L12.
  pose proof (scanned_line_le _ _ H23) as L23.
  destruct H12 as [A1 A2 A3 (n1 & T1 & E1 & S1 & L1)].
  destruct H23 as [B1 B2 B3 (n2 & T2 & E2 & S2 & L2)].
  rewrite A1 in *. split; [done|lia|lia|].
  exists (n1 ++ n2). split; [by rewrite T2, T1, app_assoc|].
  split; [by apply Forall_app|]. split.
  - rewrite map_app. apply (StronglySorted_app_le _ _ (Scan.line s2));
      [done|done| |]; rewrite Forall_map;
      (eapply Forall_impl; [eassumption|]); simpl; intros; lia.
  - apply Forall_app. split;
      (eapply Forall_impl; [eassumption|]); simpl; intros; lia.
Qed.

Lemma scans_ret s {A} (a : A) (Q : A -> Scan.Scanner -> Prop) :
  Q a s -> scans_at s (Scan.ret a) Q.
Proof. intros H Hs. simpl. split; [by apply scanned_refl|done]. Qed.

Lemma scans_weaken s {A} (c : Scan.M A) (Q Q' : A -> Scan.Scanner -> Prop) :
  scans_at s c Q -> (forall a s', scanned s s' -> Q a s' -> Q' a s') ->
  scans_at s c Q'.
Proof.
  intros H HQ Hs. specialize (H Hs). destruct (c s); try done.
  destruct H. split; [done|]. by apply HQ.
Qed.

Lemma scans_bind s {A B} (c : Scan.M A) (k : A -> Scan.M B)
    (Q1 : A -> Scan.Scanner -> Prop) (Q2 : B -> Scan.Scanner -> Prop) :
  scans_at s c Q1 ->
  (forall a s1, scanned s s1 -> Q1 a s1 ->
     scans_at s1 (k a) (fun b s2 => scanned s s2 -> Q2 b s2)) ->
  scans_at s (Scan.bind c k) Q2.
Proof.
  intros Hc Hk Hs. unfold Scan.bind. specialize (Hc Hs).
  destruct (c s) as [a s1| | | |]; try done.
  destruct Hc as [H1 HQ]. specialize (Hk a s1 H1 HQ).
  assert (Scan.current s1 <= String.length (Scan.source s1))%nat as Hs1.
  { destruct H1 as [E C _ _]. rewrite E. lia. }
  specialize (Hk Hs1). destruct (k a s1) as [b s2| | | |]; try done.
  destruct Hk as [H2 HQ2].
  pose proof (scanned_trans _ _ _ H1 H2) as H. split; [done|by apply HQ2].
Qed.

Lemma scans_raise s {A} m (Q : A -> Scan.Scanner -> Prop) :
  scans_at s (Scan.raise m) Q.
Proof. by intros Hs. Qed.

Lemma scans_read s {A} (f : Scan.Scanner -> A) (Q : A -> Scan.Scanner -> Prop) :
  Q (f s) s -> scans_at s (Scan.read f) Q.
Proof. intros H Hs. simpl. split; [by apply scanned_refl|done]. Qed.

Lemma scans_is_at_end s (Q : bool -> Scan.Scanner -> Prop) :
  Q (String.length (Scan.source s) <=? Scan.current s)%nat s ->
  scans_at s Scan.is_at_end Q.
Proof. intros H. unfold Scan.is_at_end. by apply scans_read. Qed.

(** [peek] gives the character ahead, or the null character at the end. *)
Lemma scans_peek s (Q : ascii -> Scan.Scanner -> Prop) :
  (forall c, String.get (Scan.current s) (Scan.source s) = Some c -> Q c s) ->
  ((String.length (Scan.source s) <= Scan.current s)%nat -> Q Scan.nul s) ->
  scans_at s Scan.peek Q.
Proof.
  intros H1 H2 Hs. unfold Scan.peek, Scan.bind, Scan.is_at_end, Scan.read.
  destruct (Nat.leb_spec (String.length (Scan.source s)) (Scan.current s)).
  - simpl. split; [by apply scanned_refl|by apply H2].
  - destruct (get_Some (Scan.current s) (Scan.source s)) as [c Hc]; [lia|].
    rewrite Hc. split; [by apply scanned_refl|by apply H1].
Qed.

Lemma scans_peek_next s (Q : ascii -> Scan.Scanner -> Prop) :
  (forall c, Q c s) -> scans_at s Scan.peek_next Q.
Proof.
  intros H Hs. unfold Scan.peek_next.
  destruct (Nat.leb_spec (String.length (Scan.source s)) (Scan.current s + 1)).
  - split; [by apply scanned_refl|done].
  - destruct (get_Some (Scan.current s + 1) (Scan.source s)) as [c Hc]; [lia|].
    rewrite Hc. split; [by apply scanned_refl|done].
Qed.

(** Moving over a character that is not a newline. *)
Lemma scanned_advance s c :
  String.get (Scan.current s) (Scan.source s) = Some c ->
  c <> Scan.newline ->
  scanned s
    (Scan.mkScanner (Scan.source s) (Scan.tokens s) (Scan.start s)
       (S (Scan.current s)) (Scan.line s)).
Proof.
  intros Hc Hn.
  assert (Scan.current s < String.length (Scan.source s))%nat as Hlt.
  { destruct (Nat.ltb_spec (Scan.current s) (String.length (Scan.source s)));
      [done|]. apply get_None in H. congruence. }
  split; cbn [Scan.source Scan.current Scan.line Scan.tokens];
    [done|lia| |].
  - rewrite (newlines_before_S _ _ _ Hc).
    destruct (Ascii.eqb_spec c Scan.newline); [done|]. f_equal. lia.
  - exists []. rewrite app_nil_r. repeat split; constructor.
Qed.

Lemma scans_advance s c (Q : ascii -> Scan.Scanner -> Prop) :
  String.get (Scan.current s) (Scan.source s) = Some c ->
  c <> Scan.newline ->
  (forall s', Scan.current s' = S (Scan.current s) ->
              Scan.tokens s' = Scan.tokens s -> Scan.line s' = Scan.line s ->
              Q c s') ->
  scans_at s Scan.advance Q.
Proof.
  intros Hc Hn HQ Hs. unfold Scan.advance. rewrite Hc.
  split; [by apply (scanned_advance s c)|by apply HQ].
Qed.

Lemma scans_add_token s type_ literal (Q : unit -> Scan.Scanner -> Prop) :
  type_ <> EOF ->
  (forall s', Scan.current s' = Scan.current s -> Q tt s') ->
  scans_at s (Scan.add_token type_ literal) Q.
Proof.
  intros Ht HQ Hs. unfold Scan.add_token. split; [|by apply HQ].
  split; simpl; [done|lia|done|].
  eexists. split; [done|]. simpl.
  repeat split; repeat constructor; simpl; try done; lia.
Qed.

Lemma peek_eq s :
  (Scan.current s <= String.length (Scan.source s))%nat ->
  Scan.peek s = Scan.Done (ahead s) s.
Proof.
  intros Hs. unfold Scan.peek, Scan.bind, Scan.is_at_end, Scan.read, ahead.
  destruct (Nat.leb_spec (String.length (Scan.source s)) (Scan.current s)).
  - apply get_None in H. by rewrite H.
  - destruct (get_Some (Scan.current s) (Scan.source s)) as [c Hc]; [lia|].
    by rewrite Hc.
Qed.

Lemma ahead_get s :
  at_end s = false ->
  String.get (Scan.current s) (Scan.source s) = Some (ahead s).
Proof.
  unfold at_end, ahead. intros H. apply Nat.leb_gt in H.
  destruct (get_Some (Scan.current s) (Scan.source s)) as [c Hc]; [lia|].
  by rewrite Hc.
Qed.

Lemma ahead_nul s : at_end s = true -> ahead s = Scan.nul.
Proof.
  unfold at_end, ahead. intros H. apply Nat.leb_le, get_None in H.
  by rewrite H.
Qed.

(** [while cond(): body()] when the condition only reads the scanner and
    every turn of the body moves forward. *)
Lemma scans_while (f : Scan.Scanner -> bool) cond body
    (I : Scan.Scanner -> Prop) s0 :
  (forall s1, (Scan.current s1 <= String.length (Scan.source s1))%nat ->
              cond s1 = Scan.Done (f s1) s1) ->
  (forall s1, scanned s0 s1 -> I s1 -> f s1 = true ->
     scans_at s1 body
       (fun _ s2 => I s2 /\ (Scan.current s1 < Scan.current s2)%nat)) ->
  forall fuel s,
    scanned s0 s -> I s ->
    (String.length (Scan.source s) - Scan.current s < fuel)%nat ->
    scans_at s (Scan.while_ fuel cond body)
      (fun _ s' => I s' /\ f s' = false).
Proof.
  intros Hcond Hbody. induction fuel as [|fuel IH]; intros s H0 HI Hf; [lia|].
  intros Hs. simpl. unfold Scan.bind at 1. rewrite Hcond by done.
  destruct (f s) eqn:E.
  - pose proof (Hbody s H0 HI E Hs) as Hb. unfold Scan.bind.
    destruct (body s) as [[] s2| | | |]; try done.
    destruct Hb as (H2 & HI2 & Hlt).
    assert (Scan.source s2 = Scan.source s) as Es by (by destruct H2).
    assert (Scan.current s2 <= String.length (Scan.source s))%nat as Hb2
      by (destruct H2 as [_ C _ _]; lia).
    assert (Scan.current s2 <= String.length (Scan.source s2))%nat as Hs2
      by (by rewrite Es).
    pose proof (IH s2 (scanned_trans _ _ _ H0 H2) HI2) as Hr.
    rewrite Es in Hr. specialize (Hr ltac:(lia) Hs2).
    destruct (Scan.while_ fuel cond body s2) as [[] s3| | | |]; try done.
    destruct Hr as [H3 HQ]. split; [by eapply scanned_trans|done].
  - split; [by apply scanned_refl|done].
Qed.

Lemma char_not_newline (c : ascii) (b : bool) :
  (Ascii.eqb c Scan.newline = true -> b = false) -> b = true ->
  c <> Scan.newline.
Proof.
  intros H Hb ->. rewrite Ascii.eqb_refl in H. specialize (H eq_refl).
  congruence.
Qed.

(** One turn of a loop that moves over the character ahead. *)
Lemma scans_skip s :
  at_end s = false -> ahead s <> Scan.newline ->
  scans_at s (Scan.bind Scan.advance (fun _ => Scan.ret tt))
    (fun _ s2 => True /\ (Scan.current s < Scan.current s2)%nat).
Proof.
  intros He Hn. apply ahead_get in He.
  eapply scans_bind.
  - apply (scans_advance s (ahead s)
             (fun _ s' => Scan.current s' = S (Scan.current s))); auto.
  - intros a s1 _ Hc. simpl in Hc. apply scans_ret. intros _.
    split; [done|lia].
Qed.

Lemma at_end_ahead s (P : ascii -> bool) :
  P Scan.nul = false -> P (ahead s) = true -> at_end s = false.
Proof.
  intros H0 H1. destruct (at_end s) eqn:E; [|done].
  rewrite (ahead_nul s E) in H1. congruence.
Qed.

(** A loop that moves over the characters [P] accepts, none a newline. *)
Lemma scans_while_ahead (P : ascii -> bool) cond fuel s :
  P Scan.nul = false -> P Scan.newline = false ->
  (forall s1, (Scan.current s1 <= String.length (Scan.source s1))%nat ->
              cond s1 = Scan.Done (P (ahead s1)) s1) ->
  (String.length (Scan.source s) < fuel)%nat ->
  scans_at s
    (Scan.while_ fuel cond (Scan.bind Scan.advance (fun _ => Scan.ret tt)))
    (fun _ s' => P (ahead s') = false).
Proof.
  intros H0 Hn Hcond Hf Hs.
  pose proof (scans_while (fun s => P (ahead s)) cond
                (Scan.bind Scan.advance (fun _ => Scan.ret tt))
                (fun _ => True) s Hcond) as H.
  assert (scans_at s
            (Scan.while_ fuel cond
               (Scan.bind Scan.advance (fun _ => Scan.ret tt)))
            (fun _ s' => True /\ P (ahead s') = false)) as H'.
  { apply H; [|by apply scanned_refl|done|lia].
    intros s1 _ _ HP. apply scans_skip.
    - by apply (at_end_ahead s1 P).
    - intros E. rewrite E in HP. congruence. }
  specialize (H' Hs). destruct (Scan.while_ _ _ _ s); try done.
  by destruct H' as (? & _ & ?).
Qed.

Lemma scans_digits fuel s :
  (String.length (Scan.source s) < fuel)%nat ->
  scans_at s (Scan.digits fuel) (fun _ _ => True).
Proof.
  intros Hf. eapply scans_weaken.
  - apply (scans_while_ahead Scan.isdigit); [done|done| |done].
    intros s1 Hs1. unfold Scan.bind. by rewrite peek_eq.
  - done.
Qed.

Lemma scans_match s expected (Q : bool -> Scan.Scanner -> Prop) :
  expected <> Scan.newline -> (forall b s', Q b s') ->
  scans_at s (Scan.match_ expected) Q.
Proof.
  intros Hn HQ Hs. unfold Scan.match_, Scan.bind, Scan.is_at_end, Scan.read.
  destruct (Nat.leb_spec (String.length (Scan.source s)) (Scan.current s)).
  - split; [by apply scanned_refl|done].
  - destruct (get_Some (Scan.current s) (Scan.source s)) as [c Hc]; [lia|].
    rewrite Hc. destruct (Ascii.eqb_spec c expected) as [->|Hne]; simpl.
    + split; [by apply (scanned_advance s expected)|done].
    + split; [by apply scanned_refl|done].
Qed.

Lemma scans_two s second yes no :
  second <> Scan.newline -> yes <> EOF -> no <> EOF ->
  scans_at s (Scan.two second yes no) (fun _ _ => True).
Proof.
  intros Hs Hy Hn. unfold Scan.two. eapply scans_bind.
  - by apply (scans_match s second (fun _ _ => True)).
  - intros m s1 _ _. apply scans_add_token; [by destruct m|done].
Qed.

Lemma keyword_not_EOF text : Scan.keyword text <> EOF.
Proof.
  unfold Scan.keyword.
  repeat (match goal with |- context [if ?b then _ else _] => destruct b end;
          try done).
Qed.

Lemma scans_identifier fuel s :
  (String.length (Scan.source s) < fuel)%nat ->
  scans_at s (Scan.identifier fuel) (fun _ _ => True).
Proof.
  intros Hf. unfold Scan.identifier. eapply scans_bind.
  - apply (scans_while_ahead
             (fun c => Scan.isalnum c || Ascii.eqb c Scan.underscore));
      [done|done| |done].
    intros s1 Hs1. unfold Scan.bind. by rewrite peek_eq.
  - intros [] s1 H1 _.
    eapply scans_bind;
      [by apply (scans_read s1 Scan.text (fun _ _ => True))|].
    intros t s2 _ _. simpl. apply scans_add_token; [|done].
    apply keyword_not_EOF.
Qed.

Lemma ahead_get_Some s c :
  ahead s = c -> c <> Scan.nul ->
  String.get (Scan.current s) (Scan.source s) = Some c.
Proof.
  intros <- Hn. apply ahead_get. destruct (at_end s) eqn:E; [|done].
  by rewrite (ahead_nul s E) in Hn.
Qed.

Lemma scanned_fuel s s' fuel :
  scanned s s' -> (String.length (Scan.source s) < fuel)%nat ->
  (String.length (Scan.source s') < fuel)%nat.
Proof. by intros [-> _ _ _]. Qed.

Lemma scans_number fuel s :
  (String.length (Scan.source s) < fuel)%nat ->
  scans_at s (Scan.number fuel) (fun _ _ => True).
Proof.
  intros Hf. unfold Scan.number.
  eapply scans_bind; [by apply scans_digits|]. intros [] s1 H1 _.
  pose proof (scanned_fuel _ _ _ H1 Hf) as Hf1.
  intros Hs1. unfold Scan.bind at 1. rewrite peek_eq by done.
  revert Hs1.
  change (scans_at s1
    (Scan.bind
       (if Ascii.eqb (ahead s1) Scan.dot
        then Scan.bind Scan.peek_next
               (fun n => if Scan.isdigit n
                         then Scan.bind Scan.advance
                                (fun _ => Scan.digits fuel)
                         else Scan.ret tt)
        else Scan.ret tt)
       (fun _ => Scan.bind (Scan.read Scan.text)
          (fun t => match Scan.float_of_text t with
                    | Some value => Scan.add_token NUMBER (LNumber value)
                    | None => fun _ => Scan.ValueError
                    end)))
    (fun _ s2 => scanned s s2 -> True)).
  eapply scans_bind with (Q1 := fun _ _ => True).
  - destruct (Ascii.eqb_spec (ahead s1) Scan.dot) as [Ed|];
      [|by apply scans_ret].
    eapply scans_bind;
      [by apply (scans_peek_next s1 (fun _ s' => s' = s1))|].
    intros n s2 _ ->. destruct (Scan.isdigit n); [|by apply scans_ret].
    eapply scans_bind.
    + apply (scans_advance s1 Scan.dot (fun _ _ => True)); try done.
      by apply ahead_get_Some.
    + intros c s2 H2 _. eapply scans_weaken.
      * apply scans_digits. by eapply scanned_fuel.
      * done.
  - intros [] s2 H2 _.
    eapply scans_bind;
      [by apply (scans_read s2 Scan.text (fun _ _ => True))|].
    intros t s3 _ _. destruct (Scan.float_of_text t); [|done].
    by apply scans_add_token.
Qed.

Lemma string_body s :
  at_end s = false ->
  scans_at s
    (Scan.bind Scan.peek (fun c =>
       Scan.bind (if Ascii.eqb c Scan.newline then Scan.next_line
                  else Scan.ret tt)
         (fun _ => Scan.bind Scan.advance (fun _ => Scan.ret tt))))
    (fun _ s2 => True /\ (Scan.current s < Scan.current s2)%nat).
Proof.
  intros He Hs. unfold Scan.bind at 1. rewrite peek_eq by done.
  pose proof (ahead_get s He) as Hg.
  assert (Scan.current s < String.length (Scan.source s))%nat as Hlt
    by (by apply Nat.leb_gt in He).
  destruct (Ascii.eqb (ahead s) Scan.newline) eqn:E;
    unfold Scan.bind, Scan.next_line, Scan.ret, Scan.advance; simpl;
    rewrite Hg; (split; [|split; [done|simpl; lia]]).
  - split; cbn [Scan.source Scan.current Scan.line Scan.tokens];
      [done|lia| |].
    + rewrite (newlines_before_S _ _ _ Hg), E. lia.
    + exists []. rewrite app_nil_r. repeat split; constructor.
  - apply (scanned_advance s (ahead s)); [done|].
    intros E'. rewrite E', Ascii.eqb_refl in E. done.
Qed.

Lemma scans_loop (f : Scan.Scanner -> bool) cond body
    (I : Scan.Scanner -> Prop) fuel s :
  (forall s1, (Scan.current s1 <= String.length (Scan.source s1))%nat ->
              cond s1 = Scan.Done (f s1) s1) ->
  (forall s1, scanned s s1 -> I s1 -> f s1 = true ->
     scans_at s1 body
       (fun _ s2 => I s2 /\ (Scan.current s1 < Scan.current s2)%nat)) ->
  I s -> (String.length (Scan.source s) < fuel)%nat ->
  scans_at s (Scan.while_ fuel cond body) (fun _ s' => I s' /\ f s' = false).
Proof.
  intros Hcond Hbody HI Hf Hs.
  apply (scans_while f cond body I s Hcond Hbody); auto using scanned_refl.
  lia.
Qed.

Lemma scans_string fuel s :
  (String.length (Scan.source s) < fuel)%nat ->
  scans_at s (Scan.string_ fuel) (fun _ _ => True).
Proof.
  intros Hf. unfold Scan.string_.
  set (f := fun s => negb (Ascii.eqb (ahead s) Py.quote) && negb (at_end s)).
  eapply scans_bind with (Q1 := fun _ s' => True /\ f s' = false).
  - apply (scans_loop f _ _ (fun _ => True)); [| |done|done].
    + intros s1 Hs1. unfold Scan.bind. rewrite peek_eq by done. done.
    + intros s1 _ _ [_ He]%andb_prop. apply string_body.
      by destruct (at_end s1).
  - intros [] s1 H1 [_ Hq].
    intros Hs1. unfold Scan.bind at 1, Scan.is_at_end, Scan.read.
    fold (at_end s1). destruct (at_end s1) eqn:He; [done|].
    revert Hs1.
    change (scans_at s1
      (Scan.bind (Scan.ret tt) (fun _ =>
         Scan.bind Scan.advance (fun _ =>
           Scan.bind
             (Scan.read (fun s =>
                String.substring (Scan.start s + 1)
                  (Scan.current s - 1 - (Scan.start s + 1)) (Scan.source s)))
             (fun value => Scan.add_token STRING (LString value)))))
      (fun _ s2 => scanned s s2 -> True)).
    eapply scans_bind; [by apply (scans_ret s1 tt (fun _ s' => s' = s1))|].
    intros _ s2 _ ->. eapply scans_bind with (Q1 := fun _ _ => True).
    + apply (scans_advance s1 Py.quote); [|done|done].
      apply ahead_get_Some; [|done]. unfold f in Hq. rewrite He in Hq.
      destruct (Ascii.eqb_spec (ahead s1) Py.quote); [done|].
      by rewrite andb_true_r in Hq.
    + intros c s2 _ _.
      eapply scans_bind with (Q1 := fun _ _ => True);
        [by apply scans_read|].
      intros v s3 _ _. by apply scans_add_token.
Qed.

Lemma scans_comment fuel s :
  (String.length (Scan.source s) < fuel)%nat ->
  scans_at s
    (Scan.while_ fuel
       (Scan.bind Scan.peek (fun c =>
          Scan.bind Scan.is_at_end (fun e =>
            Scan.ret (negb (Ascii.eqb c Scan.newline) && negb e))))
       (Scan.bind Scan.advance (fun _ => Scan.ret tt)))
    (fun _ _ => True).
Proof.
  intros Hf.
  set (f := fun s => negb (Ascii.eqb (ahead s) Scan.newline)
                     && negb (at_end s)).
  eapply scans_weaken.
  - apply (scans_loop f _ _ (fun _ => True)); [| |done|done].
    + intros s1 Hs1. unfold Scan.bind. rewrite peek_eq by done. done.
    + intros s1 _ _ [Hn He]%andb_prop. apply scans_skip.
      * by destruct (at_end s1).
      * intros E. by rewrite E, Ascii.eqb_refl in Hn.
  - done.
Qed.

Lemma scanned_newline s :
  String.get (Scan.current s) (Scan.source s) = Some Scan.newline ->
  scanned s
    (Scan.mkScanner (Scan.source s) (Scan.tokens s) (Scan.start s)
       (S (Scan.current s)) (Scan.line s + 1)).
Proof.
  intros Hg.
  assert (Scan.current s < String.length (Scan.source s))%nat as Hlt.
  { destruct (Nat.ltb_spec (Scan.current s) (String.length (Scan.source s)));
      [done|]. apply get_None in H. congruence. }
  split; cbn [Scan.source Scan.current Scan.line Scan.tokens];
    [done|lia| |].
  - rewrite (newlines_before_S _ _ _ Hg). simpl. lia.
  - exists []. rewrite app_nil_r. repeat split; constructor.
Qed.

(** [scan_token], from a scanner that is not at the end, moves forward. *)
Lemma scans_scan_token fuel s :
  (String.length (Scan.source s) < fuel)%nat -> at_end s = false ->
  scans_at s (Scan.scan_token fuel)
    (fun _ s' => (Scan.current s < Scan.current s')%nat).
Proof.
  intros Hf He. pose proof (ahead_get s He) as Hg.
  destruct (Ascii.eqb_spec (ahead s) Scan.newline) as [En|Hn].
  - intros Hs. rewrite En in Hg.
    unfold Scan.scan_token, Scan.bind at 1, Scan.advance. rewrite Hg.
    cbn. split; [by apply scanned_newline|lia].
  - unfold Scan.scan_token.
    eapply scans_bind.
    + apply (scans_advance s (ahead s)
               (fun c s' => c = ahead s
                            /\ Scan.current s' = S (Scan.current s)));
        auto.
    + intros c s1 H1 [-> Hc].
      pose proof (scanned_fuel _ _ _ H1 Hf) as Hf1.
      eapply scans_weaken with (Q := fun _ _ => True).
      2:{ intros _ s2 [_ C _ _] _ _. lia. }
      repeat (match goal with
              | |- scans_at _ (if ?b then _ else _) _ => destruct b eqn:?
              end;
              [first [ by apply scans_add_token
                     | by apply scans_two
                     | by apply scans_ret
                     | by apply scans_string
                     | by apply scans_number
                     | by apply scans_identifier
                     | idtac ]|]).
      * eapply scans_bind;
          [by apply (scans_match s1 "/"%char (fun _ _ => True))|].
        intros m s2 H2 _. eapply scans_weaken with (Q := fun _ _ => True);
          [|done].
        destruct m; [|by apply scans_add_token].
        apply scans_comment. by eapply scanned_fuel.
      * match goal with H : Ascii.eqb _ Scan.newline = true |- _ =>
          apply Ascii.eqb_eq in H end. done.
      * by intros Hs1.
Qed.

Lemma scan_tokens_spec (source : string) :
  match Scan.scan_tokens source with
  | Scan.Done tokens _ =>
      exists body,
        tokens
        = body ++ [mkToken EOF "" LNone (1 + Z.of_nat (newlines source))]
        /\ Forall (fun t => type t <> EOF) body
        /\ StronglySorted Z.le (map line tokens)
        /\ Forall (fun t => 1 <= line t <= 1 + Z.of_nat (newlines source))
             tokens
  | Scan.ScanError _ | Scan.ValueError => True
  | Scan.IndexError | Scan.OutOfFuel => False
  end.
Proof.
  unfold Scan.scan_tokens.
  set (fuel := S (String.length source)).
  set (s0 := Scan.new source).
  set (f := fun s => negb (at_end s)).
  assert (scans_at s0
            (Scan.while_ fuel
               (Scan.bind Scan.is_at_end (fun e => Scan.ret (negb e)))
               (Scan.bind Scan.set_start (fun _ => Scan.scan_token fuel)))
            (fun _ s' => True /\ f s' = false)) as H.
  { apply (scans_loop f _ _ (fun _ => True)); [| |done|simpl; lia].
    - done.
    - intros s1 H1 _ Hf1. apply negb_true_iff in Hf1.
      intros Hs1. unfold Scan.bind at 1, Scan.set_start.
      set (s2 := Scan.mkScanner _ _ _ _ _).
      assert (scanned s1 s2) as H12.
      { split; [done|simpl; lia|done|]. exists [].
        rewrite app_nil_r. repeat split; constructor. }
      pose proof (scans_scan_token fuel s2) as Ht.
      specialize (Ht ltac:(destruct H1 as [E _ _ _]; simpl; rewrite E;
                           simpl; lia) Hf1 Hs1).
      destruct (Scan.scan_token fuel s2) as [[] s3| | | |]; try done.
      destruct Ht as [H23 Hlt]. split; [by eapply scanned_trans|].
      split; [done|exact Hlt]. }
  specialize (H ltac:(simpl; lia)).
  unfold Scan.scan, Scan.bind at 1.
  destruct (Scan.while_ fuel _ _ s0) as [[] s1| | | |]; try done.
  destruct H as [H1 [_ He]]. apply negb_false_iff in He. cbn.
  pose proof (scanned_line_le _ _ H1) as Hle.
  destruct H1 as [Es Hc Hl (new & Ht & Hne & Hsort & Hlines)].
  subst s0. unfold Scan.new in *.
  cbn [Scan.source Scan.current Scan.line Scan.tokens] in *.
  rewrite Ht. cbn [app].
  assert (Scan.current s1 = String.length source) as Ec.
  { unfold at_end in He. apply Nat.leb_le in He. rewrite Es in He. lia. }
  assert (Scan.line s1 = 1 + Z.of_nat (newlines source)) as El.
  { unfold newlines. rewrite Ec, newlines_before_0 in Hl. lia. }
  rewrite El in *.
  exists new. split; [done|]. split; [done|]. split.
  - rewrite map_app.
    apply (StronglySorted_app_le _ _ (1 + Z.of_nat (newlines source)));
      [done|repeat constructor| |repeat constructor; simpl; lia].
    rewrite Forall_map. eapply Forall_impl; [exact Hlines|].
    simpl. intros; lia.
  - apply Forall_app. split; [|repeat constructor; simpl; lia].
    eapply Forall_impl; [exact Hlines|]. simpl. intros; lia.
Qed.

(** Every successful scan ends in one [EOF] token with an empty lexeme,
    on the line after the last newline; no other token is an [EOF]; the
    lines of the tokens start at 1 and never go down.  The scanner never
    indexes outside the source and no loop of it runs more often than the
    source has characters. *)
Theorem scan_tokens_ends_in_EOF (source : string) :
  match Scan.scan_tokens source with
  | Scan.Done tokens _ =>
      exists body,
        tokens
        = body ++ [mkToken EOF "" LNone (1 + Z.of_nat (newlines source))]
        /\ Forall (fun t => type t <> EOF) body
        /\ StronglySorted Z.le (map line tokens)
        /\ Forall (fun t => 1 <= line t <= 1 + Z.of_nat (newlines source))
             tokens
  | Scan.ScanError _ | Scan.ValueError => True
  | Scan.IndexError | Scan.OutOfFuel => False
  end.
Proof. exact (scan_tokens_spec source). Qed.

(** ** The parser on a token list that ends in [EOF] *)

Section ParserSafety.

Variable toks : list Token.
Hypothesis toks_end : ends_in_EOF toks.

Lemma safe_ret p {A} (a : A) (Q : A -> Parser -> Prop) :
  Q a p -> safe toks p (p_ret a) Q.
Proof. intros H [Ht Hc]. simpl. by repeat split. Qed.

Lemma safe_raise p {A} m (Q : A -> Parser -> Prop) :
  safe toks p (p_raise m) Q.
Proof. by intros Hw. Qed.

Lemma safe_bind p {A B} (c : P A) (k : A -> P B)
    (Q1 : A -> Parser -> Prop) (Q : B -> Parser -> Prop) :
  safe toks p c Q1 ->
  (forall a p1, within toks p1 -> (current p <= current p1)%nat ->
     Q1 a p1 -> safe toks p1 (k a) Q) ->
  safe toks p (p_bind c k) Q.
Proof.
  intros Hc Hk Hw. unfold p_bind. specialize (Hc Hw).
  destruct (c p) as [a p1| | |]; try done.
  destruct Hc as (Hw1 & Hle & HQ). specialize (Hk a p1 Hw1 Hle HQ Hw1).
  destruct (k a p1) as [b p2| | |]; try done.
  destruct Hk as (Hw2 & Hle2 & HQ2). repeat split; try done; try apply Hw2.
  lia.
Qed.

Lemma safe_weaken p {A} (c : P A) (Q Q' : A -> Parser -> Prop) :
  safe toks p c Q ->
  (forall a p', within toks p' -> (current p <= current p')%nat ->
     Q a p' -> Q' a p') ->
  safe toks p c Q'.
Proof.
  intros H HQ Hw. specialize (H Hw). destruct (c p); try done.
  destruct H as (H1 & H2 & H3). repeat split; try done; try apply H1.
  by apply HQ.
Qed.

Lemma safe_peek p :
  safe toks p peek (fun t p' => p' = p /\ toks !! current p = Some t).
Proof.
  intros [Ht Hc]. unfold peek. rewrite Ht.
  destruct (lookup_lt_is_Some_2 toks (current p) Hc) as [t E].
  rewrite E. by repeat split.
Qed.

(** A token that is not the last one is followed by another. *)
Lemma not_EOF_not_last p t :
  within toks p -> toks !! current p = Some t -> type t <> EOF ->
  (S (current p) < length toks)%nat.
Proof using toks_end.
  intros [_ Hc] Ht Hne. destruct toks_end as (body & e & E & He).
  rewrite E in *. rewrite length_app in *. simpl in *.
  destruct (decide (current p = length body)) as [Eq|]; [|lia].
  rewrite Eq, lookup_app_r, Nat.sub_diag in Ht by lia.
  injection Ht as <-. done.
Qed.

Lemma peek_pure p :
  within toks p ->
  exists t, peek p = POk t p /\ toks !! current p = Some t.
Proof.
  intros [Ht Hc]. unfold peek. rewrite Ht.
  destruct (lookup_lt_is_Some_2 toks (current p) Hc) as [t E].
  rewrite E. by exists t.
Qed.

Lemma safe_is_at_end p :
  safe toks p is_at_end
    (fun e p' => p' = p /\ is_at_end p = POk e p
                 /\ (e = false -> (S (current p) < length toks)%nat)).
Proof using toks_end.
  intros Hw. destruct (peek_pure p Hw) as (t & Hp & Ht).
  unfold is_at_end, p_bind. rewrite Hp. simpl.
  destruct Hw as [Hw1 Hw2]. repeat split; try done.
  intros He. apply bool_decide_eq_false in He.
  by apply (not_EOF_not_last p t).
Qed.

Lemma safe_previous p :
  safe toks p previous (fun _ p' => p' = p).
Proof.
  intros [Ht Hc]. unfold previous. rewrite Ht.
  destruct (current p) as [|i] eqn:E.
  - destruct (last toks) as [t|] eqn:El.
    + repeat split; try done; lia.
    + apply last_None in El. rewrite El in Hc. simpl in Hc. lia.
  - destruct (lookup_lt_is_Some_2 toks i) as [t Ei]; [lia|].
    rewrite Ei. repeat split; try done; lia.
Qed.

Lemma is_at_end_pure p :
  within toks p -> exists e, is_at_end p = POk e p.
Proof.
  intros Hw. destruct (peek_pure p Hw) as (t & Hp & _).
  unfold is_at_end, p_bind. rewrite Hp. by eexists.
Qed.

Lemma is_at_end_false p :
  within toks p -> is_at_end p = POk false p ->
  (S (current p) < length toks)%nat.
Proof using toks_end.
  intros Hw H. pose proof (safe_is_at_end p Hw) as He. rewrite H in He.
  destruct He as (_ & _ & _ & _ & He). by apply He.
Qed.

Lemma advance_moves p :
  within toks p -> is_at_end p = POk false p ->
  exists t, advance p = POk t (mkParser toks (S (current p))).
Proof using toks_end.
  intros Hw He. pose proof (is_at_end_false p Hw He) as Hlt.
  unfold advance, p_bind. rewrite He. simpl.
  destruct Hw as [Ht Hc]. rewrite Ht.
  destruct (lookup_lt_is_Some_2 toks (current p) Hc) as [t E].
  unfold previous. simpl. rewrite E. by exists t.
Qed.

Lemma check_pure type_ p :
  within toks p ->
  exists b, check type_ p = POk b p
            /\ (b = true -> is_at_end p = POk false p).
Proof.
  intros Hw. destruct (is_at_end_pure p Hw) as [e He].
  unfold check, p_bind. rewrite He. destruct e.
  - by exists false.
  - destruct (peek_pure p Hw) as (t & -> & _). simpl. by eexists.
Qed.

(** [match] either takes one token or leaves the parser where it was. *)
Lemma safe_match types p :
  safe toks p (match_ types)
    (fun b p' => if b then current p' = S (current p) else p' = p).
Proof using toks_end.
  intros Hw. induction types as [|t types IH]; simpl.
  - repeat split; try done; apply Hw.
  - unfold p_bind at 1. destruct (check_pure t p Hw) as (b & -> & Hb).
    destruct b; [|exact IH].
    destruct (advance_moves p Hw (Hb eq_refl)) as [x Hx].
    pose proof (is_at_end_false p Hw (Hb eq_refl)) as Hlt.
    unfold p_bind. rewrite Hx. simpl. repeat split; try done. lia.
Qed.

Lemma safe_check type_ p :
  safe toks p (check type_) (fun _ p' => p' = p).
Proof using toks_end.
  intros Hw. destruct (check_pure type_ p Hw) as (b & -> & _).
  repeat split; try done; try apply Hw.
Qed.

Lemma safe_consume type_ message p :
  safe toks p (consume type_ message)
    (fun _ p' => current p' = S (current p)).
Proof using toks_end.
  intros Hw. unfold consume, p_bind at 1.
  destruct (check_pure type_ p Hw) as (b & -> & Hb). destruct b.
  - destruct (advance_moves p Hw (Hb eq_refl)) as [x Hx].
    pose proof (is_at_end_false p Hw (Hb eq_refl)) as Hlt.
    rewrite Hx. simpl. repeat split; try done. lia.
  - pose proof (safe_peek p Hw) as Hp. unfold p_bind.
    by destruct (peek p).
Qed.

Ltac lvl := unfold level, within in *; cbv beta iota in *; simpl in *; lia.

Ltac safe_step tac :=
  match goal with
  | |- safe _ _ (p_ret _) _ => apply safe_ret
  | |- safe _ _ (p_raise _) _ => apply safe_raise
  | |- safe _ _ (if ?b then _ else _) _ => destruct b; cbv beta iota in *
  | |- safe _ _ (p_bind (if _ then _ else _) _) _ => fail 1
  | |- safe _ ?p (p_bind ?c _) _ =>
      eapply (safe_bind p);
      [ first [ apply safe_peek | apply safe_previous | apply safe_check
              | apply safe_match | apply safe_consume | apply safe_is_at_end
              | tac ]
      | intros ? ? ? ? ?; cbv beta in * ]
  end.

Ltac safe_steps tac := repeat safe_step tac.

Lemma level_0 p {A} (c : P A) (Q : A -> Parser -> Prop) :
  level toks 0 p -> safe toks p c Q.
Proof. intros Hl Hw. lvl. Qed.

Lemma safe_binary_loop ops operand mk m :
  (forall p1, level toks m p1 ->
     safe toks p1 operand (fun _ p2 => (current p1 < current p2)%nat)) ->
  forall fuel expr p,
    level toks fuel p -> level toks m p ->
    safe toks p (Parse.binary_loop fuel ops operand mk expr)
      (fun _ _ => True).
Proof using toks_end.
  intros Ho. induction fuel as [|fuel IH]; intros expr p Hf Hm;
    [by apply level_0|].
  cbn [Parse.binary_loop]. safe_steps ltac:(apply Ho; lvl); try done.
  apply IH; lvl.
Qed.

Lemma safe_call_loop finish_call m :
  (forall e p1, level toks m p1 ->
     safe toks p1 (finish_call e) (fun _ _ => True)) ->
  forall fuel expr p,
    level toks fuel p -> level toks m p ->
    safe toks p (Parse.call_loop fuel finish_call expr) (fun _ _ => True).
Proof using toks_end.
  intros Hc. induction fuel as [|fuel IH]; intros expr p Hf Hm;
    [by apply level_0|].
  cbn [Parse.call_loop]. safe_steps ltac:(apply Hc; lvl); try done; apply IH; lvl.
Qed.

Lemma safe_until_brace {A} (item : P A) m :
  (forall p1, level toks m p1 ->
     safe toks p1 item (fun _ p2 => (current p1 < current p2)%nat)) ->
  forall fuel items p,
    level toks fuel p -> level toks m p ->
    safe toks p (Parse.until_brace fuel item items) (fun _ _ => True).
Proof using toks_end.
  intros Hi. induction fuel as [|fuel IH]; intros items p Hf Hm;
    [by apply level_0|].
  cbn [Parse.until_brace]. safe_steps ltac:(apply Hi; lvl); try done.
  subst. apply IH; lvl.
Qed.

Lemma safe_call_args expression m :
  (forall p1, level toks m p1 ->
     safe toks p1 expression (fun _ p2 => (current p1 < current p2)%nat)) ->
  forall fuel args p,
    level toks fuel p -> level toks m p ->
    safe toks p (Parse.call_args fuel expression args) (fun _ _ => True).
Proof using toks_end.
  intros He. induction fuel as [|fuel IH]; intros args p Hf Hm;
    [by apply level_0|].
  cbn [Parse.call_args]. safe_steps ltac:(apply He; lvl); try done.
  apply IH; lvl.
Qed.

Lemma safe_new_args expression m :
  (forall p1, level toks m p1 ->
     safe toks p1 expression (fun _ p2 => (current p1 < current p2)%nat)) ->
  forall fuel args p,
    level toks fuel p -> level toks m p ->
    safe toks p (Parse.new_args fuel expression args) (fun _ _ => True).
Proof using toks_end.
  intros He. induction fuel as [|fuel IH]; intros args p Hf Hm;
    [by apply level_0|].
  cbn [Parse.new_args]. safe_steps ltac:(apply He; lvl); try done.
  apply IH; lvl.
Qed.

Lemma safe_params_loop :
  forall fuel params p,
    level toks fuel p ->
    safe toks p (Parse.params_loop fuel params) (fun _ _ => True).
Proof using toks_end.
  induction fuel as [|fuel IH]; intros params p Hf; [by apply level_0|].
  cbn [Parse.params_loop]. safe_steps fail; try done.
  apply IH; lvl.
Qed.

Lemma safe_parse_loop declaration m :
  (forall p1, level toks m p1 ->
     safe toks p1 declaration (fun _ p2 => (current p1 < current p2)%nat)) ->
  forall fuel statements p,
    level toks fuel p -> level toks m p ->
    safe toks p (Parse.parse_loop fuel declaration statements)
      (fun _ p' => is_at_end p' = POk true p').
Proof using toks_end.
  intros Hd. induction fuel as [|fuel IH]; intros statements p Hf Hm;
    [by apply level_0|].
  cbn [Parse.parse_loop]. safe_steps ltac:(apply Hd; lvl).
  - by destruct H1 as (-> & ? & _).
  - destruct H1 as (-> & _ & H1). specialize (H1 eq_refl).
    apply IH; lvl.
Qed.

Section Grammar.

Variable n : nat.
Variable self : Parse.rec_calls.
Hypothesis self_expression : forall p, level toks n p ->
  safe toks p (Parse.rec_expression self)
    (fun _ p' => (current p < current p')%nat).
Hypothesis self_assignment : forall p, level toks n p ->
  safe toks p (Parse.rec_assignment self)
    (fun _ p' => (current p < current p')%nat).
Hypothesis self_unary : forall p, level toks n p ->
  safe toks p (Parse.rec_unary self)
    (fun _ p' => (current p < current p')%nat).
Hypothesis self_statement : forall p, level toks n p ->
  safe toks p (Parse.rec_statement self)
    (fun _ p' => (current p < current p')%nat).
Hypothesis self_declaration : forall p, level toks n p ->
  safe toks p (Parse.rec_declaration self)
    (fun _ p' => (current p < current p')%nat).

Ltac self_call :=
  first [ apply self_expression | apply self_assignment | apply self_unary
        | apply self_statement | apply self_declaration ]; lvl.

(** The optional list after an opening parenthesis. *)
Lemma safe_optional_list {A} (c : bool) (loop : P (list A)) p :
  safe toks p loop (fun _ _ => True) ->
  safe toks p (if c then p_ret [] else loop) (fun _ _ => True).
Proof. intros H. destruct c; [by apply safe_ret|done]. Qed.

Lemma safe_primary p :
  level toks (S n) p ->
  safe toks p (Parse.primary n self)
    (fun _ p' => (current p < current p')%nat).
Proof using All.
  intros Hl. unfold Parse.primary.
  safe_steps self_call; try lvl.
  eapply (safe_bind _ _ _ (fun _ _ => True)).
  - apply safe_optional_list.
    apply (safe_new_args _ n); [apply self_expression|lvl|lvl].
  - intros args q ? ? _. safe_steps self_call. lvl.
Qed.

Lemma safe_finish_call callee p :
  level toks n p ->
  safe toks p (Parse.finish_call n self callee) (fun _ _ => True).
Proof using All.
  intros Hl. unfold Parse.finish_call. safe_steps self_call.
  eapply (safe_bind _ _ _ (fun _ _ => True)).
  - apply safe_optional_list.
    apply (safe_call_args _ n); [apply self_expression|lvl|lvl].
  - intros args q ? ? _. by safe_steps self_call.
Qed.

Lemma safe_call p :
  level toks (S n) p ->
  safe toks p (Parse.call n self)
    (fun _ p' => (current p < current p')%nat).
Proof using All.
  intros Hl. unfold Parse.call.
  safe_steps ltac:(by apply safe_primary).
  eapply safe_weaken.
  - apply (safe_call_loop _ n); [|lvl|lvl].
    intros e q Hq. by apply safe_finish_call.
  - intros. lvl.
Qed.

Lemma safe_unary p :
  level toks (S n) p ->
  safe toks p (Parse.unary n self)
    (fun _ p' => (current p < current p')%nat).
Proof using All.
  intros Hl. unfold Parse.unary.
  safe_steps self_call; try lvl.
  subst. by apply safe_call.
Qed.

(** A level of binary operators over a level of operands. *)
Lemma safe_binary ops (operand : P Expr) mk p :
  (forall p1, level toks (S n) p1 ->
     safe toks p1 operand (fun _ p2 => (current p1 < current p2)%nat)) ->
  level toks (S n) p ->
  safe toks p
    (p_bind operand (fun expr => Parse.binary_loop n ops operand mk expr))
    (fun _ p' => (current p < current p')%nat).
Proof using toks_end.
  intros Ho Hl. safe_steps ltac:(by apply Ho).
  eapply safe_weaken.
  - apply (safe_binary_loop _ _ _ (S n)); [done|lvl|lvl].
  - intros. lvl.
Qed.

Lemma safe_factor p :
  level toks (S n) p ->
  safe toks p (Parse.factor n self)
    (fun _ p' => (current p < current p')%nat).
Proof using All. apply safe_binary. intros. by apply safe_unary. Qed.

Lemma safe_term p :
  level toks (S n) p ->
  safe toks p (Parse.term n self)
    (fun _ p' => (current p < current p')%nat).
Proof using All. apply safe_binary. intros. by apply safe_factor. Qed.

Lemma safe_comparison p :
  level toks (S n) p ->
  safe toks p (Parse.comparison n self)
    (fun _ p' => (current p < current p')%nat).
Proof using All. apply safe_binary. intros. by apply safe_term. Qed.

Lemma safe_equality p :
  level toks (S n) p ->
  safe toks p (Parse.equality n self)
    (fun _ p' => (current p < current p')%nat).
Proof using All. apply safe_binary. intros. by apply safe_comparison. Qed.

Lemma safe_and p :
  level toks (S n) p ->
  safe toks p (Parse.and_ n self)
    (fun _ p' => (current p < current p')%nat).
Proof using All. apply safe_binary. intros. by apply safe_equality. Qed.

Lemma safe_or p :
  level toks (S n) p ->
  safe toks p (Parse.or_ n self)
    (fun _ p' => (current p < current p')%nat).
Proof using All. apply safe_binary. intros. by apply safe_and. Qed.

Lemma safe_assignment p :
  level toks (S n) p ->
  safe toks p (Parse.assignment n self)
    (fun _ p' => (current p < current p')%nat).
Proof using All.
  intros Hl. unfold Parse.assignment.
  safe_steps ltac:(first [by apply safe_or | self_call]); try lvl.
  match goal with |- safe _ _ (match ?e with Variable_ _ => _ | _ => _ end) _ =>
    destruct e end; safe_steps fail; lvl.
Qed.

Lemma safe_expression p :
  level toks (S n) p ->
  safe toks p (Parse.expression n self)
    (fun _ p' => (current p < current p')%nat).
Proof using All. apply safe_assignment. Qed.

Ltac grammar_call :=
  first [ apply safe_expression; lvl | self_call ].

Lemma safe_expression_statement p :
  level toks (S n) p ->
  safe toks p (Parse.expression_statement n self)
    (fun _ p' => (current p < current p')%nat).
Proof using All.
  intros Hl. unfold Parse.expression_statement.
  safe_steps grammar_call. lvl.
Qed.

Lemma safe_print_statement p :
  level toks (S n) p ->
  safe toks p (Parse.print_statement n self)
    (fun _ p' => (current p < current p')%nat).
Proof using All.
  intros Hl. unfold Parse.print_statement.
  safe_steps grammar_call. lvl.
Qed.

Lemma safe_block p :
  level toks n p ->
  safe toks p (Parse.block n self)
    (fun _ p' => (current p < current p')%nat).
Proof using All.
  intros Hl. unfold Parse.block.
  eapply (safe_bind _ _ _ (fun _ _ => True)).
  - apply (safe_until_brace _ n); [apply self_declaration|lvl|lvl].
  - intros l q ? ? _. safe_steps fail. lvl.
Qed.

Lemma safe_optional {A B} (m : bool) (c : P A) (f : A -> B) p :
  safe toks p c (fun _ _ => True) ->
  safe toks p (if m then p_bind c (fun x => p_ret (Some (f x)))
               else p_ret None)
    (fun _ _ => True).
Proof.
  intros H. destruct m; [|by apply safe_ret].
  eapply safe_bind; [exact H|]. intros. by apply safe_ret.
Qed.

Lemma safe_while_statement p :
  level toks n p ->
  safe toks p (Parse.while_statement n self)
    (fun _ p' => (current p < current p')%nat).
Proof using All.
  intros Hl. unfold Parse.while_statement.
  safe_steps grammar_call. lvl.
Qed.

Lemma safe_if_statement p :
  level toks n p ->
  safe toks p (Parse.if_statement n self)
    (fun _ p' => (current p < current p')%nat).
Proof using All.
  intros Hl. unfold Parse.if_statement.
  safe_steps grammar_call.
  eapply (safe_bind _ _ _ (fun _ _ => True)).
  - apply (safe_optional _ _ (fun s => s)).
    eapply safe_weaken; [apply self_statement; lvl|done].
  - intros. apply safe_ret. lvl.
Qed.

Lemma safe_return_statement p :
  level toks n p ->
  safe toks p (Parse.return_statement n self)
    (fun _ p' => (current p < current p')%nat).
Proof using All.
  intros Hl. unfold Parse.return_statement.
  safe_steps grammar_call.
  eapply (safe_bind _ _ _ (fun _ _ => True)).
  - match goal with |- safe _ _ (if ?c then _ else _) _ => destruct c end;
      [by apply safe_ret|].
    eapply safe_bind;
      [eapply safe_weaken; [apply safe_expression; lvl|done]|].
    intros. by apply safe_ret.
  - intros. safe_steps fail. lvl.
Qed.

Lemma safe_statement p :
  level toks (S n) p ->
  safe toks p (Parse.statement n self)
    (fun _ p' => (current p < current p')%nat).
Proof using All.
  intros Hl. unfold Parse.statement.
  safe_steps
    ltac:(first [ apply safe_print_statement; lvl
                | apply safe_block; lvl
                | apply safe_if_statement; lvl
                | apply safe_while_statement; lvl
                | apply safe_return_statement; lvl ]);
    try lvl.
  - eapply safe_weaken; [apply safe_print_statement; lvl|intros; lvl].
  - eapply safe_weaken; [apply safe_if_statement; lvl|intros; lvl].
  - eapply safe_weaken; [apply safe_while_statement; lvl|intros; lvl].
  - eapply safe_weaken; [apply safe_return_statement; lvl|intros; lvl].
  - subst. by apply safe_expression_statement.
Qed.

Lemma safe_var_declaration p :
  level toks n p ->
  safe toks p (Parse.var_declaration n self)
    (fun _ p' => (current p < current p')%nat).
Proof using All.
  intros Hl. unfold Parse.var_declaration.
  safe_steps grammar_call.
  eapply (safe_bind _ _ _ (fun _ _ => True)).
  - apply (safe_optional _ _ (fun e => e)).
    eapply safe_weaken; [apply safe_expression; lvl|done].
  - intros. safe_steps fail. lvl.
Qed.

Lemma safe_function kind p :
  level toks n p ->
  safe toks p (Parse.function n self kind)
    (fun _ p' => (current p < current p')%nat).
Proof using All.
  intros Hl. unfold Parse.function.
  safe_steps grammar_call.
  eapply (safe_bind _ _ _ (fun _ _ => True)).
  - apply safe_optional_list. apply safe_params_loop. lvl.
  - intros. safe_steps ltac:(apply safe_block; lvl). lvl.
Qed.

Lemma safe_class_declaration p :
  level toks n p ->
  safe toks p (Parse.class_declaration n self)
    (fun _ p' => (current p < current p')%nat).
Proof using All.
  intros Hl. unfold Parse.class_declaration.
  safe_steps fail.
  eapply (safe_bind _ _ _ (fun _ _ => True)).
  - apply (safe_until_brace _ n); [|lvl|lvl].
    intros q Hq. unfold Parse.class_method.
    safe_steps fail. eapply safe_weaken; [apply safe_function; lvl|].
    intros; lvl.
  - intros. safe_steps fail. lvl.
Qed.

Lemma safe_declaration p :
  level toks (S n) p ->
  safe toks p (Parse.declaration n self)
    (fun _ p' => (current p < current p')%nat).
Proof using All.
  intros Hl. unfold Parse.declaration.
  safe_steps ltac:(first [ apply safe_function; lvl ]); try lvl.
  - eapply safe_weaken; [apply safe_class_declaration; lvl|intros; lvl].
  - eapply safe_weaken; [apply safe_var_declaration; lvl|intros; lvl].
  - subst. by apply safe_statement.
Qed.

End Grammar.

Lemma safe_parser_at n :
  (forall p, level toks n p ->
     safe toks p (Parse.rec_expression (Parse.parser_at n))
       (fun _ p' => (current p < current p')%nat))
  /\ (forall p, level toks n p ->
        safe toks p (Parse.rec_assignment (Parse.parser_at n))
          (fun _ p' => (current p < current p')%nat))
  /\ (forall p, level toks n p ->
        safe toks p (Parse.rec_unary (Parse.parser_at n))
          (fun _ p' => (current p < current p')%nat))
  /\ (forall p, level toks n p ->
        safe toks p (Parse.rec_statement (Parse.parser_at n))
          (fun _ p' => (current p < current p')%nat))
  /\ (forall p, level toks n p ->
        safe toks p (Parse.rec_declaration (Parse.parser_at n))
          (fun _ p' => (current p < current p')%nat)).
Proof using toks_end.
  induction n as [|n (He & Ha & Hu & Hs & Hd)].
  - repeat split; intros p Hl; by apply level_0.
  - simpl. repeat split; intros p Hl.
    + by apply safe_expression.
    + by apply safe_assignment.
    + by apply safe_unary.
    + by apply safe_statement.
    + by apply safe_declaration.
Qed.

End ParserSafety.

Lemma parse_spec (fuel : nat) (toks : list Token) :
  ends_in_EOF toks -> (length toks <= fuel)%nat ->
  match Parse.parse fuel toks with
  | POk _ p => is_at_end p = POk true p /\ tokens p = toks
  | PParseError _ => True
  | PIndexError | PFuel => False
  end.
Proof.
  intros He Hf. unfold Parse.parse.
  assert (within toks (mkParser toks 0)) as Hw.
  { split; [done|]. destruct He as (body & t & -> & _).
    rewrite length_app. simpl. lia. }
  pose proof (safe_parse_loop toks He
                (Parse.rec_declaration (Parse.parser_at fuel)) fuel) as H.
  specialize (H (proj2 (proj2 (proj2 (proj2 (safe_parser_at toks He fuel)))))
                fuel [] (mkParser toks 0)).
  specialize (H ltac:(unfold level; simpl; lia) ltac:(unfold level; simpl; lia)
                Hw).
  destruct (Parse.parse_loop _ _ _ _) as [l p| | |]; try done.
  destruct H as ([Ht _] & _ & H). by split.
Qed.

(** On a token list that ends in an [EOF] token, as the scanner's lists
    do, the parser never indexes outside the list, and a budget of as many
    nested calls and loop turns as the list has tokens is enough: the
    result is a program or a [ParseError].  A program is returned with
    the parser on an [EOF] token. *)
Theorem parse_safe (fuel : nat) (toks : list Token) :
  ends_in_EOF toks -> (length toks <= fuel)%nat ->
  match Parse.parse fuel toks with
  | POk _ p => is_at_end p = POk true p /\ tokens p = toks
  | PParseError _ => True
  | PIndexError | PFuel => False
  end.
Proof. exact (parse_spec fuel toks). Qed.

(** Scanning a source and parsing the tokens, with a budget of as many
    nested calls and loop turns as there are tokens, ends in a program, a
    [ScanError], a [ValueError] of [float] or a [ParseError]: the two
    never index outside their input and the budget is enough. *)
Theorem scan_then_parse (source : string) :
  match Scan.scan_tokens source with
  | Scan.Done toks _ =>
      match Parse.parse (length toks) toks with
      | POk _ _ | PParseError _ => True
      | PIndexError | PFuel => False
      end
  | Scan.ScanError _ | Scan.ValueError => True
  | Scan.IndexError | Scan.OutOfFuel => False
  end.
Proof.
  pose proof (scan_tokens_spec source) as Hs.
  destruct (Scan.scan_tokens source) as [toks s| | | |]; try done.
  destruct Hs as (body & Eq & _).
  assert (ends_in_EOF toks) as He by (by eexists _, _).
  pose proof (parse_spec (length toks) toks He (Nat.le_refl _)) as Hp.
  by destruct (Parse.parse _ _).
Qed.
